(** * Session routing, session store, model selection, cron and host-env
    sanitising: a shallow embedding of the TypeScript sources and the
    properties the specification states about them.

    Conventions of the embedding.
    - A JavaScript string is a [string]; the embedding covers ASCII text:
      [toLowerCase] and [toUpperCase] act on the ASCII letters and [trim]
      removes the ASCII white space (TAB, LF, VT, FF, CR, SPACE).
    - A JavaScript number that holds a millisecond timestamp or a count is a
      [Z]; an optional property ([x?: T], [T | undefined]) is an [option T].
    - A [Set<string>] is a [gset string], an object used as a dictionary is a
      [gmap string _]; where the iteration order of [Object.entries] matters
      the object is an association list.
    - Calls that leave the process (clock, random UUIDs, files, delivery of
      a message) are explicit inputs of the function that makes them. *)

From Stdlib Require Import ZArith Ascii String List Bool Lia Permutation.
From stdpp Require Import base option list gmap strings.

Open Scope string_scope.

(* ===================================================================== *)
(** * Part I: definitions                                                 *)
(* ===================================================================== *)

(** ** JavaScript string primitives

    A string is modelled as its sequence of 8-bit characters, which is
    faithful for strings of ASCII characters (codes below 128). On other
    characters JavaScript does more than the definitions below: [trim]
    also strips U+00A0, U+FEFF, U+2028 and the like, and [toLowerCase]
    and [toUpperCase] follow the Unicode case mappings (U+212A becomes
    [k], U+017F becomes [S]). A property that turns on trimming or on
    the case of letters is therefore stated for ASCII strings. *)

Module JsString.

Definition chars (s : string) : list ascii := list_ascii_of_string s.
Definition str (l : list ascii) : string := string_of_list_ascii l.

Definition code (c : ascii) : nat := nat_of_ascii c.

Definition between (lo hi : nat) (c : ascii) : bool :=
  (lo <=? code c)%nat && (code c <=? hi)%nat.

Definition isUpper : ascii -> bool := between 65 90.
Definition isLower : ascii -> bool := between 97 122.
Definition isDigit : ascii -> bool := between 48 57.

(** White space removed by [String.prototype.trim], among the ASCII
    characters. *)
Definition isWhiteSpace (c : ascii) : bool :=
  between 9 13 c || (code c =? 32)%nat.

Definition lowerChar (c : ascii) : ascii :=
  if isUpper c then ascii_of_nat (code c + 32) else c.
Definition upperChar (c : ascii) : ascii :=
  if isLower c then ascii_of_nat (code c - 32) else c.

(** [toLowerCase] and [toUpperCase], as they act on ASCII characters. *)
Definition toLowerCase (s : string) : string := str (map lowerChar (chars s)).
Definition toUpperCase (s : string) : string := str (map upperChar (chars s)).

Fixpoint dropWhile (p : ascii -> bool) (l : list ascii) : list ascii :=
  match l with
  | [] => []
  | c :: r => if p c then dropWhile p r else l
  end.

Definition dropWhileEnd (p : ascii -> bool) (l : list ascii) : list ascii :=
  rev (dropWhile p (rev l)).

Definition trimChars (l : list ascii) : list ascii :=
  dropWhileEnd isWhiteSpace (dropWhile isWhiteSpace l).

Definition trim (s : string) : string := str (trimChars (chars s)).

(** Truthiness of a string: the empty string is the only falsy one. *)
Definition truthy (s : string) : bool :=
  match s with EmptyString => false | String _ _ => true end.

(** [a || b] on strings. *)
Definition orElse (a b : string) : string := if truthy a then a else b.

Fixpoint startsWithChars (p l : list ascii) : bool :=
  match p, l with
  | [], _ => true
  | _ :: _, [] => false
  | a :: p', b :: l' => Ascii.eqb a b && startsWithChars p' l'
  end.

Definition startsWith (s p : string) : bool :=
  startsWithChars (chars p) (chars s).

(** [s.slice(0, n)]. *)
Definition sliceTo (n : nat) (s : string) : string := str (take n (chars s)).

(** [s.split(sep)] for a one-character separator. *)
Fixpoint splitChars (sep : ascii) (cur : list ascii) (l : list ascii)
  : list string :=
  match l with
  | [] => [str (rev cur)]
  | c :: r =>
      if Ascii.eqb c sep then str (rev cur) :: splitChars sep [] r
      else splitChars sep (c :: cur) r
  end.

Definition split (sep : ascii) (s : string) : list string :=
  splitChars sep [] (chars s).

(** [parts.join(sep)]. *)
Fixpoint join (sep : string) (parts : list string) : string :=
  match parts with
  | [] => ""
  | [p] => p
  | p :: rest => p ++ sep ++ join sep rest
  end.

(** [s.indexOf(c)] for one character: [None] stands for [-1]. *)
Fixpoint indexOfChars (c : ascii) (l : list ascii) : option nat :=
  match l with
  | [] => None
  | a :: r => if Ascii.eqb a c then Some 0%nat
              else option_map S (indexOfChars c r)
  end.

Definition indexOf (c : ascii) (s : string) : option nat :=
  indexOfChars c (chars s).

(** A string of ASCII characters, on which the primitives above are
    those of JavaScript. *)
Definition isAscii (s : string) : bool :=
  forallb (fun c => (code c <? 128)%nat) (chars s).

(** A list of characters without the separator [sep]. *)
Definition sepFree (sep : ascii) (l : list ascii) : Prop :=
  Forall (fun c => Ascii.eqb c sep = false) l.


(** [s.split(/\r?\n/)]: a line feed ends a piece, and takes the carriage
    return before it along. *)
Fixpoint splitLinesChars (cur : list ascii) (l : list ascii)
  : list (list ascii) :=
  match l with
  | [] => [rev cur]
  | c :: r =>
      if Ascii.eqb c "010" then rev cur :: splitLinesChars [] r
      else if Ascii.eqb c "013" then
        match r with
        | d :: r' =>
            if Ascii.eqb d "010" then rev cur :: splitLinesChars [] r'
            else splitLinesChars (c :: cur) r
        | [] => splitLinesChars (c :: cur) r
        end
      else splitLinesChars (c :: cur) r
  end.

Definition splitLines (s : string) : list string :=
  map str (splitLinesChars [] (chars s)).

(** [s.endsWith(c)] for one character. *)
Definition endsWithChar (c : ascii) (s : string) : bool :=
  match rev (chars s) with
  | d :: _ => Ascii.eqb d c
  | [] => false
  end.

Definition newline : string := String "010" "".

End JsString.

(** ** Session keys ([src/routing/session-key.ts]) *)

Module SessionKey.
Import JsString.

Definition DEFAULT_AGENT_ID : string := "main".
Definition DEFAULT_MAIN_KEY : string := "main".
Definition DEFAULT_ACCOUNT_ID : string := "default".

(** [value ?? ""] *)
Definition orEmpty (value : option string) : string := default "" value.

Definition normalizeToken (value : option string) : string :=
  toLowerCase (trim (orEmpty value)).

Definition normalizeMainKey (value : option string) : string :=
  let trimmed := trim (orEmpty value) in
  if truthy trimmed then trimmed else DEFAULT_MAIN_KEY.

(** The class [[a-z0-9]] under the [i] flag. *)
Definition isAlnumI (c : ascii) : bool := isLower c || isUpper c || isDigit c.
(** The class [[a-z0-9_-]] under the [i] flag. *)
Definition isIdCharI (c : ascii) : bool :=
  isAlnumI c || Ascii.eqb c "_" || Ascii.eqb c "-".
(** The class [[a-z0-9_-]], case sensitive. *)
Definition isIdChar (c : ascii) : bool :=
  isLower c || isDigit c || Ascii.eqb c "_" || Ascii.eqb c "-".

(** [/^[a-z0-9][a-z0-9_-]{0,63}$/i.test(s)] *)
Definition isValidId (s : string) : bool :=
  match chars s with
  | [] => false
  | c :: r => isAlnumI c && forallb isIdCharI r && (length r <=? 63)%nat
  end.

(** [.replace(/[^a-z0-9_-]+/g, "-")]: [inRun] tells that the previous
    character was already part of the run being replaced. *)
Fixpoint collapseInvalid (inRun : bool) (l : list ascii) : list ascii :=
  match l with
  | [] => []
  | c :: r =>
      if isIdChar c then c :: collapseInvalid false r
      else if inRun then collapseInvalid true r
      else "-"%char :: collapseInvalid true r
  end.

(** The maximal runs of a list: each run with the value that [p] has on
    all of its characters. *)
Fixpoint runsOf (p : ascii -> bool) (l : list ascii)
  : list (bool * list ascii) :=
  match l with
  | [] => []
  | c :: r =>
      match runsOf p r with
      | (b, run) :: runs =>
          if Bool.eqb b (p c) then (b, c :: run) :: runs
          else (p c, [c]) :: (b, run) :: runs
      | [] => [(p c, [c])]
      end
  end.

(** The specification's words for the replacement, to be compared with
    [collapseInvalid]: every maximal run of characters outside
    [[a-z0-9_-]] becomes one ["-"], every other run stays. *)
Definition collapsedRuns (l : list ascii) : list ascii :=
  concat (map (fun run : bool * list ascii =>
                 if fst run then snd run else ["-"%char])
            (runsOf isIdChar l)).

Definition isDash (c : ascii) : bool := Ascii.eqb c "-".

(** The fallback chain of [normalizeAgentId] and [normalizeAccountId]:
    lower-case, collapse, strip leading and trailing dashes, cut at 64. *)
Definition slugChars (l : list ascii) : list ascii :=
  take 64 (dropWhileEnd isDash (dropWhile isDash
            (collapseInvalid false (map lowerChar l)))).

Definition slug (trimmed : string) : string := str (slugChars (chars trimmed)).

Definition normalizeAgentId (value : option string) : string :=
  let trimmed := trim (orEmpty value) in
  if negb (truthy trimmed) then DEFAULT_AGENT_ID
  else if isValidId trimmed then trimmed
  else orElse (slug trimmed) DEFAULT_AGENT_ID.

Definition normalizeAccountId (value : option string) : string :=
  let trimmed := trim (orEmpty value) in
  if negb (truthy trimmed) then DEFAULT_ACCOUNT_ID
  else if isValidId trimmed then trimmed
  else orElse (slug trimmed) DEFAULT_ACCOUNT_ID.

Record ParsedAgentSessionKey := {
  parsedAgentId : string;
  parsedRest : string;
}.

Definition parseAgentSessionKey (sessionKey : option string)
  : option ParsedAgentSessionKey :=
  let raw := trim (orEmpty sessionKey) in
  if negb (truthy raw) then None
  else
    let parts := filter (fun p => truthy p = true) (split ":" raw) in
    match parts with
    | p0 :: p1 :: p2 :: more =>
        if negb (String.eqb p0 "agent") then None
        else
          let agentId := trim p1 in
          let rest := join ":" (p2 :: more) in
          if negb (truthy agentId) || negb (truthy rest) then None
          else Some {| parsedAgentId := agentId; parsedRest := rest |}
    | _ => None
    end.

Definition resolveAgentIdFromSessionKey (sessionKey : option string) : string :=
  normalizeAgentId
    (Some (default DEFAULT_AGENT_ID
             (parsedAgentId <$> parseAgentSessionKey sessionKey))).

Definition isSubagentSessionKey (sessionKey : option string) : bool :=
  let raw := trim (orEmpty sessionKey) in
  if negb (truthy raw) then false
  else if startsWith (toLowerCase raw) "subagent:" then true
  else
    startsWith
      (toLowerCase (default "" (parsedRest <$> parseAgentSessionKey (Some raw))))
      "subagent:".

Definition buildAgentMainSessionKey (agentId : string) (mainKey : option string)
  : string :=
  let agentId := normalizeAgentId (Some agentId) in
  let mainKey := normalizeMainKey mainKey in
  "agent:" ++ agentId ++ ":" ++ mainKey.

Inductive PeerKind := Dm | Group | Channel.
Inductive DmScope := ScopeMain | ScopePerPeer | ScopePerChannelPeer.

Definition peerKindName (k : PeerKind) : string :=
  match k with Dm => "dm" | Group => "group" | Channel => "channel" end.

Record PeerKeyParams := {
  agentId : string;
  mainKey : option string;
  channel : string;
  peerKind : option PeerKind;
  peerId : option string;
  dmScope : option DmScope;
}.

Definition buildAgentPeerSessionKey (params : PeerKeyParams) : string :=
  let kind := default Dm (peerKind params) in
  match kind with
  | Dm =>
      let scope := default ScopeMain (dmScope params) in
      let peer := trim (orEmpty (peerId params)) in
      match scope with
      | ScopePerChannelPeer =>
          if truthy peer then
            let chan := orElse (toLowerCase (trim (channel params))) "unknown" in
            "agent:" ++ normalizeAgentId (Some (agentId params)) ++ ":" ++ chan
              ++ ":dm:" ++ peer
          else buildAgentMainSessionKey (agentId params) (mainKey params)
      | ScopePerPeer =>
          if truthy peer then
            "agent:" ++ normalizeAgentId (Some (agentId params)) ++ ":dm:" ++ peer
          else buildAgentMainSessionKey (agentId params) (mainKey params)
      | ScopeMain => buildAgentMainSessionKey (agentId params) (mainKey params)
      end
  | _ =>
      let chan := orElse (toLowerCase (trim (channel params))) "unknown" in
      let peer := orElse (trim (orEmpty (peerId params))) "unknown" in
      "agent:" ++ normalizeAgentId (Some (agentId params)) ++ ":" ++ chan ++ ":"
        ++ peerKindName kind ++ ":" ++ peer
  end.

(** [peerKind] of [buildGroupHistoryKey] is ["group"] or ["channel"];
    [Dm] is outside its type. *)
Definition buildGroupHistoryKey (channel : string) (accountId : option string)
    (peerKind : PeerKind) (peerId : string) : string :=
  let chan := orElse (normalizeToken (Some channel)) "unknown" in
  let account := normalizeAccountId accountId in
  let peer := orElse (trim peerId) "unknown" in
  chan ++ ":" ++ account ++ ":" ++ peerKindName peerKind ++ ":" ++ peer.

Record ThreadSessionKeys := {
  threadSessionKey : string;
  threadParentSessionKey : option string;
}.

Definition resolveThreadSessionKeys (baseSessionKey : string)
    (threadId : option string) (parentSessionKey : option string)
    (useSuffix : option bool) : ThreadSessionKeys :=
  let thread := trim (orEmpty threadId) in
  if negb (truthy thread) then
    {| threadSessionKey := baseSessionKey; threadParentSessionKey := None |}
  else
    let suffix := default true useSuffix in
    {| threadSessionKey :=
         if suffix then baseSessionKey ++ ":thread:" ++ thread
         else baseSessionKey;
       threadParentSessionKey := parentSessionKey |}.

End SessionKey.

(** ** Model selection ([src/agents/model-selection.ts]) *)

Module ModelSelection.
Import JsString.

Record ModelRef := { provider : string; model : string }.

Inductive ThinkLevel := ThinkOff | ThinkMinimal | ThinkLow | ThinkMedium | ThinkHigh.

(** [cfg.agent.model]: a string, or an object with an optional [primary]. *)
Inductive AgentModel :=
| ModelString (raw : string)
| ModelObject (primary : option string).

(** Modelled from the spec: [ClawdbotConfig] (declared in
    [config/config.js], which is not among the sources), the part that
    model selection reads. [agentModels] is
    [Object.entries(cfg.agent.models ?? {})], each entry with its optional
    [alias]. *)
Record ClawdbotConfig := {
  agentModels : list (string * option string);
  agentModel : option AgentModel;
  agentThinkingDefault : option ThinkLevel;
}.

(** Modelled from the spec: [ModelCatalogEntry] (declared in
    [agents/model-catalog.js], which is not among the sources), an entry
    [{provider, id, reasoning, ...}] of the model catalog. *)
Record ModelCatalogEntry := {
  entryProvider : string;
  entryId : string;
  entryName : string;
  entryReasoning : option bool;
}.

Record ModelAliasIndex := {
  byAlias : gmap string (string * ModelRef);
  byKey : gmap string (list string);
}.

Definition normalizeAliasKey (value : string) : string :=
  toLowerCase (trim value).

Definition modelKey (provider model : string) : string :=
  provider ++ "/" ++ model.

Definition normalizeProviderId (provider : string) : string :=
  let normalized := toLowerCase (trim provider) in
  if String.eqb normalized "z.ai" || String.eqb normalized "z-ai" then "zai"
  else normalized.

Definition parseModelRef (raw defaultProvider : string) : option ModelRef :=
  let trimmed := trim raw in
  if negb (truthy trimmed) then None
  else
    match indexOf "/" trimmed with
    | None =>
        Some {| provider := normalizeProviderId defaultProvider;
                model := trimmed |}
    | Some slash =>
        let providerRaw := trim (str (take slash (chars trimmed))) in
        let provider := normalizeProviderId providerRaw in
        let model := trim (str (drop (S slash) (chars trimmed))) in
        if negb (truthy provider) || negb (truthy model) then None
        else Some {| provider := provider; model := model |}
    end.

Definition aliasIndexStep (defaultProvider : string) (idx : ModelAliasIndex)
    (entry : string * option string) : ModelAliasIndex :=
  match parseModelRef (fst entry) defaultProvider with
  | None => idx
  | Some parsed =>
      let alias := trim (default "" (snd entry)) in
      if negb (truthy alias) then idx
      else
        let aliasKey := normalizeAliasKey alias in
        let key := modelKey (provider parsed) (model parsed) in
        let existing := default [] (byKey idx !! key) in
        {| byAlias := <[aliasKey := (alias, parsed)]> (byAlias idx);
           byKey := <[key := (existing ++ [alias])%list]> (byKey idx) |}
  end.

Definition buildModelAliasIndex (cfg : ClawdbotConfig) (defaultProvider : string)
  : ModelAliasIndex :=
  fold_left (aliasIndexStep defaultProvider) (agentModels cfg)
    {| byAlias := ∅; byKey := ∅ |}.

(** The result [{ ref, alias? }]. *)
Definition resolveModelRefFromString (raw defaultProvider : string)
    (aliasIndex : option ModelAliasIndex) : option (ModelRef * option string) :=
  let trimmed := trim raw in
  if negb (truthy trimmed) then None
  else
    let aliasMatch :=
      match indexOf "/" trimmed with
      | Some _ => None
      | None => aliasIndex ≫= fun idx => byAlias idx !! normalizeAliasKey trimmed
      end in
    match aliasMatch with
    | Some (alias, ref) => Some (ref, Some alias)
    | None =>
        match parseModelRef trimmed defaultProvider with
        | None => None
        | Some parsed => Some (parsed, None)
        end
    end.

Definition resolveConfiguredModelRef (cfg : ClawdbotConfig)
    (defaultProvider defaultModel : string) : ModelRef :=
  let rawModel :=
    match agentModel cfg with
    | Some (ModelString raw) => trim raw
    | Some (ModelObject (Some primary)) => trim primary
    | _ => ""
    end in
  if truthy rawModel then
    let trimmed := trim rawModel in
    let aliasIndex := buildModelAliasIndex cfg defaultProvider in
    match resolveModelRefFromString trimmed defaultProvider (Some aliasIndex) with
    | Some resolved => fst resolved
    | None => {| provider := "anthropic"; model := trimmed |}
    end
  else {| provider := defaultProvider; model := defaultModel |}.

Record AllowedModelSet := {
  allowAny : bool;
  allowedCatalog : list ModelCatalogEntry;
  allowedKeys : gset string;
}.

Definition entryKey (entry : ModelCatalogEntry) : string :=
  modelKey (entryProvider entry) (entryId entry).

Definition rawAllowlist (cfg : ClawdbotConfig) : list string :=
  map fst (agentModels cfg).

(** [defaultModel && params.defaultProvider ? modelKey(..) : undefined] *)
Definition defaultKeyOf (defaultProvider : string) (defaultModel : option string)
  : option string :=
  match trim <$> defaultModel with
  | Some dm =>
      if truthy dm && truthy defaultProvider
      then Some (modelKey defaultProvider dm) else None
  | None => None
  end.

Definition catalogKeysOf (catalog : list ModelCatalogEntry) : gset string :=
  list_to_set (map entryKey catalog).

Definition addOpt (o : option string) (s : gset string) : gset string :=
  match o with Some k => {[ k ]} ∪ s | None => s end.

(** The loop over the allow-list: an entry is kept when it parses and its
    key is in the catalog. *)
Definition allowStep (defaultProvider : string) (catalogKeys : gset string)
    (acc : gset string) (raw : string) : gset string :=
  match parseModelRef raw defaultProvider with
  | None => acc
  | Some parsed =>
      let key := modelKey (provider parsed) (model parsed) in
      if decide (key ∈ catalogKeys) then {[ key ]} ∪ acc else acc
  end.

Definition validatedAllowlist (cfg : ClawdbotConfig)
    (catalog : list ModelCatalogEntry) (defaultProvider : string) : gset string :=
  fold_left (allowStep defaultProvider (catalogKeysOf catalog))
    (rawAllowlist cfg) ∅.

Definition inSet (s : gset string) (entry : ModelCatalogEntry) : bool :=
  bool_decide (entryKey entry ∈ s).

Definition buildAllowedModelSet (cfg : ClawdbotConfig)
    (catalog : list ModelCatalogEntry) (defaultProvider : string)
    (defaultModel : option string) : AllowedModelSet :=
  let allowlist := rawAllowlist cfg in
  let allowAny := (length allowlist =? 0)%nat in
  let defaultKey := defaultKeyOf defaultProvider defaultModel in
  let catalogKeys := catalogKeysOf catalog in
  if allowAny then
    {| allowAny := true; allowedCatalog := catalog;
       allowedKeys := addOpt defaultKey catalogKeys |}
  else
    let allowedKeys :=
      addOpt defaultKey (validatedAllowlist cfg catalog defaultProvider) in
    let allowedCatalog := List.filter (inSet allowedKeys) catalog in
    if (length allowedCatalog =? 0)%nat then
      {| allowAny := true; allowedCatalog := catalog;
         allowedKeys := addOpt defaultKey catalogKeys |}
    else
      {| allowAny := false; allowedCatalog := allowedCatalog;
         allowedKeys := allowedKeys |}.

Definition resolveThinkingDefault (cfg : ClawdbotConfig) (provider model : string)
    (catalog : option (list ModelCatalogEntry)) : ThinkLevel :=
  match agentThinkingDefault cfg with
  | Some configured => configured
  | None =>
      let candidate :=
        catalog ≫= List.find (fun entry =>
          String.eqb (entryProvider entry) provider
          && String.eqb (entryId entry) model) in
      match candidate ≫= entryReasoning with
      | Some true => ThinkLow
      | _ => ThinkOff
      end
  end.

End ModelSelection.

(** ** Cron schedules ([computeNextRunAtMs]) *)

Module CronSchedule.
Import JsString.
Open Scope Z_scope.

(** The legacy [atMs] field holds a number or a string. *)
Inductive AtMs := AtNumber (n : Z) | AtString (s : string).

Inductive CronSchedule :=
| SchedAt (at_ : option string) (atMs : option AtMs)
| SchedEvery (everyMs : Z) (anchorMs : option Z)
| SchedCron (expr : string) (tz : option string).

Section WithCollaborators.
(** [parseAbsoluteTimeMs] of [./parse.js]: [None] stands for [null]. *)
Variable parseAbsoluteTimeMs : string -> option Z.
(** [new Cron(expr, { timezone }).nextRun(new Date(cursor)).getTime()]
    of the croner package: [None] when there is no next run. *)
Variable cronNextRun : string -> string -> Z -> option Z.
(** [Intl.DateTimeFormat().resolvedOptions().timeZone] *)
Variable hostTimeZone : string.

Definition resolveCronTimezone (tz : option string) : string :=
  let trimmed := trim (default "" tz) in
  if truthy trimmed then trimmed else hostTimeZone.

(** The three attempts of the cron branch, the cursor moving on by one
    second after a result that is not in the future. *)
Fixpoint cronAttempts (attempts : nat) (expr tz : string) (cursor nowMs : Z)
  : option Z :=
  match attempts with
  | O => None
  | S n =>
      match cronNextRun expr tz cursor with
      | None => None
      | Some nextMs =>
          if nowMs <? nextMs then Some nextMs
          else cronAttempts n expr tz (cursor + 1000) nowMs
      end
  end.

Definition computeNextRunAtMs (schedule : CronSchedule) (nowMs : Z)
  : option Z :=
  match schedule with
  | SchedAt at_ atMs =>
      let resolved :=
        match atMs with
        | Some (AtNumber n) =>
            if 0 <? n then Some n else at_ ≫= parseAbsoluteTimeMs
        | Some (AtString s) => parseAbsoluteTimeMs s
        | None => at_ ≫= parseAbsoluteTimeMs
        end in
      match resolved with
      | None => None
      | Some t => if nowMs <? t then Some t else None
      end
  | SchedEvery everyMs0 anchorMs =>
      (* [Math.floor] is the identity on the integers of the embedding *)
      let everyMs := Z.max 1 everyMs0 in
      let anchor := Z.max 0 (default nowMs anchorMs) in
      if nowMs <? anchor then Some anchor
      else
        let elapsed := nowMs - anchor in
        let steps := Z.max 1 ((elapsed + everyMs - 1) / everyMs) in
        Some (anchor + steps * everyMs)
  | SchedCron expr0 tz =>
      let expr := trim expr0 in
      if negb (truthy expr) then None
      else cronAttempts 3 expr (resolveCronTimezone tz) nowMs nowMs
  end.
End WithCollaborators.

(** The least integer that is not below [a / b], for [0 < b]. *)
Definition ceilDiv (a b : Z) : Z := - ((- a) / b).

(** The formula of the specification for an [every] schedule:
    [anchor + ceil((now - anchor) / interval) * interval]. *)
Definition everyFormula (anchor interval now : Z) : Z :=
  anchor + ceilDiv (now - anchor) interval * interval.

End CronSchedule.

(** ** The cron timer ([onTimer], [findDueJobs]) *)

Module CronTimer.
Import CronSchedule.
Open Scope Z_scope.

Inductive RunStatus := StatusOk | StatusError | StatusSkipped.

(** Modelled from the spec: the [state] of a [CronJob] (declared in
    [../types.js], which is not among the sources). *)
Record CronJobState := {
  runningAtMs : option Z;
  lastRunAtMs : option Z;
  lastStatus : option RunStatus;
  lastDurationMs : option Z;
  lastError : option string;
  nextRunAtMs : option Z;
}.

(** Modelled from the spec: [CronJob] (declared in [../types.js], which is
    not among the sources), the properties the timer reads or writes. *)
Record CronJob := {
  id : string;
  enabled : bool;
  schedule : CronSchedule;
  deleteAfterRun : option bool;
  updatedAtMs : Z;
  state : CronJobState;
}.

(** The store document [{version: 1, jobs: [...]}]. *)
Record CronStore := { jobs : list CronJob }.

(** [state.store], [state.running]; the clock [state.deps.nowMs()] is an
    argument of the functions that read it. *)
Record CronServiceState := {
  store : option CronStore;
  running : bool;
}.

(** The predicate of the filter in [findDueJobs]. *)
Definition isDue (now : Z) (j : CronJob) : bool :=
  if negb (enabled j) then false
  else if bool_decide (is_Some (runningAtMs (state j))) then false
  else
    match nextRunAtMs (state j) with
    | Some next => next <=? now
    | None => false
    end.

(** A job object of the store is referred to by its position in
    [store.jobs]: [filter] returns the very objects of the array, which
    [onTimer] then mutates. *)
Definition withRefs (js : list CronJob) : list (nat * CronJob) :=
  imap (fun i j => (i, j)) js.

Definition findDueJobs (st : CronServiceState) (now : Z)
  : list (nat * CronJob) :=
  match store st with
  | None => []
  | Some s => List.filter (fun rj => isDue now (snd rj)) (withRefs (jobs s))
  end.

(** [job.state.runningAtMs = now; job.state.lastError = undefined] *)
Definition markRunning (now : Z) (j : CronJob) : CronJob :=
  {| id := id j; enabled := enabled j; schedule := schedule j;
     deleteAfterRun := deleteAfterRun j; updatedAtMs := updatedAtMs j;
     state :=
       {| runningAtMs := Some now;
          lastRunAtMs := lastRunAtMs (state j);
          lastStatus := lastStatus (state j);
          lastDurationMs := lastDurationMs (state j);
          lastError := None;
          nextRunAtMs := nextRunAtMs (state j) |} |}.

(** The loop [for (const job of due) { ... }]: every reference of [due]
    is written through to the store. *)
Definition markAll (now : Z) (due : list (nat * CronJob)) (js : list CronJob)
  : list CronJob :=
  fold_left (fun acc rj => alter (markRunning now) (fst rj) acc) due js.

Section WithCollaborators.
(** [recomputeNextRuns] of [./jobs.js], on the jobs of the store. *)
Variable recomputeNextRuns : list CronJob -> list CronJob.

(** The first critical section of [onTimer], after the store was
    reloaded: [nowDue] is the clock read by [findDueJobs], [nowMark] the
    one read before the jobs are marked. The result is the store as it
    is persisted and the jobs handed to the execution loop. *)
Definition onTimerClaim (st : CronServiceState) (nowDue nowMark : Z)
  : CronServiceState * list (nat * CronJob) :=
  if running st then (st, [])
  else
    let due := findDueJobs st nowDue in
    match store st with
    | None => ({| store := None; running := true |}, [])
    | Some s =>
        if (length due =? 0)%nat then
          ({| store := Some {| jobs := recomputeNextRuns (jobs s) |};
              running := true |}, [])
        else
          let js := markAll nowMark due (jobs s) in
          ({| store := Some {| jobs := js |}; running := true |},
           omap (fun rj => (fun j => (fst rj, j)) <$> js !! fst rj) due)
    end.
End WithCollaborators.

(** *** Arming the timer, recording a run ([armTimer], [onTimer],
    [executeJob], [runMissedJobs], [wake]) *)

Definition MAX_TIMER_DELAY_MS : Z := 60000.

(** [armTimer]: the pending timer is cleared, and the result is the delay
    of the timer that is set, [None] when none is. [nextAt] is the result
    of [nextWakeAtMs(state)] of [./jobs.js], [now] the clock. *)
Definition armTimer (cronEnabled : bool) (nextAt : option Z) (now : Z)
  : option Z :=
  if negb cronEnabled then None
  else
    match nextAt with
    | None => None
    | Some nextAt =>
        if nextAt =? 0 then None
        else
          let delay := Z.max (nextAt - now) 0 in
          Some (Z.min delay MAX_TIMER_DELAY_MS)
    end.

(** One entry of the [results] array of [onTimer]. *)
Record RunResult := {
  jobId : string;
  status : RunStatus;
  error : option string;
  summary : option string;
  sessionId : option string;
  sessionKey : option string;
  startedAt : Z;
  endedAt : Z;
}.

(** The events handed to [emit]. *)
Inductive CronEvent :=
| Started (job : string) (runAtMs : Z)
| Finished (job : string) (st : RunStatus)
    (err sum session key : option string)
    (runAtMs : Z) (durationMs next : option Z)
| Removed (job : string).

Definition isAt (s : CronSchedule) : bool :=
  match s with SchedAt _ _ => true | _ => false end.

Definition isOk (s : RunStatus) : bool :=
  match s with StatusOk => true | _ => false end.

Definition withState (j : CronJob) (s : CronJobState) : CronJob :=
  {| id := id j; enabled := enabled j; schedule := schedule j;
     deleteAfterRun := deleteAfterRun j; updatedAtMs := updatedAtMs j;
     state := s |}.

Definition withEnabled (j : CronJob) (b : bool) : CronJob :=
  {| id := id j; enabled := b; schedule := schedule j;
     deleteAfterRun := deleteAfterRun j; updatedAtMs := updatedAtMs j;
     state := state j |}.

Definition withUpdatedAt (j : CronJob) (t : Z) : CronJob :=
  {| id := id j; enabled := enabled j; schedule := schedule j;
     deleteAfterRun := deleteAfterRun j; updatedAtMs := t;
     state := state j |}.

Definition withNextRun (j : CronJob) (next : option Z) : CronJob :=
  withState j
    {| runningAtMs := runningAtMs (state j);
       lastRunAtMs := lastRunAtMs (state j);
       lastStatus := lastStatus (state j);
       lastDurationMs := lastDurationMs (state j);
       lastError := lastError (state j);
       nextRunAtMs := next |}.

(** [job.schedule.kind === "at" && status === "ok" &&
    job.deleteAfterRun === true] *)
Definition shouldDelete (j : CronJob) (st : RunStatus) : bool :=
  isAt (schedule j) && isOk st && bool_decide (deleteAfterRun j = Some true).

(** [j.state.lastStatus === "ok"] *)
Definition lastRunOk (j : CronJob) : bool :=
  match lastStatus (state j) with Some StatusOk => true | _ => false end.

(** The filter of [runMissedJobs]: a due job, a one-shot job that already
    ran with success apart. *)
Definition isMissed (now : Z) (j : CronJob) : bool :=
  if negb (enabled j) then false
  else if bool_decide (is_Some (runningAtMs (state j))) then false
  else if isAt (schedule j) && lastRunOk j then false
  else
    match nextRunAtMs (state j) with
    | Some next => next <=? now
    | None => false
    end.

Definition findMissedJobs (st : CronServiceState) (now : Z)
  : list (nat * CronJob) :=
  match store st with
  | None => []
  | Some s => List.filter (fun rj => isMissed now (snd rj)) (withRefs (jobs s))
  end.

(** What [wake] hands to the host. *)
Inductive WakeEffect :=
| EnqueueSystemEvent (text : string)
| RequestHeartbeatNow (reason : string).

Inductive WakeMode := WakeNow | WakeNextHeartbeat.

(** [wake]: the [ok] flag of the result and the calls made. *)
Definition wake (mode : WakeMode) (text0 : string) : bool * list WakeEffect :=
  let text := JsString.trim text0 in
  if negb (JsString.truthy text) then (false, [])
  else
    (true,
     EnqueueSystemEvent text ::
     match mode with
     | WakeNow => [RequestHeartbeatNow "wake"]
     | WakeNextHeartbeat => []
     end).

Section WithJobs.
(** [computeJobNextRunAtMs] of [./jobs.js]. *)
Variable computeJobNextRunAtMs : CronJob -> Z -> option Z.
(** [recomputeNextRuns] of [./jobs.js], on the jobs of the store. *)
Variable recomputeNextRuns : list CronJob -> list CronJob.

(** The record of a finished run, which [onTimer] and the [finish] of
    [executeJob] write in the same words: the run state, then the next
    run unless the job is to be deleted. *)
Definition settle (j : CronJob) (st : RunStatus) (err : option string)
  (started ended : Z) : CronJob :=
  let j1 :=
    withState j
      {| runningAtMs := None;
         lastRunAtMs := Some started;
         lastStatus := Some st;
         lastDurationMs := Some (Z.max 0 (ended - started));
         lastError := err;
         nextRunAtMs := nextRunAtMs (state j) |} in
  if shouldDelete j1 st then j1
  else if isAt (schedule j1) && isOk st then
    withNextRun (withEnabled j1 false) None
  else if enabled j1 then
    withNextRun j1 (computeJobNextRunAtMs j1 ended)
  else withNextRun j1 None.

Definition finishedEvent (j : CronJob) (st : RunStatus)
  (err sum session key : option string) (started : Z) : CronEvent :=
  Finished (id j) st err sum session key started
    (lastDurationMs (state j)) (nextRunAtMs (state j)).

(** One turn of the loop [for (const result of results)] of [onTimer]:
    the job is the first of the store with the id of the result. *)
Definition applyResult (acc : list CronJob * list CronEvent) (r : RunResult)
  : list CronJob * list CronEvent :=
  let '(js, events) := acc in
  match list_find (fun j => id j = jobId r) js with
  | None => (js, events)
  | Some (i, job) =>
      let job1 := settle job (status r) (error r) (startedAt r) (endedAt r) in
      let finished :=
        finishedEvent job1 (status r) (error r) (summary r) (sessionId r)
          (sessionKey r) (startedAt r) in
      if shouldDelete job (status r) then
        (filter (fun j => id j <> id job) js,
         (events ++ [finished; Removed (id job)])%list)
      else
        (<[i := withUpdatedAt job1 (endedAt r)]> js,
         (events ++ [finished])%list)
  end.

(** The second critical section of [onTimer], on the store as reloaded. *)
Definition onTimerSettle (js : list CronJob) (results : list RunResult)
  : list CronJob * list CronEvent :=
  let '(js', events) := fold_left applyResult results (js, []) in
  (recomputeNextRuns js', events).

(** What [executeJobCore] comes to: a result, or an exception. *)
Inductive CoreOutcome :=
| CoreReturns (st : RunStatus) (err sum session key : option string)
| CoreThrows (err : string).

(** [executeJob] on the job object at position [ref] of the store.
    [started], [ended] and [last] are the three readings of the clock,
    [nowMs] and [forced] the arguments. *)
Definition executeJob (js : list CronJob) (ref : nat) (nowMs : Z)
  (forced : bool) (started : Z) (outcome : CoreOutcome) (ended last : Z)
  : list CronJob * list CronEvent :=
  match js !! ref with
  | None => (js, [])
  | Some job =>
      let job0 := markRunning started job in
      let '(st, err, sum, session, key) :=
        match outcome with
        | CoreReturns st err sum session key => (st, err, sum, session, key)
        | CoreThrows e => (StatusError, Some e, None, None, None)
        end in
      let job1 := settle job0 st err started ended in
      let finished := finishedEvent job1 st err sum session key started in
      let deleted := shouldDelete job0 st in
      let job2 := withUpdatedAt job1 nowMs in
      let job3 :=
        if negb forced && enabled job2 && negb deleted
        then withNextRun job2 (computeJobNextRunAtMs job2 last)
        else job2 in
      if deleted then
        (filter (fun j => id j <> id job) js,
         [Started (id job) started; finished; Removed (id job)])
      else
        (<[ref := job3]> js, [Started (id job) started; finished])
  end.
End WithJobs.

End CronTimer.

(** ** Streamed block replies of the reply-turn runner ([runReplyAgent]) *)

Module ReplyAgent.
Import JsString.
Open Scope Z_scope.

Definition BLOCK_REPLY_SEND_TIMEOUT_MS : Z := 15000.

(** Modelled from the spec: [ReplyPayload] (declared in [../types.js],
    which is not among the sources), the payload
    [{text?, mediaUrl?, mediaUrls?, replyToId?}] handed to a channel. *)
Record ReplyPayload := {
  text : option string;
  mediaUrl : option string;
  mediaUrls : option (list string);
  replyToId : option string;
}.

(** [buildPayloadKey] serialises [{ text, mediaList, replyToId }] with
    [JSON.stringify]; the key is kept as the triple that is serialised. *)
Definition PayloadKey : Type := string * list string * option string.

Definition buildPayloadKey (payload : ReplyPayload) : PayloadKey :=
  let text := default "" (trim <$> text payload) in
  let mediaList :=
    match mediaUrls payload with
    | Some (u :: us) => u :: us
    | _ =>
        match mediaUrl payload with
        | Some u => if truthy u then [u] else []
        | None => []
        end
    end in
  (text, mediaList, replyToId payload).

(** How a call of [opts.onBlockReply] ends: it resolves or rejects
    [afterMs] milliseconds after the call, or never settles. *)
Inductive Delivery :=
| Resolves (afterMs : Z)
| Rejects (afterMs : Z) (err : string)
| Never.

Inductive Outcome := Sent | TimedOut | Failed (err : string) | Hung.

(** [withTimeout]: without a positive timeout the promise is returned as
    it is; otherwise it races a timer of [timeoutMs]. A delivery that takes
    exactly [timeoutMs] counts as in time. *)
Definition withTimeout (timeoutMs : Z) (d : Delivery) : Outcome :=
  if timeoutMs <=? 0 then
    match d with
    | Resolves _ => Sent
    | Rejects _ err => Failed err
    | Never => Hung
    end
  else
    match d with
    | Resolves a => if a <=? timeoutMs then Sent else TimedOut
    | Rejects a err => if a <=? timeoutMs then Failed err else TimedOut
    | Never => TimedOut
    end.


(** The closure variables of one run, the links of [blockReplyChain] that
    have not started, the link whose delivery is awaited, and the calls of
    [opts.onBlockReply] made so far (oldest first). *)
Record RunState := {
  streamedPayloadKeys : gset PayloadKey;
  pendingStreamedPayloadKeys : gset PayloadKey;
  blockReplyAborted : bool;
  didLogBlockReplyAbort : bool;
  didStreamBlockReply : bool;
  chain : list ReplyPayload;
  inFlight : option ReplyPayload;
  delivered : list ReplyPayload;
  verboseLog : list string;
}.

Definition initialRun : RunState :=
  {| streamedPayloadKeys := ∅; pendingStreamedPayloadKeys := ∅;
     blockReplyAborted := false; didLogBlockReplyAbort := false;
     didStreamBlockReply := false; chain := []; inFlight := None;
     delivered := []; verboseLog := [] |}.

(** What happens during a run, as far as block streaming goes. *)
Inductive Event :=
| BlockReply (payload : ReplyPayload)  (* the engine calls [onBlockReply] *)
| LinkStart                            (* the next link of the chain runs *)
| LinkSettle (d : Delivery).           (* the awaited delivery ends *)

Section WithRun.
Variable blockStreamingEnabled : bool.
(** Whether the caller passed [opts.onBlockReply]. *)
Variable hasOnBlockReply : bool.
(** [opts?.blockReplyTimeoutMs] *)
Variable optsBlockReplyTimeoutMs : option Z.
(** The first half of the [onBlockReply] callback (heartbeat stripping,
    reply tags, audio tags, reply-to mode), whose helpers live in other
    modules: [None] when the callback returns before it builds the key. *)
Variable prepareBlock : ReplyPayload -> option ReplyPayload.

Definition blockReplyTimeoutMs : Z :=
  default BLOCK_REPLY_SEND_TIMEOUT_MS optsBlockReplyTimeoutMs.

Definition onBlockReply (s : RunState) (payload : ReplyPayload) : RunState :=
  if negb (blockStreamingEnabled && hasOnBlockReply) then s
  else
    match prepareBlock payload with
    | None => s
    | Some blockPayload =>
        let payloadKey := buildPayloadKey blockPayload in
        if bool_decide (payloadKey ∈ streamedPayloadKeys s)
           || bool_decide (payloadKey ∈ pendingStreamedPayloadKeys s)
        then s
        else if blockReplyAborted s then s
        else
          {| streamedPayloadKeys := streamedPayloadKeys s;
             pendingStreamedPayloadKeys :=
               {[ payloadKey ]} ∪ pendingStreamedPayloadKeys s;
             blockReplyAborted := blockReplyAborted s;
             didLogBlockReplyAbort := didLogBlockReplyAbort s;
             didStreamBlockReply := didStreamBlockReply s;
             chain := (chain s ++ [blockPayload])%list;
             inFlight := inFlight s;
             delivered := delivered s;
             verboseLog := verboseLog s |}
    end.

(** The head link starts once the link before it has settled: it returns
    [false] at once when streaming was aborted, and calls
    [opts.onBlockReply] otherwise. *)
Definition linkStart (s : RunState) : RunState :=
  match inFlight s, chain s with
  | None, blockPayload :: rest =>
      if blockReplyAborted s then
        {| streamedPayloadKeys := streamedPayloadKeys s;
           pendingStreamedPayloadKeys :=
             pendingStreamedPayloadKeys s ∖ {[ buildPayloadKey blockPayload ]};
           blockReplyAborted := blockReplyAborted s;
           didLogBlockReplyAbort := didLogBlockReplyAbort s;
           didStreamBlockReply := didStreamBlockReply s;
           chain := rest; inFlight := None;
           delivered := delivered s;
           verboseLog := verboseLog s |}
      else
        {| streamedPayloadKeys := streamedPayloadKeys s;
           pendingStreamedPayloadKeys := pendingStreamedPayloadKeys s;
           blockReplyAborted := blockReplyAborted s;
           didLogBlockReplyAbort := didLogBlockReplyAbort s;
           didStreamBlockReply := didStreamBlockReply s;
           chain := rest; inFlight := Some blockPayload;
           delivered := (delivered s ++ [blockPayload])%list;
           verboseLog := verboseLog s |}
  | _, _ => s
  end.

(** The [.then] / [.catch] / [.finally] handlers of the link. *)
Definition linkSettle (s : RunState) (d : Delivery) : RunState :=
  match inFlight s with
  | None => s
  | Some blockPayload =>
      let payloadKey := buildPayloadKey blockPayload in
      match withTimeout blockReplyTimeoutMs d with
      | Hung => s
      | Sent =>
          {| streamedPayloadKeys := {[ payloadKey ]} ∪ streamedPayloadKeys s;
             pendingStreamedPayloadKeys :=
               pendingStreamedPayloadKeys s ∖ {[ payloadKey ]};
             blockReplyAborted := blockReplyAborted s;
             didLogBlockReplyAbort := didLogBlockReplyAbort s;
             didStreamBlockReply := true;
             chain := chain s; inFlight := None;
             delivered := delivered s;
             verboseLog := verboseLog s |}
      | TimedOut =>
          {| streamedPayloadKeys := streamedPayloadKeys s;
             pendingStreamedPayloadKeys :=
               pendingStreamedPayloadKeys s ∖ {[ payloadKey ]};
             blockReplyAborted := true;
             didLogBlockReplyAbort := true;
             didStreamBlockReply := didStreamBlockReply s;
             chain := chain s; inFlight := None;
             delivered := delivered s;
             verboseLog :=
               if didLogBlockReplyAbort s then verboseLog s
               else (verboseLog s ++
                 ["block reply delivery timed out; skipping remaining block replies to preserve ordering"])%list |}
      | Failed err =>
          {| streamedPayloadKeys := streamedPayloadKeys s;
             pendingStreamedPayloadKeys :=
               pendingStreamedPayloadKeys s ∖ {[ payloadKey ]};
             blockReplyAborted := blockReplyAborted s;
             didLogBlockReplyAbort := didLogBlockReplyAbort s;
             didStreamBlockReply := didStreamBlockReply s;
             chain := chain s; inFlight := None;
             delivered := delivered s;
             verboseLog :=
               (verboseLog s ++ [("block reply delivery failed: " ++ err)%string])%list |}
      end
  end.

Definition step (s : RunState) (e : Event) : RunState :=
  match e with
  | BlockReply payload => onBlockReply s payload
  | LinkStart => linkStart s
  | LinkSettle d => linkSettle s d
  end.

Definition run (events : list Event) (s : RunState) : RunState :=
  fold_left step events s.

(** The decision taken once the engine has returned and the pending
    block tasks have settled. *)
Definition shouldDropFinalPayloads (s : RunState) : bool :=
  blockStreamingEnabled && didStreamBlockReply s && negb (blockReplyAborted s).

Definition notStreamed (s : RunState) (payload : ReplyPayload) : bool :=
  negb (bool_decide (buildPayloadKey payload ∈ streamedPayloadKeys s)).

Definition filteredPayloads (s : RunState) (dedupedPayloads : list ReplyPayload)
  : list ReplyPayload :=
  if shouldDropFinalPayloads s then []
  else if blockStreamingEnabled
       then List.filter (notStreamed s) dedupedPayloads
       else dedupedPayloads.

Definition replyPayloads (suppressMessagingToolReplies : bool) (s : RunState)
    (dedupedPayloads : list ReplyPayload) : list ReplyPayload :=
  if suppressMessagingToolReplies then []
  else filteredPayloads s dedupedPayloads.
End WithRun.


(** The payloads whose delivery has not ended: the one in flight and the
    links of the chain. *)
Definition awaiting (s : RunState) : list ReplyPayload :=
  (option_list (inFlight s) ++ chain s)%list.

(** The bookkeeping of the streamed blocks is sound: the payloads that
    wait have different keys, which are pending and not streamed; the
    payload in flight was handed to the channel; a streamed key is the
    key of a payload that was handed to the channel. *)
Definition wellQueued (s : RunState) : Prop :=
  NoDup (map buildPayloadKey (awaiting s))
  /\ (forall p, p ∈ awaiting s ->
        buildPayloadKey p ∈ pendingStreamedPayloadKeys s
        /\ buildPayloadKey p ∉ streamedPayloadKeys s)
  /\ (forall p, inFlight s = Some p -> p ∈ delivered s)
  /\ (forall k, k ∈ streamedPayloadKeys s ->
        exists p, p ∈ delivered s /\ buildPayloadKey p = k).

(** *** The usage line ([appendUsageLine]) *)

(** [payloads[i]?.text] as a condition. *)
Definition hasText (p : ReplyPayload) : bool :=
  match text p with Some t => truthy t | None => false end.

(** The loop from the end of the array: the index of the last payload
    with a text, [None] for [-1]. *)
Fixpoint lastTextIndex (payloads : list ReplyPayload) : option nat :=
  match payloads with
  | [] => None
  | p :: rest =>
      match lastTextIndex rest with
      | Some i => Some (S i)
      | None => if hasText p then Some O else None
      end
  end.

(** [{...existing, text}] *)
Definition withText (p : ReplyPayload) (t : string) : ReplyPayload :=
  {| text := Some t; mediaUrl := mediaUrl p; mediaUrls := mediaUrls p;
     replyToId := replyToId p |}.

Definition appendUsageLine (payloads : list ReplyPayload) (line : string)
  : list ReplyPayload :=
  match lastTextIndex payloads with
  | None =>
      (payloads ++
       [{| text := Some line; mediaUrl := None; mediaUrls := None;
           replyToId := None |}])%list
  | Some index =>
      match payloads !! index with
      | None => payloads
      | Some existing =>
          let existingText := default "" (text existing) in
          let separator :=
            if endsWithChar "010" existingText then "" else newline in
          <[index := withText existing (existingText ++ separator ++ line)]>
            payloads
      end
  end.

End ReplyAgent.

(** ** Sanitising the environment of host commands ([sanitizeHostExecEnv]) *)

Module HostEnv.
Import JsString.

Section WithPolicy.
(** [host-env-security-policy.json] *)
Variable blockedKeys : list string.
Variable blockedPrefixes : list string.
(** [process.env] *)
Variable processEnv : list (string * option string).

Definition HOST_DANGEROUS_ENV_KEY_VALUES : list string :=
  map toUpperCase blockedKeys.
Definition HOST_DANGEROUS_ENV_PREFIXES : list string :=
  map toUpperCase blockedPrefixes.
Definition HOST_DANGEROUS_ENV_KEYS : gset string :=
  list_to_set HOST_DANGEROUS_ENV_KEY_VALUES.

Definition isKeyStart (c : ascii) : bool :=
  isUpper c || isLower c || Ascii.eqb c "_".
Definition isKeyChar (c : ascii) : bool := isKeyStart c || isDigit c.

(** [/^[A-Za-z_][A-Za-z0-9_]*$/.test(key)] *)
Definition PORTABLE_ENV_VAR_KEY (key : string) : bool :=
  match chars key with
  | [] => false
  | c :: r => isKeyStart c && forallb isKeyChar r
  end.

Definition normalizeEnvVarKey (rawKey : string) (portable : bool)
  : option string :=
  let key := trim rawKey in
  if negb (truthy key) then None
  else if portable && negb (PORTABLE_ENV_VAR_KEY key) then None
  else Some key.

Definition isDangerousHostEnvVarName (rawKey : string) : bool :=
  match normalizeEnvVarKey rawKey false with
  | None => false
  | Some key =>
      let upper := toUpperCase key in
      if bool_decide (upper ∈ HOST_DANGEROUS_ENV_KEYS) then true
      else existsb (fun prefix => startsWith upper prefix)
             HOST_DANGEROUS_ENV_PREFIXES
  end.

(** [merged[key] = value] on an object literal: a string assigned to
    [__proto__] goes to the setter of [Object.prototype], which ignores
    it, so no property appears. *)
Definition assign (key value : string) (merged : gmap string string)
  : gmap string string :=
  if String.eqb key "__proto__" then merged else <[key := value]> merged.

Definition baseStep (merged : gmap string string)
    (entry : string * option string) : gmap string string :=
  match snd entry with
  | None => merged
  | Some value =>
      match normalizeEnvVarKey (fst entry) true with
      | None => merged
      | Some key =>
          if isDangerousHostEnvVarName key then merged
          else assign key value merged
      end
  end.

Definition overrideStep (blockPathOverrides : bool)
    (merged : gmap string string) (entry : string * string)
  : gmap string string :=
  match normalizeEnvVarKey (fst entry) true with
  | None => merged
  | Some key =>
      let upper := toUpperCase key in
      if blockPathOverrides && String.eqb upper "PATH" then merged
      else if isDangerousHostEnvVarName upper then merged
      else assign key (snd entry) merged
  end.

Definition sanitizeHostExecEnv
    (baseEnv : option (list (string * option string)))
    (overrides : option (list (string * string)))
    (blockPathOverrides : option bool) : gmap string string :=
  let baseEnv := default processEnv baseEnv in
  let blockPathOverrides := default true blockPathOverrides in
  let merged := fold_left baseStep baseEnv ∅ in
  match overrides with
  | None => merged
  | Some overrides =>
      fold_left (overrideStep blockPathOverrides) overrides merged
  end.
(** No key of [merged] is dangerous. *)
Definition allSafe (merged : gmap string string) : Prop :=
  forall key value,
    merged !! key = Some value -> isDangerousHostEnvVarName key = false.

End WithPolicy.

End HostEnv.

(** ** The gateway handlers [sessions.patch] and [sessions.reset] *)

Module Sessions.
Import JsString.
Open Scope Z_scope.

(** A value the handlers copy without looking inside, as its JSON text. *)
Definition Json : Type := string.

(** Modelled from the spec: [SessionEntry] (declared in
    [config/sessions.js], which is not among the sources): the properties
    the handlers name, and every other property of the stored object in
    [otherFields]. *)
Record SessionEntry := {
  sessionId : string;
  updatedAt : option Z;
  systemSent : option bool;
  abortedLastRun : option bool;
  thinkingLevel : option string;
  verboseLevel : option string;
  reasoningLevel : option string;
  responseUsage : option string;
  model : option string;
  contextTokens : option Z;
  sendPolicy : option string;
  lastProvider : option string;
  lastTo : option string;
  skillsSnapshot : option Json;
  spawnedBy : option string;
  providerOverride : option string;
  modelOverride : option string;
  groupActivation : option string;
  otherFields : gmap string Json;
}.

(** [next.field = v] and [delete next.field] (with [None]). *)
Definition set_updatedAt (v : option Z) (e : SessionEntry) : SessionEntry :=
  {| sessionId := sessionId e; updatedAt := v; systemSent := systemSent e;
     abortedLastRun := abortedLastRun e; thinkingLevel := thinkingLevel e;
     verboseLevel := verboseLevel e; reasoningLevel := reasoningLevel e;
     responseUsage := responseUsage e; model := model e;
     contextTokens := contextTokens e; sendPolicy := sendPolicy e;
     lastProvider := lastProvider e; lastTo := lastTo e;
     skillsSnapshot := skillsSnapshot e; spawnedBy := spawnedBy e;
     providerOverride := providerOverride e;
     modelOverride := modelOverride e; groupActivation := groupActivation e;
     otherFields := otherFields e |}.

Definition set_spawnedBy (v : option string) (e : SessionEntry) : SessionEntry :=
  {| sessionId := sessionId e; updatedAt := updatedAt e;
     systemSent := systemSent e; abortedLastRun := abortedLastRun e;
     thinkingLevel := thinkingLevel e; verboseLevel := verboseLevel e;
     reasoningLevel := reasoningLevel e; responseUsage := responseUsage e;
     model := model e; contextTokens := contextTokens e;
     sendPolicy := sendPolicy e; lastProvider := lastProvider e;
     lastTo := lastTo e; skillsSnapshot := skillsSnapshot e; spawnedBy := v;
     providerOverride := providerOverride e;
     modelOverride := modelOverride e; groupActivation := groupActivation e;
     otherFields := otherFields e |}.

Definition set_thinkingLevel (v : option string) (e : SessionEntry) : SessionEntry :=
  {| sessionId := sessionId e; updatedAt := updatedAt e;
     systemSent := systemSent e; abortedLastRun := abortedLastRun e;
     thinkingLevel := v; verboseLevel := verboseLevel e;
     reasoningLevel := reasoningLevel e; responseUsage := responseUsage e;
     model := model e; contextTokens := contextTokens e;
     sendPolicy := sendPolicy e; lastProvider := lastProvider e;
     lastTo := lastTo e; skillsSnapshot := skillsSnapshot e;
     spawnedBy := spawnedBy e; providerOverride := providerOverride e;
     modelOverride := modelOverride e; groupActivation := groupActivation e;
     otherFields := otherFields e |}.

Definition set_verboseLevel (v : option string) (e : SessionEntry) : SessionEntry :=
  {| sessionId := sessionId e; updatedAt := updatedAt e;
     systemSent := systemSent e; abortedLastRun := abortedLastRun e;
     thinkingLevel := thinkingLevel e; verboseLevel := v;
     reasoningLevel := reasoningLevel e; responseUsage := responseUsage e;
     model := model e; contextTokens := contextTokens e;
     sendPolicy := sendPolicy e; lastProvider := lastProvider e;
     lastTo := lastTo e; skillsSnapshot := skillsSnapshot e;
     spawnedBy := spawnedBy e; providerOverride := providerOverride e;
     modelOverride := modelOverride e; groupActivation := groupActivation e;
     otherFields := otherFields e |}.

Definition set_reasoningLevel (v : option string) (e : SessionEntry) : SessionEntry :=
  {| sessionId := sessionId e; updatedAt := updatedAt e;
     systemSent := systemSent e; abortedLastRun := abortedLastRun e;
     thinkingLevel := thinkingLevel e; verboseLevel := verboseLevel e;
     reasoningLevel := v; responseUsage := responseUsage e;
     model := model e; contextTokens := contextTokens e;
     sendPolicy := sendPolicy e; lastProvider := lastProvider e;
     lastTo := lastTo e; skillsSnapshot := skillsSnapshot e;
     spawnedBy := spawnedBy e; providerOverride := providerOverride e;
     modelOverride := modelOverride e; groupActivation := groupActivation e;
     otherFields := otherFields e |}.

Definition set_responseUsage (v : option string) (e : SessionEntry) : SessionEntry :=
  {| sessionId := sessionId e; updatedAt := updatedAt e;
     systemSent := systemSent e; abortedLastRun := abortedLastRun e;
     thinkingLevel := thinkingLevel e; verboseLevel := verboseLevel e;
     reasoningLevel := reasoningLevel e; responseUsage := v;
     model := model e; contextTokens := contextTokens e;
     sendPolicy := sendPolicy e; lastProvider := lastProvider e;
     lastTo := lastTo e; skillsSnapshot := skillsSnapshot e;
     spawnedBy := spawnedBy e; providerOverride := providerOverride e;
     modelOverride := modelOverride e; groupActivation := groupActivation e;
     otherFields := otherFields e |}.

Definition set_sendPolicy (v : option string) (e : SessionEntry) : SessionEntry :=
  {| sessionId := sessionId e; updatedAt := updatedAt e;
     systemSent := systemSent e; abortedLastRun := abortedLastRun e;
     thinkingLevel := thinkingLevel e; verboseLevel := verboseLevel e;
     reasoningLevel := reasoningLevel e; responseUsage := responseUsage e;
     model := model e; contextTokens := contextTokens e; sendPolicy := v;
     lastProvider := lastProvider e; lastTo := lastTo e;
     skillsSnapshot := skillsSnapshot e; spawnedBy := spawnedBy e;
     providerOverride := providerOverride e;
     modelOverride := modelOverride e; groupActivation := groupActivation e;
     otherFields := otherFields e |}.

Definition set_groupActivation (v : option string) (e : SessionEntry) : SessionEntry :=
  {| sessionId := sessionId e; updatedAt := updatedAt e;
     systemSent := systemSent e; abortedLastRun := abortedLastRun e;
     thinkingLevel := thinkingLevel e; verboseLevel := verboseLevel e;
     reasoningLevel := reasoningLevel e; responseUsage := responseUsage e;
     model := model e; contextTokens := contextTokens e;
     sendPolicy := sendPolicy e; lastProvider := lastProvider e;
     lastTo := lastTo e; skillsSnapshot := skillsSnapshot e;
     spawnedBy := spawnedBy e; providerOverride := providerOverride e;
     modelOverride := modelOverride e; groupActivation := v;
     otherFields := otherFields e |}.

Definition set_providerOverride (v : option string) (e : SessionEntry) : SessionEntry :=
  {| sessionId := sessionId e; updatedAt := updatedAt e;
     systemSent := systemSent e; abortedLastRun := abortedLastRun e;
     thinkingLevel := thinkingLevel e; verboseLevel := verboseLevel e;
     reasoningLevel := reasoningLevel e; responseUsage := responseUsage e;
     model := model e; contextTokens := contextTokens e;
     sendPolicy := sendPolicy e; lastProvider := lastProvider e;
     lastTo := lastTo e; skillsSnapshot := skillsSnapshot e;
     spawnedBy := spawnedBy e; providerOverride := v;
     modelOverride := modelOverride e; groupActivation := groupActivation e;
     otherFields := otherFields e |}.

Definition set_modelOverride (v : option string) (e : SessionEntry) : SessionEntry :=
  {| sessionId := sessionId e; updatedAt := updatedAt e;
     systemSent := systemSent e; abortedLastRun := abortedLastRun e;
     thinkingLevel := thinkingLevel e; verboseLevel := verboseLevel e;
     reasoningLevel := reasoningLevel e; responseUsage := responseUsage e;
     model := model e; contextTokens := contextTokens e;
     sendPolicy := sendPolicy e; lastProvider := lastProvider e;
     lastTo := lastTo e; skillsSnapshot := skillsSnapshot e;
     spawnedBy := spawnedBy e; providerOverride := providerOverride e;
     modelOverride := v; groupActivation := groupActivation e;
     otherFields := otherFields e |}.

(** A property of the request object: not there (or [undefined]), [null],
    or a value. *)
Inductive Patch (A : Type) := Absent | Null | Value (a : A).
Arguments Absent {A}.
Arguments Null {A}.
Arguments Value {A} a.

(** Modelled from the spec: the validated parameters of [sessions.patch]
    and [sessions.reset] (declared in [../protocol/index.js], which is not
    among the sources), with the properties the handlers read. *)
Record SessionsPatchParams := {
  patchKey : option string;
  patchSpawnedBy : Patch string;
  patchThinkingLevel : Patch string;
  patchVerboseLevel : Patch string;
  patchReasoningLevel : Patch string;
  patchResponseUsage : Patch string;
  patchModel : Patch string;
  patchSendPolicy : Patch string;
  patchGroupActivation : Patch string;
}.

Record SessionsResetParams := { resetKey : option string }.

(** What the schema validators make of the raw request: the formatted
    validation errors, or the typed parameters. *)
Inductive Validated (P : Type) :=
| InvalidParams (errors : string)
| ValidParams (p : P).
Arguments InvalidParams {P} errors.
Arguments ValidParams {P} p.

Inductive ErrorCode := INVALID_REQUEST.
Record ErrorShape := { code : ErrorCode; message : string }.

Definition errorShape (c : ErrorCode) (m : string) : ErrorShape :=
  {| code := c; message := m |}.

(** [respond(ok, payload, error)] *)
Inductive Response (R : Type) :=
| RespondOk (result : R)
| RespondError (err : ErrorShape).
Arguments RespondOk {R} result.
Arguments RespondError {R} err.

Record SessionsPatchResult := {
  resultPath : string;
  resultKey : string;
  resultEntry : SessionEntry;
}.

Record SessionsResetResult := {
  resetResultKey : string;
  resetResultEntry : SessionEntry;
}.

(** What a handler did: its response, and the call of [saveSessionStore]
    (path and document) when it made one. *)
Record Handled (R : Type) := {
  response : Response R;
  saved : option (string * gmap string SessionEntry);
}.
Arguments response {R} h.
Arguments saved {R} h.

Definition reject {R} (m : string) : Handled R :=
  {| response := RespondError (errorShape INVALID_REQUEST m); saved := None |}.

(** The session store file after the handler: replaced by the document
    that was saved, the same as before when nothing was saved. *)
Definition storeAfter {R} (disk : gmap string SessionEntry) (h : Handled R)
  : gmap string SessionEntry :=
  match saved h with Some (_, doc) => doc | None => disk end.

(** Modelled from the spec: what [resolveGatewaySessionStoreTarget]
    returns (declared in [../session-utils.js], which is not among the
    sources), with the three properties the handlers read. *)
Record StoreTarget := {
  storePath : string;
  storeKeys : list string;
  canonicalKey : string;
}.

(** The rename of a legacy key, common to both handlers:
    [primaryKey], and the loaded store after the rename. *)
Definition adoptExistingKey (target : StoreTarget) (key : string)
    (store : gmap string SessionEntry) : string * gmap string SessionEntry :=
  let primaryKey := default key (head (storeKeys target)) in
  let existingKey :=
    List.find (fun candidate => bool_decide (is_Some (store !! candidate)))
      (storeKeys target) in
  match existingKey with
  | Some ek =>
      if truthy ek && negb (String.eqb ek primaryKey)
         && negb (bool_decide (is_Some (store !! primaryKey)))
      then
        match store !! ek with
        | Some e => (primaryKey, delete ek (<[primaryKey := e]> store))
        | None => (primaryKey, store)
        end
      else (primaryKey, store)
  | None => (primaryKey, store)
  end.

(** [existing?.spawnedBy] as a condition. *)
Definition hasSpawnedBy (existing : option SessionEntry) : bool :=
  match existing ≫= spawnedBy with
  | Some v => truthy v
  | None => false
  end.

(** A step of the patch: an error message, or the entry so far. The
    messages are written without the quotation marks that the source puts
    around the choices it lists. *)
Definition Step : Type := string + SessionEntry.

Definition andThen (s : Step) (f : SessionEntry -> Step) : Step :=
  match s with inl m => inl m | inr e => f e end.

Notation "s >>= f" := (andThen s f) (at level 50, left associativity).

Definition patchSpawnedByStep (primaryKey : string)
    (existing : option SessionEntry) (raw : Patch string) (next : SessionEntry)
  : Step :=
  match raw with
  | Absent => inr next
  | Null =>
      if hasSpawnedBy existing then inl "spawnedBy cannot be cleared once set"
      else inr next
  | Value v =>
      let trimmed := trim v in
      if negb (truthy trimmed) then inl "invalid spawnedBy: empty"
      else if negb (SessionKey.isSubagentSessionKey (Some primaryKey)) then
        inl "spawnedBy is only supported for subagent:* sessions"
      else if hasSpawnedBy existing
              && negb (bool_decide (existing ≫= spawnedBy = Some trimmed)) then
        inl "spawnedBy cannot be changed once set"
      else inr (set_spawnedBy (Some trimmed) next)
  end.

(** The blocks for [thinkingLevel], [verboseLevel], [reasoningLevel] and
    [responseUsage]: a normalised ["off"] deletes the property. *)
Definition patchLevelStep (normalize : string -> option string)
    (invalid : string) (set : option string -> SessionEntry -> SessionEntry)
    (raw : Patch string) (next : SessionEntry) : Step :=
  match raw with
  | Absent => inr next
  | Null => inr (set None next)
  | Value v =>
      match normalize v with
      | None => inl invalid
      | Some normalized =>
          if negb (truthy normalized) then inl invalid
          else if String.eqb normalized "off" then inr (set None next)
          else inr (set (Some normalized) next)
      end
  end.

(** The blocks for [sendPolicy] and [groupActivation]. *)
Definition patchChoiceStep (normalize : string -> option string)
    (invalid : string) (set : option string -> SessionEntry -> SessionEntry)
    (raw : Patch string) (next : SessionEntry) : Step :=
  match raw with
  | Absent => inr next
  | Null => inr (set None next)
  | Value v =>
      match normalize v with
      | None => inl invalid
      | Some normalized =>
          if negb (truthy normalized) then inl invalid
          else inr (set (Some normalized) next)
      end
  end.

(** The ways of breaking the write-once rule of [spawnedBy] that the
    specification names: clearing it when it is set, changing it (the
    value is compared after trimming, as the handler stores it), and
    setting it on a key that is not a subagent key. *)
Definition breaksWriteOnce (primaryKey : string)
    (existing : option SessionEntry) (raw : Patch string) : Prop :=
  (raw = Null /\ hasSpawnedBy existing = true)
  \/ (exists v, raw = Value v /\ hasSpawnedBy existing = true
                /\ existing ≫= spawnedBy <> Some (trim v))
  \/ (exists v, raw = Value v
                /\ SessionKey.isSubagentSessionKey (Some primaryKey) = false).

Definition spawnedByErrors : list string :=
  [ "spawnedBy cannot be cleared once set";
    "invalid spawnedBy: empty";
    "spawnedBy is only supported for subagent:* sessions";
    "spawnedBy cannot be changed once set" ].

Section WithCollaborators.
(** [loadConfig()] *)
Variable cfg : ModelSelection.ClawdbotConfig.
Variable resolveGatewaySessionStoreTarget : string -> StoreTarget.
Variable DEFAULT_PROVIDER DEFAULT_MODEL : string.
(** The normalisers of [auto-reply/thinking.js], [sessions/send-policy.js]
    and [auto-reply/group-activation.js]: [None] for [undefined]. *)
Variable normalizeThinkLevel normalizeVerboseLevel normalizeReasoningLevel
         normalizeUsageDisplay normalizeSendPolicy normalizeGroupActivation
  : string -> option string.

Definition patchModelStep (catalog : list ModelSelection.ModelCatalogEntry)
    (raw : Patch string) (next : SessionEntry) : Step :=
  match raw with
  | Absent => inr next
  | Null => inr (set_modelOverride None (set_providerOverride None next))
  | Value v =>
      let trimmed := trim v in
      if negb (truthy trimmed) then inl "invalid model: empty"
      else
        let resolvedDefault :=
          ModelSelection.resolveConfiguredModelRef cfg
            DEFAULT_PROVIDER DEFAULT_MODEL in
        let defaultProvider := ModelSelection.provider resolvedDefault in
        let aliasIndex :=
          ModelSelection.buildModelAliasIndex cfg defaultProvider in
        match ModelSelection.resolveModelRefFromString trimmed
                defaultProvider (Some aliasIndex) with
        | None => inl ("invalid model: " ++ trimmed)
        | Some (ref, _) =>
            let allowed :=
              ModelSelection.buildAllowedModelSet cfg catalog defaultProvider
                (Some (ModelSelection.model resolvedDefault)) in
            let key := ModelSelection.modelKey
                         (ModelSelection.provider ref)
                         (ModelSelection.model ref) in
            if negb (ModelSelection.allowAny allowed)
               && negb (bool_decide
                          (key ∈ ModelSelection.allowedKeys allowed))
            then inl ("model not allowed: " ++ key)
            else if String.eqb (ModelSelection.provider ref) defaultProvider
                    && String.eqb (ModelSelection.model ref)
                         (ModelSelection.model resolvedDefault)
            then inr (set_modelOverride None (set_providerOverride None next))
            else inr (set_modelOverride (Some (ModelSelection.model ref))
                       (set_providerOverride
                          (Some (ModelSelection.provider ref)) next))
        end
  end.

(** The entry a patch starts from: a copy of the existing one with
    [updatedAt] moved on, or a new one with a fresh [sessionId]. *)
Definition patchStart (existing : option SessionEntry) (now : Z)
    (uuid : string) : SessionEntry :=
  match existing with
  | Some e => set_updatedAt (Some (Z.max (default 0 (updatedAt e)) now)) e
  | None =>
      {| sessionId := uuid; updatedAt := Some now; systemSent := None;
         abortedLastRun := None; thinkingLevel := None; verboseLevel := None;
         reasoningLevel := None; responseUsage := None; model := None;
         contextTokens := None; sendPolicy := None; lastProvider := None;
         lastTo := None; skillsSnapshot := None; spawnedBy := None;
         providerOverride := None; modelOverride := None;
         groupActivation := None; otherFields := ∅ |}
  end.

(** [sessionsHandlers["sessions.patch"]]. [disk] is what
    [loadSessionStore] reads, [now] is [Date.now()], [uuid] is what
    [randomUUID()] returns, [catalog] what [loadGatewayModelCatalog]
    resolves to. *)
Definition sessions_patch (params : Validated SessionsPatchParams)
    (disk : gmap string SessionEntry) (now : Z) (uuid : string)
    (catalog : list ModelSelection.ModelCatalogEntry)
  : Handled SessionsPatchResult :=
  match params with
  | InvalidParams errors =>
      reject ("invalid sessions.patch params: " ++ errors)
  | ValidParams p =>
      let key := trim (default "" (patchKey p)) in
      if negb (truthy key) then reject "key required"
      else
        let target := resolveGatewaySessionStoreTarget key in
        let '(primaryKey, store) := adoptExistingKey target key disk in
        let existing := store !! primaryKey in
        let next := patchStart existing now uuid in
        let patched :=
          patchSpawnedByStep primaryKey existing (patchSpawnedBy p) next
          >>= patchLevelStep normalizeThinkLevel
                "invalid thinkingLevel (use off|minimal|low|medium|high)"
                set_thinkingLevel (patchThinkingLevel p)
          >>= patchLevelStep normalizeVerboseLevel
                "invalid verboseLevel (use on|off)"
                set_verboseLevel (patchVerboseLevel p)
          >>= patchLevelStep normalizeReasoningLevel
                "invalid reasoningLevel (use on|off|stream)"
                set_reasoningLevel (patchReasoningLevel p)
          >>= patchLevelStep normalizeUsageDisplay
                "invalid responseUsage (use on|off)"
                set_responseUsage (patchResponseUsage p)
          >>= patchModelStep catalog (patchModel p)
          >>= patchChoiceStep normalizeSendPolicy
                "invalid sendPolicy (use allow|deny)"
                set_sendPolicy (patchSendPolicy p)
          >>= patchChoiceStep normalizeGroupActivation
                "invalid groupActivation (use mention|always)"
                set_groupActivation (patchGroupActivation p) in
        match patched with
        | inl m => reject m
        | inr entry =>
            let store := <[primaryKey := entry]> store in
            {| response :=
                 RespondOk {| resultPath := storePath target;
                              resultKey := canonicalKey target;
                              resultEntry := entry |};
               saved := Some (storePath target, store) |}
        end
  end.

(** The entry [sessions.reset] writes. *)
Definition resetEntry (entry : option SessionEntry) (now : Z) (uuid : string)
  : SessionEntry :=
  {| sessionId := uuid;
     updatedAt := Some now;
     systemSent := Some false;
     abortedLastRun := Some false;
     thinkingLevel := entry ≫= thinkingLevel;
     verboseLevel := entry ≫= verboseLevel;
     reasoningLevel := entry ≫= reasoningLevel;
     responseUsage := entry ≫= responseUsage;
     model := entry ≫= model;
     contextTokens := entry ≫= contextTokens;
     sendPolicy := entry ≫= sendPolicy;
     lastProvider := entry ≫= lastProvider;
     lastTo := entry ≫= lastTo;
     skillsSnapshot := entry ≫= skillsSnapshot;
     spawnedBy := None;
     providerOverride := None;
     modelOverride := None;
     groupActivation := None;
     otherFields := ∅ |}.

(** [sessionsHandlers["sessions.reset"]] *)
Definition sessions_reset (params : Validated SessionsResetParams)
    (disk : gmap string SessionEntry) (now : Z) (uuid : string)
  : Handled SessionsResetResult :=
  match params with
  | InvalidParams errors =>
      reject ("invalid sessions.reset params: " ++ errors)
  | ValidParams p =>
      let key := trim (default "" (resetKey p)) in
      if negb (truthy key) then reject "key required"
      else
        let target := resolveGatewaySessionStoreTarget key in
        let '(primaryKey, store) := adoptExistingKey target key disk in
        let entry := store !! primaryKey in
        let next := resetEntry entry now uuid in
        let store := <[primaryKey := next]> store in
        {| response :=
             RespondOk {| resetResultKey := canonicalKey target;
                          resetResultEntry := next |};
           saved := Some (storePath target, store) |}
  end.
End WithCollaborators.


(** [next.otherFields], for the properties kept there. *)
Definition set_otherFields (v : gmap string Json) (e : SessionEntry)
  : SessionEntry :=
  {| sessionId := sessionId e; updatedAt := updatedAt e;
     systemSent := systemSent e; abortedLastRun := abortedLastRun e;
     thinkingLevel := thinkingLevel e; verboseLevel := verboseLevel e;
     reasoningLevel := reasoningLevel e; responseUsage := responseUsage e;
     model := model e; contextTokens := contextTokens e;
     sendPolicy := sendPolicy e; lastProvider := lastProvider e;
     lastTo := lastTo e; skillsSnapshot := skillsSnapshot e;
     spawnedBy := spawnedBy e; providerOverride := providerOverride e;
     modelOverride := modelOverride e; groupActivation := groupActivation e;
     otherFields := v |}.

(** The properties of an entry that no block of [sessions.patch] assigns. *)
Definition sameUnpatched (e e' : SessionEntry) : Prop :=
  sessionId e' = sessionId e
  /\ systemSent e' = systemSent e
  /\ abortedLastRun e' = abortedLastRun e
  /\ model e' = model e
  /\ contextTokens e' = contextTokens e
  /\ lastProvider e' = lastProvider e
  /\ lastTo e' = lastTo e
  /\ skillsSnapshot e' = skillsSnapshot e
  /\ otherFields e' = otherFields e.

End Sessions.

(** ** The gateway handlers [sessions.delete] and [sessions.compact] *)

Module SessionMaintenance.
Import JsString.
Open Scope Z_scope.

Inductive ErrorCodes := INVALID_REQUEST | UNAVAILABLE.
Record ErrorShape := { code : ErrorCodes; message : string }.

Definition errorShape (c : ErrorCodes) (m : string) : ErrorShape :=
  {| code := c; message := m |}.

Inductive Response (R : Type) :=
| RespondOk (result : R)
| RespondError (err : ErrorShape).
Arguments RespondOk {R} result.
Arguments RespondError {R} err.

Record SessionsDeleteParams := {
  deleteKey : option string;
  deleteTranscript : option bool;
}.

Record SessionsCompactParams := {
  compactKey : option string;
  maxLines : option Z;
}.

Record SessionsDeleteResult := {
  deletedKey : string;
  deleted : bool;
  archived : list string;
}.

Record SessionsCompactResult := {
  compactedKey : string;
  compacted : bool;
  reason : option string;
  archivedAs : option string;
  kept : option nat;
}.

(** The calls that reach the embedded runner and the command queue. *)
Inductive RunControl :=
| ClearCommandLane (lane : string)
| AbortEmbeddedPiRun (sessionId : string).

(** What [sessions.delete] did: its response, the document handed to
    [saveSessionStore], the calls on the runner, and the files handed to
    [archiveFileOnDisk]. *)
Record Deleted := {
  deleteResponse : Response SessionsDeleteResult;
  deleteSaved : option (string * gmap string Sessions.SessionEntry);
  runControl : list RunControl;
  archiveCalls : list string;
}.

(** What [sessions.compact] did: its response ([None] when the handler
    ends with the exception of [archiveFileOnDisk]), the file written, and
    the document handed to [saveSessionStore]. *)
Record Compacted := {
  compactResponse : option (Response SessionsCompactResult);
  written : option (string * string);
  compactSaved : option (string * gmap string Sessions.SessionEntry);
}.

(** [entry?.sessionFile], a string property kept among the other fields. *)
Definition sessionFile (e : Sessions.SessionEntry) : option string :=
  Sessions.otherFields e !! "sessionFile".

(** [lines.slice(-n)] for a positive [n]. *)
Definition lastLines (n : nat) (lines : list string) : list string :=
  drop (length lines - n) lines.

(** [raw.split(/\r?\n/).filter((l) => l.trim().length > 0)] *)
Definition transcriptLines (raw : string) : list string :=
  List.filter (fun l => truthy (trim l)) (splitLines raw).

(** The entry after a compaction: the token counts deleted, [updatedAt]
    set to the clock. *)
Definition compactedEntry (now : Z) (e : Sessions.SessionEntry)
  : Sessions.SessionEntry :=
  Sessions.set_updatedAt (Some now)
    (Sessions.set_otherFields
       (delete "totalTokens"
          (delete "outputTokens"
             (delete "inputTokens" (Sessions.otherFields e)))) e).

Section WithCollaborators.
(** [resolveMainSessionKey(loadConfig())] *)
Variable mainKey : string.
Variable resolveGatewaySessionStoreTarget : string -> Sessions.StoreTarget.
(** [resolveEmbeddedSessionLane], [isEmbeddedPiRunActive] and the result
    of [waitForEmbeddedPiRunEnd(sessionId, 15_000)] of
    [agents/pi-embedded.js]. *)
Variable resolveEmbeddedSessionLane : string -> string.
Variable isEmbeddedPiRunActive : string -> bool.
Variable waitForEmbeddedPiRunEnd : string -> bool.
(** [resolveSessionTranscriptCandidates(sessionId, storePath, sessionFile,
    target.agentId)], the agent id being read off the target. *)
Variable resolveSessionTranscriptCandidates
  : string -> string -> option string -> Sessions.StoreTarget -> list string.
(** The file system: [fs.existsSync], [fs.readFileSync], and
    [archiveFileOnDisk(path, reason)], [None] when it throws. *)
Variable existsSync : string -> bool.
Variable readFileSync : string -> string.
Variable archiveFileOnDisk : string -> string -> option string.

Definition rejectDelete (c : ErrorCodes) (m : string) (calls : list RunControl)
  : Deleted :=
  {| deleteResponse := RespondError (errorShape c m); deleteSaved := None;
     runControl := calls; archiveCalls := [] |}.

(** [sessionsHandlers["sessions.delete"]]. [params] is what the schema
    validator makes of the request, [disk] what [loadSessionStore]
    reads. *)
Definition sessions_delete (params : Sessions.Validated SessionsDeleteParams)
    (disk : gmap string Sessions.SessionEntry) : Deleted :=
  match params with
  | Sessions.InvalidParams errors =>
      rejectDelete INVALID_REQUEST
        ("invalid sessions.delete params: " ++ errors) []
  | Sessions.ValidParams p =>
      let key := trim (default "" (deleteKey p)) in
      if negb (truthy key) then rejectDelete INVALID_REQUEST "key required" []
      else
        let target := resolveGatewaySessionStoreTarget key in
        if String.eqb (Sessions.canonicalKey target) mainKey then
          rejectDelete INVALID_REQUEST
            ("Cannot delete the main session (" ++ mainKey ++ ").") []
        else
          let deleteTranscript := default true (deleteTranscript p) in
          let storePath := Sessions.storePath target in
          let '(primaryKey, store) :=
            Sessions.adoptExistingKey target key disk in
          let entry := store !! primaryKey in
          let sessionId := Sessions.sessionId <$> entry in
          let existed := bool_decide (is_Some entry) in
          let lane :=
            ClearCommandLane
              (resolveEmbeddedSessionLane (Sessions.canonicalKey target)) in
          let active :=
            match sessionId with
            | Some sid => truthy sid && isEmbeddedPiRunActive sid
            | None => false
            end in
          let stillActive :=
            match sessionId with
            | Some sid => active && negb (waitForEmbeddedPiRunEnd sid)
            | None => false
            end in
          let calls :=
            match sessionId with
            | Some sid => if active then [lane; AbortEmbeddedPiRun sid] else [lane]
            | None => [lane]
            end in
          if stillActive then
            rejectDelete UNAVAILABLE
              ("Session " ++ key ++ " is still active; try again in a moment.")
              calls
          else
            let store := if existed then delete primaryKey store else store in
            let candidates :=
              match sessionId with
              | Some sid =>
                  if deleteTranscript && truthy sid then
                    List.filter existsSync
                      (resolveSessionTranscriptCandidates sid storePath
                         (entry ≫= sessionFile) target)
                  else []
              | None => []
              end in
            {| deleteResponse :=
                 RespondOk
                   {| deletedKey := Sessions.canonicalKey target;
                      deleted := existed;
                      archived :=
                        omap (fun c => archiveFileOnDisk c "deleted")
                          candidates |};
               deleteSaved := Some (storePath, store);
               runControl := calls;
               archiveCalls := candidates |}
  end.

Definition respondCompact (r : Response SessionsCompactResult) : Compacted :=
  {| compactResponse := Some r; written := None; compactSaved := None |}.

Definition notCompacted (key : string) (why : option string)
    (n : option nat) : Compacted :=
  respondCompact
    (RespondOk {| compactedKey := key; compacted := false; reason := why;
                  archivedAs := None; kept := n |}).

(** [sessionsHandlers["sessions.compact"]]. [now] is [Date.now()]. *)
Definition sessions_compact (params : Sessions.Validated SessionsCompactParams)
    (disk : gmap string Sessions.SessionEntry) (now : Z) : Compacted :=
  match params with
  | Sessions.InvalidParams errors =>
      respondCompact
        (RespondError
           (errorShape INVALID_REQUEST
              ("invalid sessions.compact params: " ++ errors)))
  | Sessions.ValidParams p =>
      let key := trim (default "" (compactKey p)) in
      if negb (truthy key) then
        respondCompact
          (RespondError (errorShape INVALID_REQUEST "key required"))
      else
        let maxLines :=
          match maxLines p with
          | Some n => Z.to_nat (Z.max 1 n)
          | None => 400%nat
          end in
        let target := resolveGatewaySessionStoreTarget key in
        let storePath := Sessions.storePath target in
        let '(primaryKey, store) :=
          Sessions.adoptExistingKey target key disk in
        let canonical := Sessions.canonicalKey target in
        match store !! primaryKey with
        | None => notCompacted canonical (Some "no sessionId") None
        | Some entry =>
            let sessionId := Sessions.sessionId entry in
            if negb (truthy sessionId) then
              notCompacted canonical (Some "no sessionId") None
            else
              match
                List.find existsSync
                  (resolveSessionTranscriptCandidates sessionId storePath
                     (sessionFile entry) target)
              with
              | None => notCompacted canonical (Some "no transcript") None
              | Some filePath =>
                  if negb (truthy filePath) then
                    notCompacted canonical (Some "no transcript") None
                  else
                    let lines := transcriptLines (readFileSync filePath) in
                    if (length lines <=? maxLines)%nat then
                      notCompacted canonical None (Some (length lines))
                    else
                      match archiveFileOnDisk filePath "bak" with
                      | None =>
                          {| compactResponse := None; written := None;
                             compactSaved := None |}
                      | Some archived =>
                          let keptLines := lastLines maxLines lines in
                          {| compactResponse :=
                               Some
                                 (RespondOk
                                    {| compactedKey := canonical;
                                       compacted := true;
                                       reason := None;
                                       archivedAs := Some archived;
                                       kept := Some (length keptLines) |});
                             written :=
                               Some (filePath,
                                     join newline keptLines ++ newline);
                             compactSaved :=
                               Some (storePath,
                                     <[primaryKey := compactedEntry now entry]>
                                       store) |}
                      end
              end
        end
  end.
End WithCollaborators.

End SessionMaintenance.

(** ** The model of a reply turn ([createModelSelectionState],
    [resolveModelDirectiveSelection]) *)

Module ModelDirective.
Import JsString ModelSelection.
Open Scope Z_scope.

Record ModelDirectiveSelection := {
  selectedProvider : string;
  selectedModel : string;
  isDefault : bool;
  selectedAlias : option string;
}.

(** The two error texts of [resolveModelDirectiveSelection]:
    [Unrecognized model <raw>. Use /model to list available models.] and
    [Model <provider>/<model> is not allowed. Use /model to list available
    models.], by what they name. *)
Inductive DirectiveError :=
| UnrecognizedModel (raw : string)
| ModelNotAllowed (provider model : string).

(** [allowedModelKeys.size > 0 && !allowedModelKeys.has(key)] *)
Definition rejects (allowedModelKeys : gset string) (key : string) : bool :=
  negb (bool_decide (allowedModelKeys = ∅))
  && negb (bool_decide (key ∈ allowedModelKeys)).

Definition resolveModelDirectiveSelection (raw defaultProvider
    defaultModel : string) (aliasIndex : ModelAliasIndex)
    (allowedModelKeys : gset string)
  : DirectiveError + ModelDirectiveSelection :=
  match resolveModelRefFromString raw defaultProvider (Some aliasIndex) with
  | None => inl (UnrecognizedModel raw)
  | Some (ref, alias) =>
      let key := modelKey (provider ref) (model ref) in
      if rejects allowedModelKeys key then
        inl (ModelNotAllowed (provider ref) (model ref))
      else
        inr {| selectedProvider := provider ref;
               selectedModel := model ref;
               isDefault := String.eqb (provider ref) defaultProvider
                            && String.eqb (model ref) defaultModel;
               selectedAlias := alias |}
  end.

Section WithContext.
(** [lookupContextTokens] of [agents/context.js] and
    [DEFAULT_CONTEXT_TOKENS] of [agents/defaults.js]. *)
Variable lookupContextTokens : string -> option Z.
Variable DEFAULT_CONTEXT_TOKENS : Z.

Definition resolveContextTokens (agentContextTokens : option Z)
    (model : string) : Z :=
  match agentContextTokens with
  | Some n => n
  | None => default DEFAULT_CONTEXT_TOKENS (lookupContextTokens model)
  end.
End WithContext.

(** [sessionEntry.authProfileOverride], a string property kept among the
    other fields. *)
Definition authProfileOverride (e : Sessions.SessionEntry) : option string :=
  Sessions.otherFields e !! "authProfileOverride".

(** An optional string as a condition. *)
Definition present (o : option string) : bool :=
  match o with Some s => truthy s | None => false end.

(** [o?.trim()], the empty string standing for a falsy result. *)
Definition trimmedOr (o : option string) (fallback : string) : string :=
  orElse (trim (default "" o)) fallback.

Record ModelSelectionState := {
  stateProvider : string;
  stateModel : string;
  allowedModelKeys : gset string;
  allowedModelCatalog : list ModelCatalogEntry;
  resetModelOverride : bool;
  defaultThinkingLevel : ThinkLevel;
  needsModelCatalog : bool;
}.

(** What [createModelSelectionState] leaves behind: the state it returns,
    the session entry and the session store as mutated, and the documents
    handed to [saveSessionStore], oldest first. *)
Record Selected := {
  selection : ModelSelectionState;
  entryAfter : option Sessions.SessionEntry;
  storeAfter : option (gmap string Sessions.SessionEntry);
  saves : list (string * gmap string Sessions.SessionEntry);
}.

(** [if (storePath) await saveSessionStore(storePath, sessionStore)] *)
Definition saveTo (storePath : option string)
    (st : gmap string Sessions.SessionEntry)
  : list (string * gmap string Sessions.SessionEntry) :=
  match storePath with
  | Some path => if truthy path then [(path, st)] else []
  | None => []
  end.

(** [sessionEntry?.modelOverride || sessionEntry?.providerOverride] *)
Definition hasStoredOverride (sessionEntry : option Sessions.SessionEntry)
  : bool :=
  present (sessionEntry ≫= Sessions.modelOverride)
  || present (sessionEntry ≫= Sessions.providerOverride).

(** The first block on the session entry: a stored override that the
    allowed set rejects is deleted from the entry, which is written to
    the store and saved. The result is the entry and the store as they
    are then, the documents saved, and [resetModelOverride]. *)
Definition dropRejectedOverride (allowedModelKeys : gset string)
    (defaultProvider : string) (now : Z)
    (sessionEntry : option Sessions.SessionEntry)
    (sessionStore : option (gmap string Sessions.SessionEntry))
    (sessionKey storePath : option string)
  : option Sessions.SessionEntry * option (gmap string Sessions.SessionEntry)
    * list (string * gmap string Sessions.SessionEntry) * bool :=
  match sessionEntry, sessionStore, sessionKey with
  | Some e, Some st, Some k =>
      let overrideProvider :=
        trimmedOr (Sessions.providerOverride e) defaultProvider in
      let overrideModel := trim (default "" (Sessions.modelOverride e)) in
      if truthy k && hasStoredOverride sessionEntry && truthy overrideModel
         && rejects allowedModelKeys (modelKey overrideProvider overrideModel)
      then
        let e' :=
          Sessions.set_updatedAt (Some now)
            (Sessions.set_modelOverride None
               (Sessions.set_providerOverride None e)) in
        let st' := <[k := e']> st in
        (Some e', Some st', saveTo storePath st', true)
      else (sessionEntry, sessionStore, [], false)
  | _, _, _ => (sessionEntry, sessionStore, [], false)
  end.

(** The second block: the stored override, read from the entry as it is
    now, replaces the provider and the model when the allowed set is
    empty or holds its key. *)
Definition applyStoredOverride (allowedModelKeys : gset string)
    (defaultProvider provider0 model0 : string)
    (sessionEntry : option Sessions.SessionEntry) : string * string :=
  let storedProviderOverride :=
    trim (default "" (sessionEntry ≫= Sessions.providerOverride)) in
  let storedModelOverride :=
    trim (default "" (sessionEntry ≫= Sessions.modelOverride)) in
  let candidateProvider := orElse storedProviderOverride defaultProvider in
  if truthy storedModelOverride
     && negb (rejects allowedModelKeys
                (modelKey candidateProvider storedModelOverride))
  then (candidateProvider, storedModelOverride)
  else (provider0, model0).

Section WithCollaborators.
(** [ensureAuthProfileStore().profiles[id]?.provider] *)
Variable profileProvider : string -> option string.

(** The third block: an auth profile that is unknown, or belongs to
    another provider than the one selected, is deleted from the entry. *)
Definition dropForeignProfile (provider : string) (now : Z)
    (sessionEntry : option Sessions.SessionEntry)
    (sessionStore : option (gmap string Sessions.SessionEntry))
    (sessionKey storePath : option string)
  : option Sessions.SessionEntry * option (gmap string Sessions.SessionEntry)
    * list (string * gmap string Sessions.SessionEntry) :=
  match sessionEntry, sessionStore, sessionKey with
  | Some e, Some st, Some k =>
      match authProfileOverride e with
      | Some profileId =>
          if truthy k && truthy profileId
             && negb (bool_decide (profileProvider profileId = Some provider))
          then
            let e' :=
              Sessions.set_updatedAt (Some now)
                (Sessions.set_otherFields
                   (delete "authProfileOverride" (Sessions.otherFields e)) e) in
            let st' := <[k := e']> st in
            (Some e', Some st', saveTo storePath st')
          else (sessionEntry, sessionStore, [])
      | None => (sessionEntry, sessionStore, [])
      end
  | _, _, _ => (sessionEntry, sessionStore, [])
  end.

(** [createModelSelectionState]. [agentCfgModels] is
    [Object.keys(agentCfg?.models ?? {})]; [catalog] and [catalogAgain]
    are what the first and the second call of [loadModelCatalog] resolve
    to, [now1] and [now2] the first and the second reading of
    [Date.now()]. The thinking level is the result of the first call of
    the closure [resolveDefaultThinkingLevel]. *)
Definition createModelSelectionState (cfg : ClawdbotConfig)
    (agentCfgModels : list string)
    (sessionEntry : option Sessions.SessionEntry)
    (sessionStore : option (gmap string Sessions.SessionEntry))
    (sessionKey storePath : option string)
    (defaultProvider defaultModel provider0 model0 : string)
    (hasModelDirective : bool)
    (catalog catalogAgain : list ModelCatalogEntry) (now1 now2 : Z)
  : Selected :=
  let hasAllowlist := negb (length agentCfgModels =? 0)%nat in
  let needsModelCatalog :=
    hasModelDirective || hasAllowlist || hasStoredOverride sessionEntry in
  let allowed :=
    if needsModelCatalog then
      let a := buildAllowedModelSet cfg catalog defaultProvider
                 (Some defaultModel) in
      (allowedKeys a, allowedCatalog a)
    else (∅, []) in
  let '(entry1, store1, saves1, reset) :=
    dropRejectedOverride (fst allowed) defaultProvider now1
      sessionEntry sessionStore sessionKey storePath in
  let '(provider, model) :=
    applyStoredOverride (fst allowed) defaultProvider provider0 model0
      entry1 in
  let '(entry2, store2, saves2) :=
    dropForeignProfile provider (if reset then now2 else now1)
      entry1 store1 sessionKey storePath in
  let catalogForThinking :=
    if needsModelCatalog && negb (length catalog =? 0)%nat then catalog
    else catalogAgain in
  {| selection :=
       {| stateProvider := provider;
          stateModel := model;
          allowedModelKeys := fst allowed;
          allowedModelCatalog := snd allowed;
          resetModelOverride := reset;
          defaultThinkingLevel :=
            resolveThinkingDefault cfg provider model
              (Some catalogForThinking);
          needsModelCatalog := needsModelCatalog |};
     entryAfter := entry2;
     storeAfter := store2;
     saves := (saves1 ++ saves2)%list |}.
End WithCollaborators.

End ModelDirective.

(** ** The route resolver ([resolveAgentRoute]) *)

Module ResolveRoute.
Import JsString.

(** Modelled from the spec: the peer [{kind, id}] of an event or of a
    binding rule. *)
Record RoutePeer := { kind : SessionKey.PeerKind; peerIdOf : string }.

(** Modelled from the spec: the criteria of a binding rule, as the test
    file writes them. *)
Record BindingMatch := {
  matchChannel : string;
  matchAccountId : option string;
  matchPeer : option RoutePeer;
  matchGuildId : option string;
}.

(** Modelled from the spec: a binding rule, mapping criteria to an agent
    id. *)
Record Binding := { bindingAgentId : string; bindingMatch : BindingMatch }.

(** Modelled from the spec: the configuration the resolver reads, that is
    the ordered binding rules, the globally configured default agent, and
    the session scope settings. *)
Record RouteConfig := {
  bindings : list Binding;
  defaultAgentId : option string;
  sessionDmScope : option SessionKey.DmScope;
  sessionMainKey : option string;
}.

(** Modelled from the spec: the inbound event context
    [{channel, accountId?, peer: {kind, id}, guildId?}] with the
    configuration. *)
Record RouteInput := {
  cfg : RouteConfig;
  channel : string;
  accountId : option string;
  peer : RoutePeer;
  guildId : option string;
}.

(** Modelled from the spec: the tiers, as the test file names them:
    ["binding.peer"], ["binding.guild"], ["binding.account"],
    ["binding.channel"], and ["default"] for both kinds of default. *)
Inductive MatchedBy :=
| BindingPeer | BindingGuild | BindingAccount | BindingChannel | MatchedDefault.

Global Instance MatchedBy_eq_dec : EqDecision MatchedBy.
Proof. solve_decision. Defined.

(** Modelled from the spec: the result
    [{agentId, accountId, sessionKey, matchedBy}]. *)
Record ResolvedAgentRoute := {
  routeAgentId : string;
  routeAccountId : string;
  sessionKey : string;
  matchedBy : MatchedBy;
}.

Definition peerKind_eqb (a b : SessionKey.PeerKind) : bool :=
  match a, b with
  | SessionKey.Dm, SessionKey.Dm
  | SessionKey.Group, SessionKey.Group
  | SessionKey.Channel, SessionKey.Channel => true
  | _, _ => false
  end.

Definition isAnyAccount (m : BindingMatch) : bool :=
  String.eqb (trim (default "" (matchAccountId m))) "*".

(** Modelled from the spec: the channel and account test of a binding
    rule, part of [resolveAgentRoute] ([src/routing/resolve-route.ts]),
    which is not among the sources. A rule without [accountId] matches the
    default account only, the account ["*"] matches every account, any
    other account must be the (normalised) account of the event. *)
Definition inScope (input : RouteInput) (b : Binding) : bool :=
  let m := bindingMatch b in
  let account := SessionKey.normalizeAccountId (accountId input) in
  let wanted := trim (default "" (matchAccountId m)) in
  String.eqb (SessionKey.normalizeToken (Some (matchChannel m)))
             (SessionKey.normalizeToken (Some (channel input)))
  && (if negb (truthy wanted) then String.eqb account SessionKey.DEFAULT_ACCOUNT_ID
      else if String.eqb wanted "*" then true
      else String.eqb (SessionKey.normalizeAccountId (Some wanted)) account).

(** Modelled from the spec: tier 1 of [resolveAgentRoute], a rule that
    names the very peer of the event. *)
Definition matchesPeer (input : RouteInput) (b : Binding) : bool :=
  inScope input b
  && match matchPeer (bindingMatch b) with
     | Some p =>
         peerKind_eqb (kind p) (kind (peer input))
         && String.eqb (trim (peerIdOf p)) (trim (peerIdOf (peer input)))
     | None => false
     end.

(** Modelled from the spec: tier 2 of [resolveAgentRoute], a rule that
    names the guild of the event and no peer. *)
Definition matchesGuild (input : RouteInput) (b : Binding) : bool :=
  inScope input b
  && negb (bool_decide (is_Some (matchPeer (bindingMatch b))))
  && match matchGuildId (bindingMatch b), guildId input with
     | Some g, Some g' => truthy (trim g) && String.eqb (trim g) (trim g')
     | _, _ => false
     end.

(** Modelled from the spec: tier 3 of [resolveAgentRoute], a rule for the
    channel and the account and nothing else. *)
Definition matchesAccount (input : RouteInput) (b : Binding) : bool :=
  inScope input b
  && negb (isAnyAccount (bindingMatch b))
  && negb (bool_decide (is_Some (matchPeer (bindingMatch b))))
  && negb (bool_decide (is_Some (matchGuildId (bindingMatch b)))).

(** Modelled from the spec: tier 4 of [resolveAgentRoute], a rule for
    every account of the channel. *)
Definition matchesAnyAccount (input : RouteInput) (b : Binding) : bool :=
  inScope input b
  && isAnyAccount (bindingMatch b)
  && negb (bool_decide (is_Some (matchPeer (bindingMatch b))))
  && negb (bool_decide (is_Some (matchGuildId (bindingMatch b)))).

(** Modelled from the spec: the result for the chosen agent, the session
    key delegated to [buildAgentPeerSessionKey]. *)
Definition choose (input : RouteInput) (agentId : string) (by_ : MatchedBy)
  : ResolvedAgentRoute :=
  {| routeAgentId := SessionKey.normalizeAgentId (Some agentId);
     routeAccountId := SessionKey.normalizeAccountId (accountId input);
     sessionKey :=
       SessionKey.buildAgentPeerSessionKey
         {| SessionKey.agentId := agentId;
            SessionKey.mainKey := sessionMainKey (cfg input);
            SessionKey.channel := channel input;
            SessionKey.peerKind := Some (kind (peer input));
            SessionKey.peerId := Some (peerIdOf (peer input));
            SessionKey.dmScope := sessionDmScope (cfg input) |};
     matchedBy := by_ |}.

(** Modelled from the spec: [resolveAgentRoute] of
    [src/routing/resolve-route.ts], of which only the test file is among
    the sources. The tiers are tried from the highest down, each one in
    declaration order, the first match wins; without a match the
    configured default agent is taken, or else ["main"]. *)
Definition resolveAgentRoute (input : RouteInput) : ResolvedAgentRoute :=
  let rules := bindings (cfg input) in
  match List.find (matchesPeer input) rules with
  | Some b => choose input (bindingAgentId b) BindingPeer
  | None =>
  match List.find (matchesGuild input) rules with
  | Some b => choose input (bindingAgentId b) BindingGuild
  | None =>
  match List.find (matchesAccount input) rules with
  | Some b => choose input (bindingAgentId b) BindingAccount
  | None =>
  match List.find (matchesAnyAccount input) rules with
  | Some b => choose input (bindingAgentId b) BindingChannel
  | None =>
      choose input
        (default SessionKey.DEFAULT_AGENT_ID (defaultAgentId (cfg input)))
        MatchedDefault
  end end end end.

(** The tier in which a rule matches the event, if it matches at all. *)
Definition tierOf (input : RouteInput) (b : Binding) : option MatchedBy :=
  if matchesPeer input b then Some BindingPeer
  else if matchesGuild input b then Some BindingGuild
  else if matchesAccount input b then Some BindingAccount
  else if matchesAnyAccount input b then Some BindingChannel
  else None.

(** The test of a tier. *)
Definition matcher (t : MatchedBy) : RouteInput -> Binding -> bool :=
  match t with
  | BindingPeer => matchesPeer
  | BindingGuild => matchesGuild
  | BindingAccount => matchesAccount
  | BindingChannel => matchesAnyAccount
  | MatchedDefault => fun _ _ => false
  end.

(** Precedence of the tiers: the lower the rank, the stronger the tier. *)
Definition rank (t : MatchedBy) : nat :=
  match t with
  | BindingPeer => 0 | BindingGuild => 1 | BindingAccount => 2
  | BindingChannel => 3 | MatchedDefault => 4
  end.

Definition withBindings (input : RouteInput) (rules : list Binding)
  : RouteInput :=
  {| cfg := {| bindings := rules;
               defaultAgentId := defaultAgentId (cfg input);
               sessionDmScope := sessionDmScope (cfg input);
               sessionMainKey := sessionMainKey (cfg input) |};
     channel := channel input; accountId := accountId input;
     peer := peer input; guildId := guildId input |}.

End ResolveRoute.


(** ** Sample data for the examples *)

Module Samples.
Import ModelSelection.

(** The configuration and the catalog of the test of [buildAllowedModelSet],
    the catalog extended by a model that is not on the allow-list. *)
Definition allowlistGpt4 : ClawdbotConfig :=
  {| agentModels := [("openai/gpt-4", Some "gpt4")];
     agentModel := None; agentThinkingDefault := None |}.

Definition catalogOpenai : list ModelCatalogEntry :=
  [ {| entryProvider := "openai"; entryId := "gpt-4"; entryName := "GPT-4";
       entryReasoning := None |};
    {| entryProvider := "openai"; entryId := "gpt-3.5"; entryName := "GPT-3.5";
       entryReasoning := None |} ].

(** A one-shot job that is running, and the result of its run. *)
Definition onceJob : CronTimer.CronJob :=
  {| CronTimer.id := "once"; CronTimer.enabled := true;
     CronTimer.schedule :=
       CronSchedule.SchedAt None (Some (CronSchedule.AtNumber 1000));
     CronTimer.deleteAfterRun := None; CronTimer.updatedAtMs := 0%Z;
     CronTimer.state :=
       {| CronTimer.runningAtMs := Some 1000%Z; CronTimer.lastRunAtMs := None;
          CronTimer.lastStatus := None; CronTimer.lastDurationMs := None;
          CronTimer.lastError := None;
          CronTimer.nextRunAtMs := Some 1000%Z |} |}.

Definition onceResult : CronTimer.RunResult :=
  {| CronTimer.jobId := "once"; CronTimer.status := CronTimer.StatusOk;
     CronTimer.error := None; CronTimer.summary := Some "done";
     CronTimer.sessionId := None; CronTimer.sessionKey := None;
     CronTimer.startedAt := 1000%Z; CronTimer.endedAt := 1200%Z |}.

(** A cron store with one job that is due at 1500. *)
Definition everySecond : CronTimer.CronJob :=
  {| CronTimer.id := "job-1"; CronTimer.enabled := true;
     CronTimer.schedule := CronSchedule.SchedEvery 1000 (Some 0%Z);
     CronTimer.deleteAfterRun := None; CronTimer.updatedAtMs := 0%Z;
     CronTimer.state :=
       {| CronTimer.runningAtMs := None; CronTimer.lastRunAtMs := None;
          CronTimer.lastStatus := None; CronTimer.lastDurationMs := None;
          CronTimer.lastError := None; CronTimer.nextRunAtMs := Some 1000%Z |} |}.

Definition idleCron : CronTimer.CronServiceState :=
  {| CronTimer.store := Some {| CronTimer.jobs := [everySecond] |};
     CronTimer.running := false |}.





(** The policy and the environments of the tests of [sanitizeHostExecEnv]. *)
Definition policyKeys : list string := ["BASH_ENV"; "LD_PRELOAD"].
Definition policyPrefixes : list string := ["DYLD_"; "LD_"; "BASH_FUNC_"].

Definition baseEnvOfTest : list (string * option string) :=
  [("PATH", Some "/usr/bin:/bin"); ("HOME", Some "/tmp/home");
   ("BASH_ENV", Some "/tmp/pwn.sh")].

Definition overridesOfTest : list (string * string) :=
  [("PATH", "/tmp/evil"); ("BASH_ENV", "/tmp/pwn.sh"); ("SAFE", "ok");
   (" BAD KEY", "x"); ("NOT-PORTABLE", "x")].

(** A session store with one subagent session that has a parent. *)
Definition childEntry : Sessions.SessionEntry :=
  {| Sessions.sessionId := "uuid-1"; Sessions.updatedAt := Some 100%Z;
     Sessions.systemSent := Some true; Sessions.abortedLastRun := Some true;
     Sessions.thinkingLevel := Some "high"; Sessions.verboseLevel := None;
     Sessions.reasoningLevel := None; Sessions.responseUsage := None;
     Sessions.model := None; Sessions.contextTokens := None;
     Sessions.sendPolicy := Some "deny"; Sessions.lastProvider := None;
     Sessions.lastTo := None; Sessions.skillsSnapshot := Some "{}";
     Sessions.spawnedBy := Some "agent:main:main";
     Sessions.providerOverride := None; Sessions.modelOverride := None;
     Sessions.groupActivation := None; Sessions.otherFields := ∅ |}.

Definition childKey : string := "agent:main:subagent:worker".

(** The entry with a model override that the allow-list [openai/gpt-4]
    admits, and with one that it does not. *)
Definition pinnedEntry : Sessions.SessionEntry :=
  Sessions.set_modelOverride (Some "gpt-4")
    (Sessions.set_providerOverride (Some "openai") childEntry).

Definition staleEntry : Sessions.SessionEntry :=
  Sessions.set_modelOverride (Some "gpt-3.5")
    (Sessions.set_providerOverride (Some "openai") childEntry).

Definition diskWithChild : gmap string Sessions.SessionEntry :=
  {[ childKey := childEntry ]}.

Definition targetOfKey (key : string) : Sessions.StoreTarget :=
  {| Sessions.storePath := "sessions.json"; Sessions.storeKeys := [key];
     Sessions.canonicalKey := key |}.

Definition clearSpawnedBy : Sessions.SessionsPatchParams :=
  {| Sessions.patchKey := Some childKey; Sessions.patchSpawnedBy := Sessions.Null;
     Sessions.patchThinkingLevel := Sessions.Absent;
     Sessions.patchVerboseLevel := Sessions.Absent;
     Sessions.patchReasoningLevel := Sessions.Absent;
     Sessions.patchResponseUsage := Sessions.Absent;
     Sessions.patchModel := Sessions.Absent;
     Sessions.patchSendPolicy := Sessions.Absent;
     Sessions.patchGroupActivation := Sessions.Absent |}.

(** Deleting and compacting the subagent session: its transcript is the
    one file named after the session id, and archiving renames a file
    after the reason. *)
Definition transcriptOf (sessionId storePath : string)
    (sessionFile : option string) (target : Sessions.StoreTarget)
  : list string :=
  [sessionId ++ ".jsonl"].

Definition archiveAs (path reason : string) : option string :=
  Some (path ++ "." ++ reason).

Definition deleteChild : SessionMaintenance.SessionsDeleteParams :=
  {| SessionMaintenance.deleteKey := Some childKey;
     SessionMaintenance.deleteTranscript := None |}.

Definition childDeleted : SessionMaintenance.SessionsDeleteResult :=
  {| SessionMaintenance.deletedKey := childKey;
     SessionMaintenance.deleted := true;
     SessionMaintenance.archived := ["uuid-1.jsonl.deleted"] |}.

Definition twoLines : string :=
  "first" ++ JsString.newline ++ "second" ++ JsString.newline.

Definition compactChild : SessionMaintenance.SessionsCompactParams :=
  {| SessionMaintenance.compactKey := Some childKey;
     SessionMaintenance.maxLines := Some 1%Z |}.

Definition childCompacted : SessionMaintenance.SessionsCompactResult :=
  {| SessionMaintenance.compactedKey := childKey;
     SessionMaintenance.compacted := true;
     SessionMaintenance.reason := None;
     SessionMaintenance.archivedAs := Some "uuid-1.jsonl.bak";
     SessionMaintenance.kept := Some 1%nat |}.

(** A patch of the thinking level alone, and the answer it gets. *)
Definition setThinking : Sessions.SessionsPatchParams :=
  {| Sessions.patchKey := Some childKey; Sessions.patchSpawnedBy := Sessions.Absent;
     Sessions.patchThinkingLevel := Sessions.Value "low";
     Sessions.patchVerboseLevel := Sessions.Absent;
     Sessions.patchReasoningLevel := Sessions.Absent;
     Sessions.patchResponseUsage := Sessions.Absent;
     Sessions.patchModel := Sessions.Absent;
     Sessions.patchSendPolicy := Sessions.Absent;
     Sessions.patchGroupActivation := Sessions.Absent |}.

Definition thinkingSet : Sessions.SessionsPatchResult :=
  {| Sessions.resultPath := "sessions.json";
     Sessions.resultKey := childKey;
     Sessions.resultEntry :=
       Sessions.set_thinkingLevel (Some "low")
         (Sessions.set_updatedAt (Some 200%Z) childEntry) |}.

Definition noConfig : ClawdbotConfig :=
  {| agentModels := []; agentModel := None; agentThinkingDefault := None |}.

(** The rules and the event of the Discord tests of the resolver. *)
Definition channelRule : ResolveRoute.Binding :=
  {| ResolveRoute.bindingAgentId := "chan";
     ResolveRoute.bindingMatch :=
       {| ResolveRoute.matchChannel := "discord";
          ResolveRoute.matchAccountId := Some "default";
          ResolveRoute.matchPeer :=
            Some {| ResolveRoute.kind := SessionKey.Channel;
                    ResolveRoute.peerIdOf := "c1" |};
          ResolveRoute.matchGuildId := None |} |}.

Definition guildRule : ResolveRoute.Binding :=
  {| ResolveRoute.bindingAgentId := "guild";
     ResolveRoute.bindingMatch :=
       {| ResolveRoute.matchChannel := "discord";
          ResolveRoute.matchAccountId := Some "default";
          ResolveRoute.matchPeer := None;
          ResolveRoute.matchGuildId := Some "g1" |} |}.

Definition accountRule : ResolveRoute.Binding :=
  {| ResolveRoute.bindingAgentId := "acct";
     ResolveRoute.bindingMatch :=
       {| ResolveRoute.matchChannel := "discord";
          ResolveRoute.matchAccountId := Some "default";
          ResolveRoute.matchPeer := None;
          ResolveRoute.matchGuildId := None |} |}.

Definition discordEvent (rules : list ResolveRoute.Binding)
  : ResolveRoute.RouteInput :=
  {| ResolveRoute.cfg :=
       {| ResolveRoute.bindings := rules;
          ResolveRoute.defaultAgentId := None;
          ResolveRoute.sessionDmScope := None;
          ResolveRoute.sessionMainKey := None |};
     ResolveRoute.channel := "discord";
     ResolveRoute.accountId := Some "default";
     ResolveRoute.peer := {| ResolveRoute.kind := SessionKey.Channel;
                             ResolveRoute.peerIdOf := "c1" |};
     ResolveRoute.guildId := Some "g1" |}.

(** The WhatsApp events of the resolver tests. *)
Definition whatsappEvent (rules : list ResolveRoute.Binding)
    (agent : option string) (scope : option SessionKey.DmScope)
    (account : option string) (peerId : string) : ResolveRoute.RouteInput :=
  {| ResolveRoute.cfg :=
       {| ResolveRoute.bindings := rules;
          ResolveRoute.defaultAgentId := agent;
          ResolveRoute.sessionDmScope := scope;
          ResolveRoute.sessionMainKey := None |};
     ResolveRoute.channel := "whatsapp";
     ResolveRoute.accountId := account;
     ResolveRoute.peer := {| ResolveRoute.kind := SessionKey.Dm;
                             ResolveRoute.peerIdOf := peerId |};
     ResolveRoute.guildId := None |}.

Definition whatsappRule (agent : string) (account : option string)
    (peerId : option string) : ResolveRoute.Binding :=
  {| ResolveRoute.bindingAgentId := agent;
     ResolveRoute.bindingMatch :=
       {| ResolveRoute.matchChannel := "whatsapp";
          ResolveRoute.matchAccountId := account;
          ResolveRoute.matchPeer :=
            (fun i => {| ResolveRoute.kind := SessionKey.Dm;
                         ResolveRoute.peerIdOf := i |}) <$> peerId;
          ResolveRoute.matchGuildId := None |} |}.

End Samples.

(* ===================================================================== *)
(** * Part II: properties                                                 *)
(* ===================================================================== *)

(** ** Strings *)

Section StringFacts.
Import JsString.

Lemma chars_str (l : list ascii) : chars (str l) = l.
Proof. apply list_ascii_of_string_of_list_ascii. Qed.

Lemma str_chars (s : string) : str (chars s) = s.
Proof. apply string_of_list_ascii_of_string. Qed.

Lemma truthy_false_empty (s : string) : truthy s = false <-> s = "".
Proof. destruct s; simpl; split; congruence. Qed.

Lemma truthy_true_nonempty (s : string) : truthy s = true <-> s <> "".
Proof. destruct s; simpl; split; congruence. Qed.

Lemma Forall_dropWhile (P : ascii -> Prop) p l :
  Forall P l -> Forall P (dropWhile p l).
Proof.
  induction 1 as [|c r Hc Hr IH]; simpl; [constructor|].
  destruct (p c); [exact IH | by constructor].
Qed.

Lemma Forall_dropWhileEnd (P : ascii -> Prop) p l :
  Forall P l -> Forall P (dropWhileEnd p l).
Proof.
  intros H. unfold dropWhileEnd.
  apply Forall_rev, Forall_dropWhile, Forall_rev, H.
Qed.

(** Nothing is dropped from a list on which the test fails everywhere. *)
Lemma dropWhile_none p l :
  Forall (fun c => p c = false) l -> dropWhile p l = l.
Proof. destruct 1 as [|c r Hc _]; simpl; [done | by rewrite Hc]. Qed.

Lemma dropWhileEnd_none p l :
  Forall (fun c => p c = false) l -> dropWhileEnd p l = l.
Proof.
  intros H. unfold dropWhileEnd.
  rewrite dropWhile_none; [apply rev_involutive | by apply Forall_rev].
Qed.

Lemma trim_none (s : string) :
  Forall (fun c => isWhiteSpace c = false) (chars s) -> trim s = s.
Proof.
  intros H. unfold trim, trimChars.
  rewrite (dropWhile_none _ _ H), (dropWhileEnd_none _ _ H). apply str_chars.
Qed.

Lemma forallb_true_Forall {A} (f : A -> bool) (l : list A) :
  forallb f l = true -> Forall (fun x => f x = true) l.
Proof.
  induction l as [|x l IH]; simpl; [constructor|].
  intros H. apply andb_prop in H as [Hx Hl]. constructor; auto.
Qed.

End StringFacts.

(** ** Session keys *)

Section SessionKeyFacts.
Import JsString SessionKey.

Lemma normalizeMainKey_unset : normalizeMainKey None = "main".
Proof. reflexivity. Qed.

Lemma isIdChar_isIdCharI c : isIdChar c = true -> isIdCharI c = true.
Proof.
  unfold isIdChar, isIdCharI, isAlnumI. intros H.
  repeat (apply orb_prop in H as [H|H]); rewrite H; by rewrite ?orb_true_r.
Qed.

Lemma collapseInvalid_idChars inRun l :
  Forall (fun c => isIdChar c = true) (collapseInvalid inRun l).
Proof.
  revert inRun. induction l as [|c r IH]; intros inRun; simpl; [constructor|].
  destruct (isIdChar c) eqn:Hc; [by constructor|].
  destruct inRun; [apply IH|]. constructor; [reflexivity | apply IH].
Qed.

(** A maximal run of invalid characters becomes one dash. *)
Lemma collapseInvalid_run (valid run rest : list ascii) :
  Forall (fun c => isIdChar c = true) valid ->
  Forall (fun c => isIdChar c = false) run -> run <> [] ->
  (forall c, head rest = Some c -> isIdChar c = true) ->
  collapseInvalid false (valid ++ run ++ rest)
  = (valid ++ "-"%char :: collapseInvalid false rest)%list.
Proof.
  intros Hv Hr Hne Hrest.
  induction Hv as [|c v Hc _ IH]; simpl.
  - assert (Hgo : forall l, Forall (fun c => isIdChar c = false) l ->
        collapseInvalid true (l ++ rest) = collapseInvalid false rest).
    { induction 1 as [|c l Hc _ IH]; simpl.
      - destruct rest as [|c r]; [done|]. simpl.
        by rewrite (Hrest c eq_refl).
      - by rewrite Hc. }
    destruct Hr as [|c l Hc Hl]; [done|]. simpl. rewrite Hc.
    f_equal. by apply Hgo.
  - rewrite Hc. f_equal. exact IH.
Qed.

Lemma slugChars_idChars l : Forall (fun c => isIdChar c = true) (slugChars l).
Proof.
  unfold slugChars. apply Forall_take, Forall_dropWhileEnd, Forall_dropWhile,
    collapseInvalid_idChars.
Qed.

Lemma slugChars_length l : (length (slugChars l) <= 64)%nat.
Proof. unfold slugChars. rewrite length_take. lia. Qed.

Lemma isValidId_spec (s : string) :
  isValidId s = true ->
  s <> "" /\ (length (chars s) <= 64)%nat
  /\ Forall (fun c => isIdCharI c = true) (chars s).
Proof.
  unfold isValidId. destruct (chars s) as [|c r] eqn:Hs; [done|].
  intros H. apply andb_prop in H as [H Hlen]. apply andb_prop in H as [Hc Hr].
  split; [|split].
  - intros ->. discriminate.
  - apply Nat.leb_le in Hlen. simpl. lia.
  - constructor.
    + unfold isIdCharI. by rewrite Hc.
    + by apply forallb_true_Forall.
Qed.

(** The scenarios of the specification for the other two scopes. *)
Example per_channel_peer_scope :
  buildAgentPeerSessionKey
    {| agentId := "main"; mainKey := None; channel := "whatsapp";
       peerKind := Some Dm; peerId := Some "+1555";
       dmScope := Some ScopePerChannelPeer |}
  = "agent:main:whatsapp:dm:+1555".
Proof. reflexivity. Qed.

Example per_peer_scope :
  buildAgentPeerSessionKey
    {| agentId := "main"; mainKey := None; channel := "whatsapp";
       peerKind := Some Dm; peerId := Some "+15551234567";
       dmScope := Some ScopePerPeer |}
  = "agent:main:dm:+15551234567".
Proof. reflexivity. Qed.

Example normalizeAgentId_slug :
  normalizeAgentId (Some "  My Agent!! v2 ") = "my-agent-v2".
Proof. reflexivity. Qed.

Example isSubagentSessionKey_nested :
  isSubagentSessionKey (Some "agent:research:subagent:worker") = true
  /\ isSubagentSessionKey (Some "agent:main:main") = false.
Proof. split; reflexivity. Qed.

(** C1: with [peerKind] dm (or unset) and [dmScope] main (or unset),
    [buildAgentPeerSessionKey] returns ["agent:" ++ agentId ++ ":" ++ mainKey]
    where the main key is the configured one without the blanks around
    it, and ["main"] when none is configured or it is blank; the agent id
    is the normalised one, which is the id itself, trimmed, when that is
    a valid id, and ["main"] when it is blank. The result is the same for
    every channel and every peer id: the agent ["My Agent"] with the main
    key [" work "] has the key ["agent:my-agent:work"] whatever the
    channel and the peer. *)
Theorem C1_dm_main_scope_key
    (agent : string) (main : option string) (chan chan' : string)
    (peer peer' : option string)
    (kind : option PeerKind) (scope : option DmScope) :
  kind = Some Dm \/ kind = None ->
  scope = Some ScopeMain \/ scope = None ->
  let key :=
    buildAgentPeerSessionKey
      {| agentId := agent; mainKey := main; channel := chan;
         peerKind := kind; peerId := peer; dmScope := scope |} in
  let mainSegment :=
    if truthy (trim (default "" main)) then trim (default "" main)
    else "main" in
  key = "agent:" ++ normalizeAgentId (Some agent) ++ ":" ++ mainSegment
  /\ (isValidId (trim agent) = true ->
      key = "agent:" ++ trim agent ++ ":" ++ mainSegment)
  /\ (trim agent = "" -> key = "agent:main:" ++ mainSegment)
  /\ buildAgentPeerSessionKey
       {| agentId := agent; mainKey := main; channel := chan';
          peerKind := kind; peerId := peer'; dmScope := scope |}
     = key
  /\ buildAgentPeerSessionKey
       {| agentId := "My Agent"; mainKey := Some " work "; channel := chan;
          peerKind := kind; peerId := peer; dmScope := scope |}
     = "agent:my-agent:work".
Proof.
  intros Hkind Hscope key mainSegment.
  assert (Hkey : key = "agent:" ++ normalizeAgentId (Some agent) ++ ":"
                         ++ mainSegment).
  { subst key. by destruct Hkind as [-> | ->], Hscope as [-> | ->]. }
  split; [exact Hkey|]. split; [|split; [|split]].
  - intros Hvalid. rewrite Hkey. unfold normalizeAgentId.
    cbn [orEmpty default from_option id]. rewrite Hvalid.
    destruct (isValidId_spec _ Hvalid) as (Hne & _).
    destruct (trim agent); [done | reflexivity].
  - intros Hblank. rewrite Hkey. unfold normalizeAgentId.
    cbn [orEmpty default from_option id]. by rewrite Hblank.
  - subst key. by destruct Hkind as [-> | ->], Hscope as [-> | ->].
  - by destruct Hkind as [-> | ->], Hscope as [-> | ->].
Qed.

(** Two direct messages on WhatsApp and on Telegram from different peers,
    [dmScope] unset, agent ["main"] with the main key [" work "]. *)
Lemma C1_witness :
  buildAgentPeerSessionKey
    {| agentId := "main"; mainKey := Some " work "; channel := "whatsapp";
       peerKind := Some Dm; peerId := Some "+1555"; dmScope := None |}
  = "agent:main:work"
  /\ buildAgentPeerSessionKey
       {| agentId := "main"; mainKey := Some " work "; channel := "telegram";
          peerKind := Some Dm; peerId := Some "+1999"; dmScope := None |}
     = "agent:main:work".
Proof.
  destruct (C1_dm_main_scope_key "main" (Some " work ") "whatsapp" "telegram"
              (Some "+1555") (Some "+1999") (Some Dm) None)
    as (_ & Hvalid & _ & Hsame & _).
  - left. reflexivity.
  - right. reflexivity.
  - split; [|rewrite Hsame]; apply Hvalid; reflexivity.
Defined.

(** [runsOf] cuts a list into runs: put end to end they give the list
    back, no run is empty, [p] has the value of the run on each of its
    characters, and two neighbours have different values, so that the
    runs are maximal. *)
Lemma runsOf_spec (p : ascii -> bool) (l : list ascii) :
  concat (map snd (runsOf p l)) = l
  /\ Forall (fun run => snd run <> []
                        /\ Forall (fun c => p c = fst run) (snd run))
       (runsOf p l)
  /\ forall i run next,
       runsOf p l !! i = Some run -> runsOf p l !! S i = Some next ->
       fst run <> fst next.
Proof.
  induction l as [|c r (Hcat & Hruns & Hmax)]; simpl.
  - split; [done|]. split; [constructor|]. intros i run next H.
    destruct i; discriminate H.
  - destruct (runsOf p r) as [|[b run0] runs] eqn:Hr.
    + simpl in Hcat. subst r. split; [done|]. split.
      * repeat constructor. done.
      * intros i run next _ H. destruct i; discriminate H.
    + destruct (Bool.eqb b (p c)) eqn:Hb.
      * apply Bool.eqb_prop in Hb. subst b. simpl in *.
        split; [by rewrite Hcat|]. split.
        -- inversion Hruns as [|? ? [Hne Hall] Hrest]; subst.
           constructor; [|done]. split; [done|]. by constructor.
        -- intros i run next Hi Hnext. destruct i as [|i].
           ++ injection Hi as <-. simpl.
              by apply (Hmax 0%nat (p c, run0) next).
           ++ by apply (Hmax (S i) run next).
      * apply Bool.eqb_false_iff in Hb. simpl in *.
        split; [by rewrite Hcat|]. split.
        -- constructor; [|done]. split; [done|]. by repeat constructor.
        -- intros i run next Hi Hnext. destruct i as [|i].
           ++ injection Hi as <-. injection Hnext as <-. simpl. congruence.
           ++ by apply (Hmax i run next).
Qed.

(** The replacement of the code is the one of the specification's words:
    every maximal run of invalid characters becomes one dash. After an
    invalid character the code is inside a run, whose dash is there
    already. *)
Lemma collapseInvalid_runs (l : list ascii) :
  collapseInvalid false l = collapsedRuns l
  /\ collapseInvalid true l
     = match runsOf isIdChar l with
       | (false, _) :: runs =>
           concat (map (fun run : bool * list ascii =>
                          if fst run then snd run else ["-"%char]) runs)
       | _ => collapsedRuns l
       end.
Proof.
  unfold collapsedRuns. induction l as [|c r [IH1 IH2]]; simpl; [done|].
  destruct (isIdChar c) eqn:Hc.
  - rewrite IH1. destruct (runsOf isIdChar r) as [|[[] run0] runs]; simpl;
      rewrite ?Hc; done.
  - rewrite IH2. destruct (runsOf isIdChar r) as [|[[] run0] runs]; simpl;
      rewrite ?Hc; done.
Qed.

(** C9, as the specification states it, fails on an id that is already
    valid: ["Main"] is returned with its capital letter, which is outside
    [[a-z0-9_-]]. And a run of invalid characters at an end of the id
    leaves no dash: ["a!!"] gives ["a"]. *)
Lemma C9_counterexample :
  normalizeAgentId (Some "Main") = "Main"
  /\ forallb isIdChar (chars (normalizeAgentId (Some "Main"))) = false
  /\ toLowerCase (normalizeAgentId (Some "Main")) <> normalizeAgentId (Some "Main")
  /\ normalizeAgentId (Some "a!!") = "a".
Proof.
  split; [reflexivity|]. split; [reflexivity|].
  split; [discriminate | reflexivity].
Qed.

(** C9 (amended): the normalised agent id has at most 64 characters. A
    trimmed input that already is a valid id (it matches
    [^[a-z0-9][a-z0-9_-]{0,63}$] without regard to case) is returned as
    it is, capital letters included. Every other input gives an id
    within [[a-z0-9_-]], hence in lower case: the lower-cased input with
    every maximal run of invalid characters replaced by one ["-"], the
    dashes at both ends stripped, cut to its first 64 characters; when
    that is empty, the id is ["main"]. So ["  My Agent!! v2 "] gives
    ["my-agent-v2"], and the cut can leave a dash at the end. *)
Theorem C9_normalizeAgentId_shape (value : option string) :
  let trimmed := trim (default "" value) in
  let r := normalizeAgentId value in
  let collapsed := collapsedRuns (map lowerChar (chars trimmed)) in
  let cut :=
    take 64 (dropWhileEnd (fun c => Ascii.eqb c "-")
               (dropWhile (fun c => Ascii.eqb c "-") collapsed)) in
  (length (chars r) <= 64)%nat
  /\ (isValidId trimmed = true -> r = trimmed)
  /\ (isValidId trimmed = false ->
      Forall (fun c => isLower c || isDigit c || Ascii.eqb c "_"
                       || Ascii.eqb c "-" = true) (chars r)
      /\ toLowerCase r = r
      /\ (cut <> [] -> chars r = cut)
      /\ (cut = [] -> r = "main"))
  /\ normalizeAgentId (Some "  My Agent!! v2 ") = "my-agent-v2"
  /\ normalizeAgentId
       (Some "xxxxxxxxxxxxxxxxxxxxxxxxxxxxxxxxxxxxxxxxxxxxxxxxxxxxxxxxxxxxxxx!!yz")
     = "xxxxxxxxxxxxxxxxxxxxxxxxxxxxxxxxxxxxxxxxxxxxxxxxxxxxxxxxxxxxxxx-".
Proof.
  intros trimmed r collapsed cut.
  assert (Hcut : cut = slugChars (chars trimmed)).
  { subst cut collapsed. unfold slugChars.
    by rewrite (proj1 (collapseInvalid_runs _)). }
  assert (Hlower : forall l, Forall (fun c => isIdChar c = true) l ->
                             map lowerChar l = l).
  { intros l Hl. induction Hl as [|c l Hc _ IH]; [done|]. simpl.
    rewrite IH. f_equal. revert Hc. clear.
    destruct c as [[] [] [] [] [] [] [] []]; vm_compute; congruence. }
  split; [|split; [|split; [|split; reflexivity]]].
  - subst r. unfold normalizeAgentId.
    change (trim (orEmpty value)) with trimmed.
    destruct (truthy trimmed); simpl; [|by apply Nat.leb_le].
    destruct (isValidId trimmed) eqn:Hvalid.
    + by destruct (isValidId_spec _ Hvalid) as (_ & Hlen & _).
    + unfold orElse. destruct (truthy (slug trimmed));
        [|by apply Nat.leb_le].
      unfold slug. rewrite chars_str. apply slugChars_length.
  - intros Hvalid. subst r. unfold normalizeAgentId.
    change (trim (orEmpty value)) with trimmed.
    rewrite Hvalid. destruct (isValidId_spec _ Hvalid) as (Hne & _).
    destruct trimmed; [done | reflexivity].
  - intros Hvalid.
    assert (Hr : r = orElse (slug trimmed) "main").
    { subst r. unfold normalizeAgentId.
      change (trim (orEmpty value)) with trimmed. rewrite Hvalid.
      destruct (truthy trimmed) eqn:Ht; [done|].
      apply truthy_false_empty in Ht. by rewrite Ht. }
    assert (Hchars : Forall (fun c => isIdChar c = true) (chars r)).
    { rewrite Hr. unfold orElse. destruct (truthy (slug trimmed)).
      - unfold slug. rewrite chars_str. apply slugChars_idChars.
      - repeat constructor. }
    split; [exact Hchars|]. split; [|split].
    + unfold toLowerCase. rewrite (Hlower _ Hchars). apply str_chars.
    + intros Hne. rewrite Hr, Hcut in *. unfold orElse, slug.
      destruct (slugChars (chars trimmed)) as [|c l] eqn:E; [done|].
      simpl. by rewrite chars_str.
    + intros Hempty. rewrite Hr. unfold orElse, slug.
      by rewrite <- Hcut, Hempty.
Qed.

End SessionKeyFacts.

(** ** Model selection *)

Section ModelSelectionFacts.
Import JsString ModelSelection Samples.

Lemma addOpt_default (k : string) (s : gset string) : k ∈ addOpt (Some k) s.
Proof. unfold addOpt. set_solver. Qed.

Lemma catalogKeysOf_spec (catalog : list ModelCatalogEntry) (k : string) :
  k ∈ catalogKeysOf catalog <-> exists e, e ∈ catalog /\ entryKey e = k.
Proof.
  unfold catalogKeysOf. rewrite elem_of_list_to_set, list_elem_of_In, in_map_iff.
  split; intros (e & H1 & H2); exists e.
  - split; [by apply list_elem_of_In | done].
  - split; [done | by apply list_elem_of_In].
Qed.

Lemma addOpt_spec (o : option string) (s : gset string) (k : string) :
  k ∈ addOpt o s <-> o = Some k \/ k ∈ s.
Proof.
  unfold addOpt. destruct o as [d|].
  - rewrite elem_of_union, elem_of_singleton. split.
    + intros [->|Hk]; [by left | by right].
    + intros [[= ->]|Hk]; [by left | by right].
  - split; [by right|]. intros [Hk|Hk]; [discriminate | done].
Qed.

(** What the loop over the allow-list collects. *)
Lemma allowlist_fold_spec (defaultProvider : string) (catalogKeys : gset string)
    (raws : list string) (acc : gset string) (k : string) :
  k ∈ fold_left (allowStep defaultProvider catalogKeys) raws acc <->
  k ∈ acc
  \/ (k ∈ catalogKeys
      /\ exists raw ref, raw ∈ raws /\ parseModelRef raw defaultProvider = Some ref
                         /\ k = modelKey (provider ref) (model ref)).
Proof.
  revert acc. induction raws as [|raw raws IH]; intros acc; simpl.
  - split; [by left|]. intros [H|(_ & raw & ref & H & _)]; [done|].
    by apply elem_of_nil in H.
  - rewrite IH. unfold allowStep.
    destruct (parseModelRef raw defaultProvider) as [parsed|] eqn:Hparse.
    + destruct (decide (modelKey (provider parsed) (model parsed) ∈ catalogKeys))
        as [Hin|Hout].
      * rewrite elem_of_union, elem_of_singleton. split.
        -- intros [[->|H]|(Hk & r & ref & Hr & Hp & E)].
           ++ right. split; [done|]. exists raw, parsed.
              split; [apply elem_of_cons; by left | done].
           ++ by left.
           ++ right. split; [done|]. exists r, ref.
              split; [apply elem_of_cons; by right | done].
        -- intros [H|(Hk & r & ref & Hr & Hp & E)]; [left; by right|].
           apply elem_of_cons in Hr as [->|Hr].
           ++ left. left. congruence.
           ++ right. split; [done|]. by exists r, ref.
      * split.
        -- intros [H|(Hk & r & ref & Hr & Hp & E)]; [by left|].
           right. split; [done|]. exists r, ref.
           split; [apply elem_of_cons; by right | done].
        -- intros [H|(Hk & r & ref & Hr & Hp & E)]; [by left|].
           apply elem_of_cons in Hr as [->|Hr].
           ++ exfalso. apply Hout. congruence.
           ++ right. split; [done|]. by exists r, ref.
    + split.
      * intros [H|(Hk & r & ref & Hr & Hp & E)]; [by left|].
        right. split; [done|]. exists r, ref.
        split; [apply elem_of_cons; by right | done].
      * intros [H|(Hk & r & ref & Hr & Hp & E)]; [by left|].
        apply elem_of_cons in Hr as [->|Hr]; [congruence|].
        right. split; [done|]. by exists r, ref.
Qed.

Lemma validatedAllowlist_spec (cfg : ClawdbotConfig)
    (catalog : list ModelCatalogEntry) (defaultProvider k : string) :
  k ∈ validatedAllowlist cfg catalog defaultProvider <->
  k ∈ catalogKeysOf catalog
  /\ exists raw ref, raw ∈ rawAllowlist cfg
                     /\ parseModelRef raw defaultProvider = Some ref
                     /\ k = modelKey (provider ref) (model ref).
Proof.
  unfold validatedAllowlist. rewrite allowlist_fold_spec. split.
  - intros [H|H]; [by apply elem_of_empty in H | done].
  - by right.
Qed.

(** The two tests of [buildAllowedModelSet]. *)
Example allows_configured_default :
  let allowed := buildAllowedModelSet allowlistGpt4 (take 1 catalogOpenai)
                   "claude-cli" (Some "opus-4.5") in
  allowAny allowed = false
  /\ elements (allowedKeys allowed) = ["openai/gpt-4"; "claude-cli/opus-4.5"].
Proof. split; vm_compute; reflexivity. Qed.

Example default_without_allowlist :
  let allowed := buildAllowedModelSet noConfig (take 1 catalogOpenai)
                   "claude-cli" (Some "opus-4.5") in
  allowAny allowed = true
  /\ elements (allowedKeys allowed) = ["openai/gpt-4"; "claude-cli/opus-4.5"].
Proof. split; vm_compute; reflexivity. Qed.

Lemma defaultKeyOf_spec (defaultProvider : string) (defaultModel : option string)
    (k : string) :
  defaultKeyOf defaultProvider defaultModel = Some k <->
  exists m, defaultModel = Some m /\ trim m <> "" /\ defaultProvider <> ""
            /\ k = defaultProvider ++ "/" ++ trim m.
Proof.
  unfold defaultKeyOf, modelKey. destruct defaultModel as [m|]; simpl.
  - destruct (truthy (trim m)) eqn:Hm; destruct (truthy defaultProvider) eqn:Hp;
      simpl; split.
    + intros [= <-]. exists m.
      by rewrite <- !truthy_true_nonempty.
    + by intros (m' & [= <-] & _ & _ & ->).
    + discriminate.
    + intros (m' & [= <-] & _ & Hne & _).
      by apply truthy_true_nonempty in Hne; congruence.
    + discriminate.
    + intros (m' & [= <-] & Hne & _).
      by apply truthy_true_nonempty in Hne; congruence.
    + discriminate.
    + intros (m' & [= <-] & Hne & _).
      by apply truthy_true_nonempty in Hne; congruence.
  - split; [discriminate|]. by intros (m & [=] & _).
Qed.

Lemma filter_none {A : Type} (f : A -> bool) (l : list A) :
  List.filter f l = [] <-> forall x, x ∈ l -> f x = false.
Proof.
  induction l as [|a l IH]; simpl.
  - split; [|done]. intros _ x Hx. by apply elem_of_nil in Hx.
  - destruct (f a) eqn:Ha; split.
    + discriminate.
    + intros H. specialize (H a ltac:(apply elem_of_cons; by left)). congruence.
    + intros E x Hx. apply elem_of_cons in Hx as [->|Hx]; [done|].
      by apply IH.
    + intros H. apply IH. intros x Hx. apply H, elem_of_cons. by right.
Qed.

(** The keys that are allowed when the allow-list restricts: the default's
    key, and the keys of the allow-list that the catalog holds. *)
Lemma restricted_keys_spec (cfg : ClawdbotConfig)
    (catalog : list ModelCatalogEntry) (defaultProvider : string)
    (defaultModel : option string) (k : string) :
  k ∈ addOpt (defaultKeyOf defaultProvider defaultModel)
        (validatedAllowlist cfg catalog defaultProvider) <->
  (exists m, defaultModel = Some m /\ trim m <> "" /\ defaultProvider <> ""
             /\ k = defaultProvider ++ "/" ++ trim m)
  \/ ((exists e, e ∈ catalog /\ entryProvider e ++ "/" ++ entryId e = k)
      /\ exists raw ref, raw ∈ map fst (agentModels cfg)
           /\ parseModelRef raw defaultProvider = Some ref
           /\ k = provider ref ++ "/" ++ model ref).
Proof.
  rewrite addOpt_spec, defaultKeyOf_spec, validatedAllowlist_spec,
    catalogKeysOf_spec. reflexivity.
Qed.

(** C5: the key [provider/model] of a configured default model (a
    non-blank model, a non-empty provider) is in the allowed set that
    [buildAllowedModelSet] returns, whatever the allow-list and the catalog
    hold. When the allow-list is empty, or no entry of the catalog is the
    default or a model that an entry of the allow-list parses to, the
    function fails open: [allowAny] is true, the whole catalog is allowed,
    and the allowed keys are the default's and the catalog's. Otherwise
    [allowAny] is false, the allowed catalog is not empty and holds exactly
    the catalog entries that are the default or on the allow-list. With
    the allow-list [openai/gpt-4] and the default [claude-cli/opus-4.5] the
    set holds both keys and not [openai/gpt-3.5]; with the same allow-list
    and a catalog that holds [openai/gpt-3.5] only, it fails open. *)
Theorem C5_default_allowed_and_fail_open
    (cfg : ClawdbotConfig) (catalog : list ModelCatalogEntry)
    (defaultProvider : string) (defaultModel : option string) :
  let r := buildAllowedModelSet cfg catalog defaultProvider defaultModel in
  let isDefault (k : string) :=
    exists m, defaultModel = Some m /\ trim m <> "" /\ defaultProvider <> ""
              /\ k = defaultProvider ++ "/" ++ trim m in
  let listed (k : string) :=
    exists raw ref, raw ∈ map fst (agentModels cfg)
      /\ parseModelRef raw defaultProvider = Some ref
      /\ k = provider ref ++ "/" ++ model ref in
  let inCatalog (k : string) :=
    exists e, e ∈ catalog /\ entryProvider e ++ "/" ++ entryId e = k in
  let keyOf (e : ModelCatalogEntry) := entryProvider e ++ "/" ++ entryId e in
  (forall k, isDefault k -> k ∈ allowedKeys r)
  /\ (agentModels cfg = []
      \/ (forall e, e ∈ catalog -> ~ (isDefault (keyOf e) \/ listed (keyOf e))) ->
      allowAny r = true /\ allowedCatalog r = catalog
      /\ forall k, k ∈ allowedKeys r <-> isDefault k \/ inCatalog k)
  /\ (agentModels cfg <> []
      /\ (exists e, e ∈ catalog /\ (isDefault (keyOf e) \/ listed (keyOf e))) ->
      allowAny r = false /\ allowedCatalog r <> []
      /\ (forall e, e ∈ allowedCatalog r <->
            e ∈ catalog /\ (isDefault (keyOf e) \/ listed (keyOf e)))
      /\ forall k, k ∈ allowedKeys r <-> isDefault k \/ (inCatalog k /\ listed k))
  /\ (let e := buildAllowedModelSet allowlistGpt4 catalogOpenai
                 "claude-cli" (Some "opus-4.5") in
      allowAny e = false
      /\ "openai/gpt-4" ∈ allowedKeys e
      /\ "claude-cli/opus-4.5" ∈ allowedKeys e
      /\ ("openai/gpt-3.5" ∉ allowedKeys e)
      /\ map entryId (allowedCatalog e) = ["gpt-4"])
  /\ (let o := buildAllowedModelSet allowlistGpt4 (drop 1 catalogOpenai)
                 "claude-cli" (Some "opus-4.5") in
      allowAny o = true
      /\ map entryId (allowedCatalog o) = ["gpt-3.5"]
      /\ "openai/gpt-3.5" ∈ allowedKeys o).
Proof.
  intros r isDefault listed inCatalog keyOf.
  assert (Hentry : forall e, e ∈ catalog ->
            (inSet (addOpt (defaultKeyOf defaultProvider defaultModel)
                      (validatedAllowlist cfg catalog defaultProvider)) e = true
             <-> isDefault (keyOf e) \/ listed (keyOf e))).
  { intros e He. unfold inSet. rewrite bool_decide_eq_true.
    change (entryKey e) with (keyOf e). rewrite restricted_keys_spec.
    fold (isDefault (keyOf e)) (listed (keyOf e)) (inCatalog (keyOf e)).
    split; [tauto|]. intros [H|H]; [by left|]. right. split; [|done].
    by exists e. }
  assert (Hopenkeys : forall k,
            k ∈ addOpt (defaultKeyOf defaultProvider defaultModel)
                  (catalogKeysOf catalog) <-> isDefault k \/ inCatalog k).
  { intros k. rewrite addOpt_spec, defaultKeyOf_spec, catalogKeysOf_spec.
    reflexivity. }
  assert (Hlen : (length (rawAllowlist cfg) =? 0)%nat = true
                 <-> agentModels cfg = []).
  { unfold rawAllowlist. rewrite Nat.eqb_eq, length_map.
    by destruct (agentModels cfg). }
  subst r. unfold buildAllowedModelSet.
  set (keys := addOpt (defaultKeyOf defaultProvider defaultModel)
                 (validatedAllowlist cfg catalog defaultProvider)) in *.
  split; [|split; [|split; [|split]]].
  - intros k Hk. apply defaultKeyOf_spec in Hk. subst keys. rewrite Hk.
    destruct (length (rawAllowlist cfg) =? 0)%nat; simpl;
      [apply addOpt_default|].
    match goal with |- context [(length ?l =? 0)%nat] =>
      destruct (length l =? 0)%nat end; simpl; apply addOpt_default.
  - intros Hopen.
    destruct (length (rawAllowlist cfg) =? 0)%nat eqn:Hraw; simpl; [done|].
    assert (Hnone : List.filter (inSet keys) catalog = []).
    { apply filter_none. intros e He.
      destruct Hopen as [Hnil|Hnone].
      - by apply Hlen in Hnil.
      - apply not_true_is_false. intros Hin. apply (Hnone e He).
        by apply Hentry. }
    rewrite Hnone. simpl. done.
  - intros (Hcfg & e & He & Hallowed).
    destruct (length (rawAllowlist cfg) =? 0)%nat eqn:Hraw; simpl.
    { exfalso. by apply Hcfg, Hlen. }
    assert (Hin : e ∈ List.filter (inSet keys) catalog).
    { apply list_elem_of_In, filter_In. split; [by apply list_elem_of_In|].
      by apply Hentry. }
    destruct (List.filter (inSet keys) catalog) as [|a l] eqn:Hfilter.
    { by apply elem_of_nil in Hin. }
    simpl. split; [done|]. split; [done|]. split.
    + intros x. rewrite <- Hfilter. rewrite list_elem_of_In, filter_In,
        <- list_elem_of_In. split.
      * intros [Hx Hk]. split; [done|]. by apply Hentry.
      * intros [Hx Hk]. split; [done|]. by apply Hentry.
    + intros k. unfold keys. rewrite restricted_keys_spec. reflexivity.
  - split; [reflexivity|]. split; [|split; [|split]].
    + refine (bool_decide_unpack _ _). vm_compute. exact I.
    + refine (bool_decide_unpack _ _). vm_compute. exact I.
    + intros H. apply (bool_decide_pack _) in H. vm_compute in H. exact H.
    + reflexivity.
  - split; [reflexivity|]. split; [reflexivity|].
    refine (bool_decide_unpack _ _). vm_compute. exact I.
Qed.

(** The allow-list [openai/gpt-4] against a catalog that holds
    [openai/gpt-3.5] only, the default being [claude-cli/opus-4.5]: no
    entry of the catalog is allowed, so the set fails open, and the
    default's key is allowed all the same. *)
Lemma C5_witness :
  let r := buildAllowedModelSet allowlistGpt4 (drop 1 catalogOpenai)
             "claude-cli" (Some "opus-4.5") in
  "claude-cli/opus-4.5" ∈ allowedKeys r
  /\ allowAny r = true
  /\ allowedCatalog r = drop 1 catalogOpenai.
Proof.
  destruct (C5_default_allowed_and_fail_open allowlistGpt4
              (drop 1 catalogOpenai) "claude-cli" (Some "opus-4.5"))
    as (Hdefault & Hopen & _).
  split.
  - apply Hdefault. exists "opus-4.5". repeat split; discriminate.
  - assert (H : allowAny (buildAllowedModelSet allowlistGpt4
                            (drop 1 catalogOpenai) "claude-cli"
                            (Some "opus-4.5")) = true
                /\ allowedCatalog (buildAllowedModelSet allowlistGpt4
                            (drop 1 catalogOpenai) "claude-cli"
                            (Some "opus-4.5")) = drop 1 catalogOpenai
                /\ _) by (apply Hopen; right; intros e He;
                   apply list_elem_of_singleton in He; subst e;
                   intros [(m & [= <-] & _ & _ & E)|(raw & ref & Hraw & Hp & E)];
                   [discriminate E|];
                   apply list_elem_of_singleton in Hraw; subst raw;
                   vm_compute in Hp; injection Hp as <-; discriminate E).
    destruct H as (H1 & H2 & _). by split.
Defined.

End ModelSelectionFacts.

(** ** Cron schedules *)

Section CronScheduleFacts.
Import CronSchedule.
Open Scope Z_scope.

(** [ceilDiv a b] is the ceiling of [a / b]. *)
Lemma ceilDiv_spec (a b : Z) :
  0 < b -> (ceilDiv a b - 1) * b < a <= ceilDiv a b * b.
Proof.
  intros Hb. unfold ceilDiv.
  pose proof (Z.div_mod (- a) b ltac:(lia)) as Hdm.
  pose proof (Z.mod_pos_bound (- a) b Hb) as Hm. nia.
Qed.

Lemma floor_plus_is_ceil (a b : Z) :
  0 < b -> (a + b - 1) / b = ceilDiv a b.
Proof.
  intros Hb. pose proof (ceilDiv_spec a b Hb) as Hc.
  symmetry. apply (Z.div_unique_pos _ _ _ (a + b - 1 - b * ceilDiv a b)); nia.
Qed.

(** C6, as the specification states it, fails when the clock is exactly at
    the anchor: the formula gives the anchor itself, the code the anchor
    plus one interval. *)
Lemma C6_counterexample :
  computeNextRunAtMs (fun _ => None) (fun _ _ _ => None) "UTC"
    (SchedEvery 1000 (Some 0)) 0 = Some 1000
  /\ everyFormula 0 1000 0 = 0
  /\ computeNextRunAtMs (fun _ => None) (fun _ _ _ => None) "UTC"
       (SchedEvery 1000 (Some 0)) 0 <> Some (everyFormula 0 1000 0).
Proof. split; [reflexivity|]. split; [reflexivity | discriminate]. Qed.

(** C6 (amended): for an [every] schedule, with the interval
    [max(1, everyMs)] and the anchor [max(0, anchorMs ?? now)],
    [computeNextRunAtMs] returns the anchor when the clock is before it,
    the anchor plus one interval when the clock is exactly at it, and
    [anchor + ceil((now - anchor) / interval) * interval] when the clock is
    past it; with anchor 0, interval 1000 and clock 2500 that is 3000. *)
Theorem C6_every_next_run
    (parseAbsoluteTimeMs : string -> option Z)
    (cronNextRun : string -> string -> Z -> option Z) (hostTimeZone : string)
    (everyMs : Z) (anchorMs : option Z) (nowMs : Z) :
  let interval := Z.max 1 everyMs in
  let anchor := Z.max 0 (default nowMs anchorMs) in
  computeNextRunAtMs parseAbsoluteTimeMs cronNextRun hostTimeZone
    (SchedEvery everyMs anchorMs) nowMs
  = Some (if nowMs <? anchor then anchor
          else if nowMs =? anchor then anchor + interval
          else everyFormula anchor interval nowMs)
  /\ computeNextRunAtMs parseAbsoluteTimeMs cronNextRun hostTimeZone
       (SchedEvery 1000 (Some 0)) 2500 = Some 3000.
Proof.
  intros interval anchor. split; [|reflexivity].
  unfold computeNextRunAtMs. fold interval anchor.
  destruct (nowMs <? anchor) eqn:Hlt; [reflexivity|].
  apply Z.ltb_ge in Hlt. f_equal.
  assert (Hi : 0 < interval) by (unfold interval; lia).
  destruct (nowMs =? anchor) eqn:Heq.
  - apply Z.eqb_eq in Heq. rewrite Heq, Z.sub_diag.
    replace (0 + interval - 1) with (interval - 1) by lia.
    rewrite Z.div_small by lia. lia.
  - apply Z.eqb_neq in Heq. unfold everyFormula.
    rewrite floor_plus_is_ceil by exact Hi.
    pose proof (ceilDiv_spec (nowMs - anchor) interval Hi) as Hc.
    assert (1 <= ceilDiv (nowMs - anchor) interval) by nia.
    rewrite Z.max_r by lia. reflexivity.
Qed.

End CronScheduleFacts.

(** ** The cron timer *)

Section CronTimerFacts.
Import CronTimer.
Open Scope Z_scope.

Lemma withRefs_lookup (js : list CronJob) (i : nat) (j : CronJob) :
  In (i, j) (withRefs js) <-> js !! i = Some j.
Proof.
  unfold withRefs. rewrite <- list_elem_of_In, elem_of_lookup_imap. split.
  - intros (i' & j' & E & Hl). by inversion E; subst.
  - intros Hl. by exists i, j.
Qed.

Lemma findDueJobs_spec (st : CronServiceState) (now : Z) (i : nat) (j : CronJob) :
  In (i, j) (findDueJobs st now)
  <-> exists s, store st = Some s /\ jobs s !! i = Some j /\ isDue now j = true.
Proof.
  unfold findDueJobs. destruct (store st) as [s|]; simpl.
  - rewrite filter_In, withRefs_lookup. simpl. split.
    + intros [Hl Hd]. by exists s.
    + intros (s' & E & Hl & Hd). by inversion E; subst.
  - split; [done|]. intros (s & E & _). discriminate.
Qed.

Lemma isDue_spec (now : Z) (j : CronJob) :
  isDue now j = true
  <-> enabled j = true /\ runningAtMs (state j) = None
      /\ exists next, nextRunAtMs (state j) = Some next /\ next <= now.
Proof.
  unfold isDue.
  destruct (enabled j), (runningAtMs (state j)) as [t|],
    (nextRunAtMs (state j)) as [next|]; cbn;
    try (split; [discriminate | intros (? & ? & ? & ? & ?); discriminate]).
  rewrite Z.leb_le. split.
  - intros H. repeat split; eauto.
  - intros (_ & _ & n & E & H). by inversion E; subst.
Qed.

Lemma markAll_length now due js : length (markAll now due js) = length js.
Proof.
  unfold markAll. revert js.
  induction due as [|rj due IH]; intros js; simpl; [done|].
  rewrite IH. apply length_alter.
Qed.

Lemma markRunning_idem now j :
  markRunning now (markRunning now j) = markRunning now j.
Proof. reflexivity. Qed.

(** The store after the loop: the jobs that [due] refers to are marked
    running, the others are as they were. *)
Lemma markAll_lookup now due js i :
  markAll now due js !! i
  = if decide (i ∈ due.*1) then markRunning now <$> js !! i else js !! i.
Proof.
  unfold markAll. revert js.
  induction due as [|[r jr] due IH]; intros js.
  - cbn [fold_left fmap list_fmap]. case_decide as H; [|done].
    by apply elem_of_nil in H.
  - cbn [fold_left fst]. rewrite IH, fmap_cons. cbn [fst].
    destruct (decide (i = r)) as [->|Hne].
    + rewrite list_lookup_alter_eq.
      rewrite (decide_True (P := r ∈ r :: due.*1)) by apply list_elem_of_here.
      case_decide; [|done].
      destruct (js !! r); simpl; [by rewrite markRunning_idem | done].
    + rewrite list_lookup_alter_ne by done.
      repeat case_decide; try done.
      * exfalso. match goal with H : ¬ _ |- _ => apply H end.
        by apply list_elem_of_further.
      * exfalso. match goal with H : _ ∈ _ :: _ |- _ =>
          apply elem_of_cons in H as [?|?] end; done.
Qed.

(** A tick that finds another tick at work claims nothing. *)
Lemma onTimerClaim_busy recomputeNextRuns st nowDue nowMark :
  running st = true ->
  onTimerClaim recomputeNextRuns st nowDue nowMark = (st, []).
Proof. intros Hbusy. unfold onTimerClaim. by rewrite Hbusy. Qed.

(** C7: a job is in the due set only if it is enabled, its [runningAtMs]
    is not set and its [nextRunAtMs] is a number that is not after the
    clock; and once a tick has claimed the job (marked it running and
    persisted the store), no later computation of the due set on that store
    selects the job object again, whatever the clock says. *)
Theorem C7_running_job_not_due
    (recomputeNextRuns : list CronJob -> list CronJob)
    (st : CronServiceState) (now : Z) (ref : nat) (j : CronJob) :
  In (ref, j) (findDueJobs st now) ->
  running st = false ->
  (enabled j = true /\ runningAtMs (state j) = None
   /\ exists next, nextRunAtMs (state j) = Some next /\ next <= now)
  /\ forall nowMark now' j',
       let claimed := onTimerClaim recomputeNextRuns st now nowMark in
       In (ref, markRunning nowMark j) (snd claimed)
       /\ ~ In (ref, j') (findDueJobs (fst claimed) now').
Proof.
  intros Hdue Hidle.
  pose proof Hdue as Hdue'.
  apply findDueJobs_spec in Hdue' as (s & Hs & Hl & Hd).
  split; [by apply isDue_spec|].
  intros nowMark now' j' claimed. subst claimed.
  unfold onTimerClaim. rewrite Hidle, Hs.
  destruct (length (findDueJobs st now) =? 0)%nat eqn:Hlen.
  { apply Nat.eqb_eq in Hlen. destruct (findDueJobs st now); [done | discriminate]. }
  simpl.
  assert (Href : ref ∈ (findDueJobs st now).*1).
  { apply list_elem_of_fmap. exists (ref, j). split; [done|].
    by apply list_elem_of_In. }
  assert (Hjm : markAll nowMark (findDueJobs st now) (jobs s) !! ref
                = Some (markRunning nowMark j)).
  { rewrite markAll_lookup, decide_True by exact Href. by rewrite Hl. }
  split.
  - apply list_elem_of_In, list_elem_of_omap. exists (ref, j).
    split; [by apply list_elem_of_In|]. simpl. by rewrite Hjm.
  - intros Hin. apply findDueJobs_spec in Hin as (s' & Hs' & Hl' & Hd').
    simpl in Hs'. inversion Hs'; subst s'. simpl in Hl'.
    apply isDue_spec in Hd' as (_ & Hnone & _).
    rewrite Hjm in Hl'. inversion Hl'; subst j'. discriminate.
Qed.

(** A tick at 1500 claims the job; a tick at 2600 that starts while the
    job is still marked running does not find it due. *)
Lemma C7_witness :
  In (0%nat, markRunning 1500 Samples.everySecond)
     (snd (onTimerClaim (fun js => js) Samples.idleCron 1500 1500))
  /\ ~ In (0%nat, markRunning 1500 Samples.everySecond)
         (findDueJobs
            (fst (onTimerClaim (fun js => js) Samples.idleCron 1500 1500))
            2600).
Proof.
  destruct (C7_running_job_not_due (fun js => js) Samples.idleCron 1500 0
              Samples.everySecond) as [_ Hlater].
  - simpl. left. reflexivity.
  - reflexivity.
  - exact (Hlater 1500 2600 (markRunning 1500 Samples.everySecond)).
Defined.

End CronTimerFacts.

(** ** Streamed block replies *)

Section ReplyAgentFacts.
Import ReplyAgent.
Open Scope Z_scope.

Variable blockStreamingEnabled hasOnBlockReply : bool.
Variable optsBlockReplyTimeoutMs : option Z.
Variable prepareBlock : ReplyPayload -> option ReplyPayload.

Local Abbreviation timeoutMs := (blockReplyTimeoutMs optsBlockReplyTimeoutMs).
Local Abbreviation step1 :=
  (step blockStreamingEnabled hasOnBlockReply optsBlockReplyTimeoutMs prepareBlock).
Local Abbreviation runAll :=
  (run blockStreamingEnabled hasOnBlockReply optsBlockReplyTimeoutMs prepareBlock).

Lemma default_block_reply_timeout : blockReplyTimeoutMs None = 15000.
Proof. reflexivity. Qed.


(** Once streaming is aborted and no delivery is awaited, nothing that
    happens later calls [opts.onBlockReply] or records a streamed block. *)
Lemma step_after_abort (s : RunState) (e : Event) :
  blockReplyAborted s = true -> inFlight s = None ->
  blockReplyAborted (step1 s e) = true
  /\ inFlight (step1 s e) = None
  /\ delivered (step1 s e) = delivered s
  /\ streamedPayloadKeys (step1 s e) = streamedPayloadKeys s
  /\ didStreamBlockReply (step1 s e) = didStreamBlockReply s.
Proof.
  intros Hab Hin. destruct e as [payload | | d]; simpl.
  - unfold onBlockReply.
    destruct (negb (blockStreamingEnabled && hasOnBlockReply)); [done|].
    destruct (prepareBlock payload) as [bp|]; [|done].
    destruct (bool_decide _ || bool_decide _); [done|].
    by rewrite Hab.
  - unfold linkStart. rewrite Hin.
    destruct (chain s) as [|bp rest]; [done|]. by rewrite Hab.
  - unfold linkSettle. by rewrite Hin.
Qed.

Lemma run_after_abort (events : list Event) (s : RunState) :
  blockReplyAborted s = true -> inFlight s = None ->
  blockReplyAborted (runAll events s) = true
  /\ delivered (runAll events s) = delivered s
  /\ streamedPayloadKeys (runAll events s) = streamedPayloadKeys s
  /\ didStreamBlockReply (runAll events s) = didStreamBlockReply s.
Proof.
  unfold run. revert s.
  induction events as [|e events IH]; intros s Hab Hin; simpl; [done|].
  destruct (step_after_abort s e Hab Hin) as (Hab' & Hin' & Hd & Hs & Hds).
  destruct (IH _ Hab' Hin') as (? & ? & ? & ?).
  repeat split; congruence.
Qed.

(** Streaming is never aborted while a delivery is awaited. *)
Lemma idle_when_aborted_step (s : RunState) (e : Event) :
  (blockReplyAborted s = true -> inFlight s = None) ->
  blockReplyAborted (step1 s e) = true -> inFlight (step1 s e) = None.
Proof.
  intros Hs. destruct e as [payload | | d]; simpl.
  - unfold onBlockReply.
    destruct (negb (blockStreamingEnabled && hasOnBlockReply)); [done|].
    destruct (prepareBlock payload) as [bp|]; [|done].
    destruct (bool_decide _ || bool_decide _); [done|].
    destruct (blockReplyAborted s) eqn:Hab; [intros _; by apply Hs|].
    simpl. intros Habsurd. congruence.
  - unfold linkStart. destruct (inFlight s) as [bp|] eqn:Hin.
    { rewrite Hin. exact Hs. }
    destruct (chain s) as [|bp rest]; [by rewrite Hin|].
    destruct (blockReplyAborted s) eqn:Hab; simpl; [done|].
    intros Habsurd. congruence.
  - unfold linkSettle. destruct (inFlight s) as [bp|] eqn:Hin;
      [|by rewrite Hin].
    destruct (withTimeout _ d); simpl; try done.
    rewrite Hin. exact Hs.
Qed.

Lemma idle_when_aborted_run (events : list Event) (s : RunState) :
  (blockReplyAborted s = true -> inFlight s = None) ->
  blockReplyAborted (runAll events s) = true -> inFlight (runAll events s) = None.
Proof.
  unfold run. revert s.
  induction events as [|e events IH]; intros s Hs; simpl; [done|].
  apply IH. by apply idle_when_aborted_step.
Qed.

(** In a run that starts from [initialRun]: once streaming is aborted,
    the calls of [opts.onBlockReply] made so far are all there will be. *)
Lemma no_delivery_after_abort (before after : list Event) :
  blockReplyAborted (runAll before initialRun) = true ->
  delivered (runAll (before ++ after) initialRun)
  = delivered (runAll before initialRun).
Proof.
  intros Hab. unfold run. rewrite fold_left_app.
  apply (run_after_abort after _ Hab).
  apply idle_when_aborted_run; [discriminate | exact Hab].
Qed.

Lemma wellQueued_initial : wellQueued initialRun.
Proof.
  unfold wellQueued, awaiting. simpl. split; [constructor|].
  split; [intros p Hp; by apply elem_of_nil in Hp|].
  split; [done|]. intros k Hk. by apply elem_of_empty in Hk.
Qed.

Lemma onBlockReply_wellQueued (s : RunState) (payload : ReplyPayload) :
  wellQueued s -> wellQueued (onBlockReply blockStreamingEnabled hasOnBlockReply prepareBlock s payload).
Proof.
  intros Hs. unfold onBlockReply.
  destruct (negb (blockStreamingEnabled && hasOnBlockReply)); [done|].
  destruct (prepareBlock payload) as [bp|]; [|done].
  destruct (bool_decide (buildPayloadKey bp ∈ streamedPayloadKeys s))
    eqn:Hstreamed; simpl; [done|].
  destruct (bool_decide (buildPayloadKey bp ∈ pendingStreamedPayloadKeys s))
    eqn:Hpending; simpl; [done|].
  destruct (blockReplyAborted s); [done|].
  apply bool_decide_eq_false in Hstreamed, Hpending.
  destruct Hs as (Hnodup & Hkeys & Hflight & Hsent).
  unfold wellQueued, awaiting in *. simpl. rewrite app_assoc.
  split; [|split; [|split]]; try done.
  - rewrite map_app. apply NoDup_app. split; [done|]. split.
    + intros k Hk Hbp. apply list_elem_of_singleton in Hbp. subst k.
      apply list_elem_of_fmap in Hk as (p & Hp & Hin).
      apply Hpending. rewrite Hp. by apply Hkeys.
    + apply NoDup_singleton.
  - intros p Hp. apply elem_of_app in Hp as [Hp|Hp].
    + destruct (Hkeys p Hp) as [H1 H2]. split; [|done].
      apply elem_of_union. by right.
    + apply list_elem_of_singleton in Hp. subst p. split; [|done].
      apply elem_of_union. left. by apply elem_of_singleton.
Qed.

Lemma linkStart_wellQueued (s : RunState) :
  wellQueued s -> wellQueued (linkStart s).
Proof.
  intros Hs. unfold linkStart.
  destruct (inFlight s) as [current|] eqn:Hcurrent; [done|].
  destruct (chain s) as [|bp rest] eqn:Hchain; [done|].
  destruct Hs as (Hnodup & Hkeys & Hflight & Hsent).
  unfold wellQueued, awaiting in *. rewrite Hcurrent, Hchain in *.
  simpl in *. apply NoDup_cons in Hnodup as [Hbp Hnodup].
  destruct (blockReplyAborted s); simpl.
  - split; [done|]. split; [|split]; try done.
    intros p Hp. destruct (Hkeys p) as [H1 H2];
      [apply elem_of_cons; by right|].
    split; [|done]. apply elem_of_difference. split; [done|].
    intros E. apply elem_of_singleton in E. apply Hbp. rewrite <- E.
    apply list_elem_of_fmap. by exists p.
  - split; [by apply NoDup_cons|]. split; [done|]. split.
    + intros p [= <-]. apply elem_of_app. right. by apply list_elem_of_singleton.
    + intros k Hk. destruct (Hsent k Hk) as (p & Hp & E).
      exists p. split; [|done]. apply elem_of_app. by left.
Qed.

Lemma linkSettle_wellQueued (s : RunState) (d : Delivery) :
  wellQueued s -> wellQueued (linkSettle optsBlockReplyTimeoutMs s d).
Proof.
  intros Hs. unfold linkSettle.
  destruct (inFlight s) as [bp|] eqn:Hcurrent; [|done].
  destruct Hs as (Hnodup & Hkeys & Hflight & Hsent).
  unfold wellQueued, awaiting in *. rewrite Hcurrent in *.
  simpl in *. apply NoDup_cons in Hnodup as [Hbp Hnodup].
  assert (Hrest : forall p, p ∈ chain s ->
            buildPayloadKey p
              ∈ pendingStreamedPayloadKeys s ∖ {[ buildPayloadKey bp ]}
            /\ (buildPayloadKey p ∉ streamedPayloadKeys s)
            /\ buildPayloadKey p <> buildPayloadKey bp).
  { intros p Hp. destruct (Hkeys p) as [H1 H2];
      [apply elem_of_cons; by right|].
    assert (Hne : buildPayloadKey p <> buildPayloadKey bp).
    { intros E. apply Hbp. rewrite <- E. apply list_elem_of_fmap. by exists p. }
    split; [|done]. apply elem_of_difference. split; [done|].
    intros E. by apply elem_of_singleton in E. }
  destruct (withTimeout _ d); simpl.
  - split; [done|]. split; [|split]; try done.
    + intros p Hp. destruct (Hrest p Hp) as (H1 & H2 & H3). split; [done|].
      intros E. apply elem_of_union in E as [E|E]; [|done].
      by apply elem_of_singleton in E.
    + intros k Hk. apply elem_of_union in Hk as [Hk|Hk]; [|by apply Hsent].
      apply elem_of_singleton in Hk. subst k. exists bp.
      split; [by apply Hflight | done].
  - split; [done|]. split; [|split]; try done.
    intros p Hp. destruct (Hrest p Hp) as (H1 & H2 & H3). done.
  - split; [done|]. split; [|split]; try done.
    intros p Hp. destruct (Hrest p Hp) as (H1 & H2 & H3). done.
  - rewrite Hcurrent. simpl. split; [by apply NoDup_cons|]. done.
Qed.

Lemma step_wellQueued (s : RunState) (e : Event) :
  wellQueued s -> wellQueued (step1 s e).
Proof.
  destruct e; simpl.
  - apply onBlockReply_wellQueued.
  - apply linkStart_wellQueued.
  - apply linkSettle_wellQueued.
Qed.

Lemma run_wellQueued (events : list Event) (s : RunState) :
  wellQueued s -> wellQueued (runAll events s).
Proof.
  revert s. induction events as [|e events IH]; intros s Hs; [done|].
  simpl. apply IH. by apply step_wellQueued.
Qed.





End ReplyAgentFacts.



(** ** Sanitising the host environment *)

Section HostEnvFacts.
Import JsString HostEnv.

Variable blockedKeys blockedPrefixes : list string.
Variable processEnv : list (string * option string).

Local Abbreviation dangerous :=
  (isDangerousHostEnvVarName blockedKeys blockedPrefixes).
Local Abbreviation sanitize :=
  (sanitizeHostExecEnv blockedKeys blockedPrefixes processEnv).
Local Abbreviation safe := (allSafe blockedKeys blockedPrefixes).

Ltac each_ascii c := destruct c as [[] [] [] [] [] [] [] []].

(** The tests of [isDangerousHostEnvVarName] and [sanitizeHostExecEnv]. *)
Example dangerous_names :
  let test := isDangerousHostEnvVarName Samples.policyKeys Samples.policyPrefixes in
  map test ["BASH_ENV"; "bash_env"; "DYLD_INSERT_LIBRARIES"; "ld_preload";
            "BASH_FUNC_echo%%"; "PATH"; "FOO"]
  = [true; true; true; true; true; false; false].
Proof. vm_compute. reflexivity. Qed.

Example blocks_path_and_dangerous_overrides :
  let env := sanitizeHostExecEnv Samples.policyKeys Samples.policyPrefixes []
               (Some Samples.baseEnvOfTest) (Some Samples.overridesOfTest) None in
  env !! "PATH" = Some "/usr/bin:/bin" /\ env !! "BASH_ENV" = None
  /\ env !! "SAFE" = Some "ok" /\ env !! "HOME" = Some "/tmp/home"
  /\ env !! " BAD KEY" = None /\ env !! "NOT-PORTABLE" = None.
Proof. repeat split; vm_compute; reflexivity. Qed.

Lemma isKeyChar_not_space c : isKeyChar c = true -> isWhiteSpace c = false.
Proof. each_ascii c; vm_compute; congruence. Qed.

Lemma isKeyChar_upper c : isKeyChar c = true -> isKeyChar (upperChar c) = true.
Proof. each_ascii c; vm_compute; congruence. Qed.

Lemma upperChar_idem c : upperChar (upperChar c) = upperChar c.
Proof. each_ascii c; reflexivity. Qed.

Lemma portable_keyChars (key : string) :
  PORTABLE_ENV_VAR_KEY key = true ->
  key <> "" /\ Forall (fun c => isKeyChar c = true) (chars key).
Proof.
  unfold PORTABLE_ENV_VAR_KEY. destruct (chars key) as [|c r] eqn:Hk; [done|].
  intros H. apply andb_prop in H as [Hc Hr]. split.
  - intros ->. discriminate.
  - constructor; [unfold isKeyChar; by rewrite Hc | by apply forallb_true_Forall].
Qed.

Lemma toUpperCase_idem (s : string) : toUpperCase (toUpperCase s) = toUpperCase s.
Proof.
  unfold toUpperCase. rewrite chars_str, map_map. f_equal.
  apply map_ext. intros c. apply upperChar_idem.
Qed.

Lemma toUpperCase_nonempty (s : string) : s <> "" -> toUpperCase s <> "".
Proof. destruct s; [done|]. discriminate. Qed.

(** The key the sanitiser stores is what [normalizeEnvVarKey] returns. *)
Lemma normalizeEnvVarKey_portable rawKey key :
  normalizeEnvVarKey rawKey true = Some key -> PORTABLE_ENV_VAR_KEY key = true.
Proof.
  unfold normalizeEnvVarKey. destruct (negb (truthy (trim rawKey))); [done|].
  simpl. destruct (PORTABLE_ENV_VAR_KEY (trim rawKey)) eqn:Hp; simpl; [|done].
  intros E. by inversion E; subst.
Qed.

Lemma normalizeEnvVarKey_clean (key : string) :
  key <> "" -> Forall (fun c => isKeyChar c = true) (chars key) ->
  normalizeEnvVarKey key false = Some key.
Proof.
  intros Hne Hall. unfold normalizeEnvVarKey.
  rewrite trim_none.
  - destruct key; [done | reflexivity].
  - eapply Forall_impl; [exact Hall|]. apply isKeyChar_not_space.
Qed.

(** On a portable key the test does not depend on the letter case. *)
Lemma dangerous_upper (key : string) :
  PORTABLE_ENV_VAR_KEY key = true ->
  dangerous (toUpperCase key) = dangerous key.
Proof.
  intros Hp. destruct (portable_keyChars key Hp) as [Hne Hall].
  unfold isDangerousHostEnvVarName.
  rewrite (normalizeEnvVarKey_clean key Hne Hall).
  rewrite (normalizeEnvVarKey_clean (toUpperCase key)).
  - by rewrite toUpperCase_idem.
  - by apply toUpperCase_nonempty.
  - unfold toUpperCase. rewrite chars_str. apply Forall_map.
    eapply Forall_impl; [exact Hall|]. apply isKeyChar_upper.
Qed.

Lemma assign_safe key value merged :
  dangerous key = false -> safe merged -> safe (assign key value merged).
Proof.
  intros Hk Hm. unfold assign. destruct (String.eqb key "__proto__"); [done|].
  intros k v. destruct (decide (key = k)) as [->|Hne].
  - done.
  - rewrite lookup_insert_ne by done. apply Hm.
Qed.

Lemma baseStep_safe merged entry :
  safe merged -> safe (baseStep blockedKeys blockedPrefixes merged entry).
Proof.
  intros Hm. unfold baseStep. destruct (snd entry) as [value|]; [|done].
  destruct (normalizeEnvVarKey (fst entry) true) as [key|]; [|done].
  destruct (dangerous key) eqn:Hd; [done|]. by apply assign_safe.
Qed.

Lemma overrideStep_safe block merged entry :
  safe merged ->
  safe (overrideStep blockedKeys blockedPrefixes block merged entry).
Proof.
  intros Hm. unfold overrideStep.
  destruct (normalizeEnvVarKey (fst entry) true) as [key|] eqn:Hk; [|done].
  destruct (block && String.eqb (toUpperCase key) "PATH"); [done|].
  destruct (dangerous (toUpperCase key)) eqn:Hd; [done|].
  apply assign_safe; [|done].
  rewrite <- dangerous_upper; [done|]. by eapply normalizeEnvVarKey_portable.
Qed.

Lemma fold_left_invariant {A B} (P : A -> Prop) (f : A -> B -> A) l a :
  (forall a b, P a -> P (f a b)) -> P a -> P (fold_left f l a).
Proof.
  intros Hf. revert a. induction l as [|b l IH]; intros a Ha; simpl; auto.
Qed.

(** With PATH overrides blocked, a step of the overrides loop leaves every
    spelling of PATH as it is. *)
Lemma overrideStep_path merged entry k :
  toUpperCase k = "PATH" ->
  overrideStep blockedKeys blockedPrefixes true merged entry !! k = merged !! k.
Proof.
  intros Hk. unfold overrideStep.
  destruct (normalizeEnvVarKey (fst entry) true) as [key|]; [|done].
  simpl. destruct (String.eqb (toUpperCase key) "PATH") eqn:Hp; [done|].
  destruct (dangerous (toUpperCase key)); [done|].
  unfold assign. destruct (String.eqb key "__proto__"); [done|].
  apply lookup_insert_ne. intros ->. rewrite Hk in Hp. discriminate.
Qed.

(** C10: whatever the base environment and the overrides are, no key of the
    environment that [sanitizeHostExecEnv] returns is one that
    [isDangerousHostEnvVarName] calls dangerous; and unless
    [blockPathOverrides] is switched off, the entry for PATH (in any
    spelling) is what the base environment alone gives: the overrides cannot
    set, change or remove it. *)
Theorem C10_sanitized_env_is_safe
    (baseEnv : option (list (string * option string)))
    (overrides : option (list (string * string)))
    (blockPathOverrides : option bool) (key : string) :
  (forall value,
     sanitize baseEnv overrides blockPathOverrides !! key = Some value ->
     dangerous key = false)
  /\ (default true blockPathOverrides = true ->
      toUpperCase key = "PATH" ->
      sanitize baseEnv overrides blockPathOverrides !! key
      = sanitize baseEnv None blockPathOverrides !! key).
Proof.
  split.
  - intros value. revert key value.
    change (safe (sanitize baseEnv overrides blockPathOverrides)).
    unfold sanitizeHostExecEnv.
    assert (Hbase : safe (fold_left (baseStep blockedKeys blockedPrefixes)
                               (default processEnv baseEnv) ∅)).
    { apply fold_left_invariant; [intros; by apply baseStep_safe|].
      intros k v Hl. by rewrite lookup_empty in Hl. }
    destruct overrides as [ov|]; [|exact Hbase].
    apply fold_left_invariant; [intros; by apply overrideStep_safe | exact Hbase].
  - intros Hblock Hpath. unfold sanitizeHostExecEnv. rewrite Hblock.
    destruct overrides as [ov|]; [|done].
    generalize (fold_left (baseStep blockedKeys blockedPrefixes)
                  (default processEnv baseEnv) ∅).
    induction ov as [|entry ov IH]; intros merged; simpl; [done|].
    rewrite IH. by apply overrideStep_path.
Qed.

End HostEnvFacts.

(** The second test of [sanitizeHostExecEnv]: PATH keeps the value of the
    base environment. *)
Lemma C10_witness :
  HostEnv.isDangerousHostEnvVarName Samples.policyKeys Samples.policyPrefixes
    "PATH" = false
  /\ HostEnv.sanitizeHostExecEnv Samples.policyKeys Samples.policyPrefixes []
       (Some Samples.baseEnvOfTest) (Some Samples.overridesOfTest) None
     !! "PATH"
     = HostEnv.sanitizeHostExecEnv Samples.policyKeys Samples.policyPrefixes []
         (Some Samples.baseEnvOfTest) None None
       !! "PATH".
Proof.
  destruct (C10_sanitized_env_is_safe Samples.policyKeys Samples.policyPrefixes
              [] (Some Samples.baseEnvOfTest) (Some Samples.overridesOfTest)
              None "PATH") as [Hsafe Hpath].
  split.
  - apply (Hsafe "/usr/bin:/bin"). vm_compute. reflexivity.
  - apply Hpath; reflexivity.
Defined.

(** ** The session handlers *)

Section SessionsFacts.
Import JsString Sessions.
Open Scope Z_scope.

Variable cfg : ModelSelection.ClawdbotConfig.
Variable resolveGatewaySessionStoreTarget : string -> StoreTarget.
Variable DEFAULT_PROVIDER DEFAULT_MODEL : string.
Variable normalizeThinkLevel normalizeVerboseLevel normalizeReasoningLevel
         normalizeUsageDisplay normalizeSendPolicy normalizeGroupActivation
  : string -> option string.

Local Abbreviation patch :=
  (sessions_patch cfg resolveGatewaySessionStoreTarget
     DEFAULT_PROVIDER DEFAULT_MODEL
     normalizeThinkLevel normalizeVerboseLevel normalizeReasoningLevel
     normalizeUsageDisplay normalizeSendPolicy normalizeGroupActivation).
Local Abbreviation reset := (sessions_reset resolveGatewaySessionStoreTarget).

(** An entry stored under the primary key is the one the handlers work on. *)
Lemma adoptExistingKey_primary target key disk e :
  disk !! default key (head (storeKeys target)) = Some e ->
  adoptExistingKey target key disk = (default key (head (storeKeys target)), disk).
Proof.
  intros He. unfold adoptExistingKey.
  destruct (List.find _ (storeKeys target)) as [ek|]; [|done].
  rewrite He.
  rewrite (bool_decide_eq_true_2 (is_Some (Some e))) by eauto.
  simpl. by rewrite andb_false_r.
Qed.


Lemma breaksWriteOnce_rejected primaryKey existing raw next :
  breaksWriteOnce primaryKey existing raw ->
  exists m, patchSpawnedByStep primaryKey existing raw next = inl m
            /\ In m spawnedByErrors.
Proof.
  unfold patchSpawnedByStep, spawnedByErrors.
  intros [[-> Hset] | [(v & -> & Hset & Hne) | (v & -> & Hsub)]].
  - rewrite Hset. eexists. split; [reflexivity|]. simpl. auto.
  - destruct (negb (truthy (trim v)));
      [eexists; split; [reflexivity | simpl; auto]|].
    destruct (negb (SessionKey.isSubagentSessionKey (Some primaryKey)));
      [eexists; split; [reflexivity | simpl; auto]|].
    rewrite Hset, bool_decide_eq_false_2 by exact Hne. simpl.
    eexists. split; [reflexivity | simpl; auto].
  - destruct (negb (truthy (trim v)));
      [eexists; split; [reflexivity | simpl; auto]|].
    rewrite Hsub. simpl. eexists. split; [reflexivity | simpl; auto].
Qed.

(** C4: [sessions.patch] treats [spawnedBy] as write-once. A patch that
    clears a [spawnedBy] that is set, that gives a value other than the
    stored one, or that sets [spawnedBy] on a key that is not a subagent
    key is answered with an INVALID_REQUEST error that names [spawnedBy];
    the handler returns before it calls [saveSessionStore], so the session
    store is what it was. *)
Theorem C4_spawnedBy_write_once
    (p : SessionsPatchParams) (disk : gmap string SessionEntry)
    (now : Z) (uuid : string)
    (catalog : list ModelSelection.ModelCatalogEntry) :
  let key := trim (default "" (patchKey p)) in
  let target := resolveGatewaySessionStoreTarget key in
  let adopted := adoptExistingKey target key disk in
  truthy key = true ->
  breaksWriteOnce (fst adopted) (snd adopted !! fst adopted) (patchSpawnedBy p) ->
  exists m,
    response (patch (ValidParams p) disk now uuid catalog)
    = RespondError (errorShape INVALID_REQUEST m)
    /\ In m spawnedByErrors
    /\ saved (patch (ValidParams p) disk now uuid catalog) = None
    /\ storeAfter disk (patch (ValidParams p) disk now uuid catalog) = disk.
Proof.
  intros key target adopted Hkey Hbreak.
  unfold sessions_patch, storeAfter. fold key. rewrite Hkey. simpl. fold target.
  fold adopted. destruct adopted as [primaryKey store] eqn:Ha.
  simpl in Hbreak.
  destruct (breaksWriteOnce_rejected primaryKey (store !! primaryKey)
              (patchSpawnedBy p)
              (patchStart (store !! primaryKey) now uuid) Hbreak)
    as (m & Hm & Hin).
  rewrite Hm. simpl. exists m. done.
Qed.

End SessionsFacts.



(** Clearing the parent of the subagent session of the sample store is
    refused and nothing is saved. *)
Lemma C4_witness :
  Sessions.saved
    (Sessions.sessions_patch Samples.noConfig Samples.targetOfKey
       "anthropic" "claude-opus-4-5" (fun _ => None) (fun _ => None)
       (fun _ => None) (fun _ => None) (fun _ => None) (fun _ => None)
       (Sessions.ValidParams Samples.clearSpawnedBy)
       Samples.diskWithChild 200 "uuid-2" [])
  = None.
Proof.
  destruct (C4_spawnedBy_write_once Samples.noConfig Samples.targetOfKey
              "anthropic" "claude-opus-4-5" (fun _ => None) (fun _ => None)
              (fun _ => None) (fun _ => None) (fun _ => None) (fun _ => None)
              Samples.clearSpawnedBy Samples.diskWithChild 200 "uuid-2" [])
    as (m & _ & _ & Hsaved & _).
  - vm_compute. reflexivity.
  - left. split; vm_compute; reflexivity.
  - exact Hsaved.
Defined.

(** ** The route resolver *)

Section ResolveRouteFacts.
Import JsString ResolveRoute.

(** The tiers do not overlap: a rule matches in one tier at most. *)
Lemma tierOf_matcher (input : RouteInput) (b : Binding) (t : MatchedBy) :
  tierOf input b = Some t <-> matcher t input b = true.
Proof.
  destruct t;
    unfold tierOf, matcher, matchesPeer, matchesGuild, matchesAccount,
      matchesAnyAccount;
    destruct (inScope input b), (matchPeer (bindingMatch b)) as [p|],
      (matchGuildId (bindingMatch b)) as [g|], (guildId input) as [g'|],
      (isAnyAccount (bindingMatch b)); cbn;
    try destruct (peerKind_eqb _ _ && _);
    try destruct (truthy _ && _); cbn; split; intros; congruence.
Qed.

(** [find] returns the first element that passes the test. *)
Lemma find_first {A} (f : A -> bool) (l : list A) (x : A) :
  List.find f l = Some x ->
  exists before after,
    l = (before ++ x :: after)%list /\ f x = true
    /\ forall y, In y before -> f y = false.
Proof.
  induction l as [|a l IH]; simpl; [discriminate|].
  destruct (f a) eqn:Ha.
  - intros E. inversion E; subst. exists [], l. simpl. by repeat split.
  - intros Hx. destruct (IH Hx) as (before & after & -> & Hfx & Hb).
    exists (a :: before), after. repeat split; [done|].
    intros y [<- | Hy]; [exact Ha | by apply Hb].
Qed.

Lemma find_none_perm {A} (f : A -> bool) (l l' : list A) :
  Permutation l l' -> List.find f l = None -> List.find f l' = None.
Proof.
  intros Hp Hn. destruct (List.find f l') as [x|] eqn:Hx; [|done].
  apply find_some in Hx as [Hin Hfx].
  apply Permutation_sym in Hp.
  pose proof (find_none f l Hn x (Permutation_in x Hp Hin)). congruence.
Qed.

(** What [resolveAgentRoute] answers: no rule matches in a tier above the
    winning one, and the winner is the first rule of the winning tier. *)
Lemma resolveAgentRoute_spec (input : RouteInput) :
  let rules := bindings (cfg input) in
  let r := resolveAgentRoute input in
  (forall t, (rank t < rank (matchedBy r))%nat ->
             List.find (matcher t input) rules = None)
  /\ (matchedBy r = MatchedDefault
      \/ exists b, List.find (matcher (matchedBy r) input) rules = Some b
                   /\ r = choose input (bindingAgentId b) (matchedBy r)).
Proof.
  intros rules r. subst r. unfold resolveAgentRoute. fold rules.
  destruct (List.find (matchesPeer input) rules) as [b1|] eqn:H1; simpl.
  { split; [intros t Ht; lia | right; by exists b1]. }
  destruct (List.find (matchesGuild input) rules) as [b2|] eqn:H2; simpl.
  { split; [|right; by exists b2].
    intros [] Ht; simpl in Ht; try lia; done. }
  destruct (List.find (matchesAccount input) rules) as [b3|] eqn:H3; simpl.
  { split; [|right; by exists b3].
    intros [] Ht; simpl in Ht; try lia; done. }
  destruct (List.find (matchesAnyAccount input) rules) as [b4|] eqn:H4; simpl.
  { split; [|right; by exists b4].
    intros [] Ht; simpl in Ht; try lia; done. }
  split; [|by left].
  intros [] Ht; simpl in Ht; try lia; done.
Qed.

Lemma matcher_withBindings t input rules' b :
  matcher t (withBindings input rules') b = matcher t input b.
Proof. by destruct t. Qed.

(** The tests of [resolveAgentRoute]. *)
Example route_defaults :
  resolveAgentRoute (Samples.whatsappEvent [] None None None "+15551234567")
  = {| routeAgentId := "main"; routeAccountId := "default";
       sessionKey := "agent:main:main"; matchedBy := MatchedDefault |}.
Proof. vm_compute. reflexivity. Qed.

Example route_per_peer :
  sessionKey (resolveAgentRoute
                (Samples.whatsappEvent [] None (Some SessionKey.ScopePerPeer)
                   None "+15551234567"))
  = "agent:main:dm:+15551234567".
Proof. vm_compute. reflexivity. Qed.

Example route_peer_over_account :
  resolveAgentRoute
    (Samples.whatsappEvent
       [Samples.whatsappRule "a" (Some "biz") (Some "+1000");
        Samples.whatsappRule "b" (Some "biz") None]
       None None (Some "biz") "+1000")
  = {| routeAgentId := "a"; routeAccountId := "biz";
       sessionKey := "agent:a:main"; matchedBy := BindingPeer |}.
Proof. vm_compute. reflexivity. Qed.

Example route_channel_peer_over_guild :
  resolveAgentRoute
    (Samples.discordEvent [Samples.channelRule; Samples.guildRule])
  = {| routeAgentId := "chan"; routeAccountId := "default";
       sessionKey := "agent:chan:discord:channel:c1"; matchedBy := BindingPeer |}.
Proof. vm_compute. reflexivity. Qed.

Example route_guild_over_account :
  let r := resolveAgentRoute
             (Samples.discordEvent [Samples.guildRule; Samples.accountRule]) in
  routeAgentId r = "guild" /\ matchedBy r = BindingGuild.
Proof. split; vm_compute; reflexivity. Qed.

Example route_missing_account_is_default_only :
  let rules := [Samples.whatsappRule "defaultAcct" None None] in
  let r := resolveAgentRoute
             (Samples.whatsappEvent rules None None None "+1000") in
  let other := resolveAgentRoute
                 (Samples.whatsappEvent rules None None (Some "biz") "+1000") in
  routeAgentId r = "defaultAcct" /\ matchedBy r = BindingAccount
  /\ routeAgentId other = "main".
Proof. repeat split; vm_compute; reflexivity. Qed.

Example route_any_account :
  let r := resolveAgentRoute
             (Samples.whatsappEvent [Samples.whatsappRule "any" (Some "*") None]
                None None (Some "biz") "+1000") in
  routeAgentId r = "any" /\ matchedBy r = BindingChannel.
Proof. split; vm_compute; reflexivity. Qed.

Example route_default_agent :
  let r := resolveAgentRoute
             (Samples.whatsappEvent [] (Some "home") None (Some "biz") "+1000") in
  routeAgentId r = "home" /\ sessionKey r = "agent:home:main".
Proof. split; vm_compute; reflexivity. Qed.

(** C2: the winning tier is at least as strong as the tier of every rule
    that matches the event, so a rule for the peer beats a rule for the
    guild, which beats a rule for the account alone, wherever they stand in
    the list; [matchedBy] names that tier, and the agent is that of the
    first rule, in declaration order, among the rules of the winning tier;
    reordering the rules does not change the winning tier. *)
Theorem C2_tier_precedence (input : RouteInput) :
  let rules := bindings (cfg input) in
  let r := resolveAgentRoute input in
  (forall b t, In b rules -> tierOf input b = Some t ->
               (rank (matchedBy r) <= rank t)%nat)
  /\ (matchedBy r = MatchedDefault
      \/ exists before b after,
           rules = (before ++ b :: after)%list
           /\ tierOf input b = Some (matchedBy r)
           /\ (forall x, In x before -> tierOf input x <> Some (matchedBy r))
           /\ routeAgentId r
              = SessionKey.normalizeAgentId (Some (bindingAgentId b)))
  /\ (forall rules', Permutation rules rules' ->
        matchedBy (resolveAgentRoute (withBindings input rules')) = matchedBy r).
Proof.
  intros rules r.
  destruct (resolveAgentRoute_spec input) as [Habove Hwin].
  fold rules r in Habove, Hwin.
  assert (Hbest : forall rs b t, Permutation rules rs -> In b rs ->
            tierOf input b = Some t -> (rank (matchedBy r) <= rank t)%nat).
  { intros rs b t Hp Hb Ht.
    destruct (Nat.le_gt_cases (rank (matchedBy r)) (rank t)) as [|Hlt]; [done|].
    pose proof (find_none _ _ (find_none_perm _ _ _ Hp (Habove t Hlt)) b Hb) as Hn.
    apply tierOf_matcher in Ht. congruence. }
  split; [|split].
  - intros b t. by apply Hbest.
  - destruct Hwin as [Hd | (b & Hb & Hr)]; [by left|]. right.
    destruct (find_first _ _ _ Hb) as (before & after & Hsplit & Hfb & Hbefore).
    exists before, b, after. repeat split.
    + exact Hsplit.
    + by apply tierOf_matcher.
    + intros x Hx Hxt. apply tierOf_matcher in Hxt.
      rewrite (Hbefore x Hx) in Hxt. discriminate.
    + by rewrite Hr.
  - intros rules' Hp.
    set (r' := resolveAgentRoute (withBindings input rules')).
    destruct (resolveAgentRoute_spec (withBindings input rules')) as [Habove' Hwin'].
    fold r' in Habove', Hwin'. simpl in Habove', Hwin'.
    assert (Hle : (rank (matchedBy r) <= rank (matchedBy r'))%nat).
    { destruct Hwin' as [Hd | (b & Hb & _)]; [rewrite Hd; destruct (matchedBy r); simpl; lia|].
      apply find_some in Hb as [Hin Hm]. rewrite matcher_withBindings in Hm.
      apply (Hbest rules' b); [done | done | by apply tierOf_matcher]. }
    assert (Hge : (rank (matchedBy r') <= rank (matchedBy r))%nat).
    { destruct Hwin as [Hd | (b & Hb & _)]; [rewrite Hd; destruct (matchedBy r'); simpl; lia|].
      apply find_some in Hb as [Hin Hm].
      destruct (Nat.le_gt_cases (rank (matchedBy r')) (rank (matchedBy r)))
        as [|Hlt]; [done|].
      pose proof (Habove' _ Hlt) as Hn.
      pose proof (find_none _ _ Hn b (Permutation_in b Hp Hin)) as Hnb.
      rewrite matcher_withBindings in Hnb. congruence. }
    assert (Hinj : forall a b, rank a = rank b -> a = b)
      by (intros [] []; simpl; congruence).
    apply Hinj. lia.
Qed.

(** The rule for the peer wins although the rule for the guild and the
    rule for the account are declared before it. *)
Lemma C2_witness :
  (rank (matchedBy
           (resolveAgentRoute
              (Samples.discordEvent
                 [Samples.accountRule; Samples.guildRule; Samples.channelRule])))
   <= rank BindingPeer)%nat.
Proof.
  apply (proj1 (C2_tier_precedence
                  (Samples.discordEvent
                     [Samples.accountRule; Samples.guildRule;
                      Samples.channelRule]))
           Samples.channelRule BindingPeer).
  - simpl. right. right. left. reflexivity.
  - vm_compute. reflexivity.
Defined.

End ResolveRouteFacts.

(** ** Strings: trimming, case and splitting *)

(** ** More about strings *)

Section MoreStringFacts.
Import JsString.

Ltac each_ascii c := destruct c as [[] [] [] [] [] [] [] []].

Lemma chars_append (a b : string) : chars (a ++ b) = (chars a ++ chars b)%list.
Proof. induction a as [|c a IH]; simpl; [done | by rewrite IH]. Qed.

Lemma str_app (l1 l2 : list ascii) : str (l1 ++ l2) = str l1 ++ str l2.
Proof. induction l1 as [|c l1 IH]; simpl; [done | by rewrite IH]. Qed.

Lemma chars_inj (a b : string) : chars a = chars b -> a = b.
Proof. intros H. by rewrite <- (str_chars a), <- (str_chars b), H. Qed.

Lemma append_inv_head (a x y : string) : a ++ x = a ++ y -> x = y.
Proof.
  induction a as [|c a IH]; simpl; [done|]. intros H. apply IH.
  by inversion H.
Qed.

(** What [dropWhile] returns starts with an element that fails the test. *)
Lemma dropWhile_first p l c r : dropWhile p l = c :: r -> p c = false.
Proof.
  induction l as [|a l IH]; simpl; [discriminate|].
  destruct (p a) eqn:Ha; [exact IH|]. intros E. by inversion E; subst.
Qed.

Lemma dropWhile_fix p l :
  (forall c r, l = c :: r -> p c = false) -> dropWhile p l = l.
Proof. destruct l as [|a l]; simpl; [done|]. intros H. by rewrite (H a l). Qed.

(** [dropWhile] keeps a suffix, [dropWhileEnd] a prefix. *)
Lemma dropWhile_suffix p l :
  exists dropped, l = (dropped ++ dropWhile p l)%list.
Proof.
  induction l as [|a l [d IH]]; simpl; [by exists []|].
  destruct (p a); [|by exists []]. exists (a :: d). simpl. by rewrite <- IH.
Qed.

Lemma dropWhileEnd_prefix p l :
  exists dropped, l = (dropWhileEnd p l ++ dropped)%list.
Proof.
  unfold dropWhileEnd. destruct (dropWhile_suffix p (rev l)) as [d Hd].
  exists (rev d). rewrite <- rev_app_distr, <- Hd. by rewrite rev_involutive.
Qed.

Lemma dropWhileEnd_last p l r d : dropWhileEnd p l = (r ++ [d])%list -> p d = false.
Proof.
  unfold dropWhileEnd. intros H.
  apply (f_equal (@rev ascii)) in H. rewrite rev_involutive, rev_app_distr in H.
  simpl in H. by apply dropWhile_first in H.
Qed.

Lemma dropWhileEnd_fix p l :
  (forall r d, l = (r ++ [d])%list -> p d = false) -> dropWhileEnd p l = l.
Proof.
  intros H. unfold dropWhileEnd. rewrite dropWhile_fix; [apply rev_involutive|].
  intros c r Hr. apply (H (rev r)).
  by rewrite <- (rev_involutive l), Hr.
Qed.

Lemma trimChars_first l c r : trimChars l = c :: r -> isWhiteSpace c = false.
Proof.
  unfold trimChars. intros H.
  destruct (dropWhileEnd_prefix isWhiteSpace (dropWhile isWhiteSpace l)) as [d Hd].
  rewrite H in Hd. simpl in Hd. by apply dropWhile_first in Hd.
Qed.

Lemma trimChars_last l r d : trimChars l = (r ++ [d])%list -> isWhiteSpace d = false.
Proof. apply dropWhileEnd_last. Qed.

(** A string that neither starts nor ends with white space is its own trim. *)
Lemma trimChars_fix l :
  (forall c r, l = c :: r -> isWhiteSpace c = false) ->
  (forall r d, l = (r ++ [d])%list -> isWhiteSpace d = false) ->
  trimChars l = l.
Proof.
  intros Hfirst Hlast. unfold trimChars.
  rewrite (dropWhile_fix _ _ Hfirst). by apply dropWhileEnd_fix.
Qed.

Lemma trimChars_idem l : trimChars (trimChars l) = trimChars l.
Proof.
  apply trimChars_fix; [apply trimChars_first | apply trimChars_last].
Qed.

Lemma trim_idem (s : string) : trim (trim s) = trim s.
Proof. unfold trim. by rewrite chars_str, trimChars_idem. Qed.

Lemma trim_fix (s : string) :
  (forall c r, chars s = c :: r -> isWhiteSpace c = false) ->
  (forall r d, chars s = (r ++ [d])%list -> isWhiteSpace d = false) ->
  trim s = s.
Proof. intros H1 H2. unfold trim. by rewrite trimChars_fix, str_chars. Qed.

Lemma trim_first s c r : chars (trim s) = c :: r -> isWhiteSpace c = false.
Proof. unfold trim. rewrite chars_str. apply trimChars_first. Qed.

Lemma trim_last s r d : chars (trim s) = (r ++ [d])%list -> isWhiteSpace d = false.
Proof. unfold trim. rewrite chars_str. apply trimChars_last. Qed.

(** A map that keeps white space white and the rest not commutes with
    trimming. *)
Lemma dropWhile_map p (f : ascii -> ascii) l :
  (forall c, p (f c) = p c) -> dropWhile p (map f l) = map f (dropWhile p l).
Proof.
  intros Hf. induction l as [|a l IH]; simpl; [done|].
  rewrite Hf. by destruct (p a).
Qed.

Lemma trimChars_map (f : ascii -> ascii) l :
  (forall c, isWhiteSpace (f c) = isWhiteSpace c) ->
  trimChars (map f l) = map f (trimChars l).
Proof.
  intros Hf. unfold trimChars, dropWhileEnd.
  by rewrite !dropWhile_map, <- !map_rev, !dropWhile_map, map_rev.
Qed.

Lemma isWhiteSpace_lower c : isWhiteSpace (lowerChar c) = isWhiteSpace c.
Proof. each_ascii c; reflexivity. Qed.

Lemma isWhiteSpace_upper c : isWhiteSpace (upperChar c) = isWhiteSpace c.
Proof. each_ascii c; reflexivity. Qed.

Lemma lowerChar_idem c : lowerChar (lowerChar c) = lowerChar c.
Proof. each_ascii c; reflexivity. Qed.

Lemma upper_lower c : upperChar (lowerChar c) = upperChar c.
Proof. each_ascii c; reflexivity. Qed.

Lemma lower_upper c : lowerChar (upperChar c) = lowerChar c.
Proof. each_ascii c; reflexivity. Qed.

Lemma trim_toLowerCase (s : string) : trim (toLowerCase s) = toLowerCase (trim s).
Proof.
  unfold trim, toLowerCase. rewrite !chars_str.
  by rewrite trimChars_map by apply isWhiteSpace_lower.
Qed.

Lemma trim_toUpperCase (s : string) : trim (toUpperCase s) = toUpperCase (trim s).
Proof.
  unfold trim, toUpperCase. rewrite !chars_str.
  by rewrite trimChars_map by apply isWhiteSpace_upper.
Qed.

Lemma toLowerCase_idem (s : string) : toLowerCase (toLowerCase s) = toLowerCase s.
Proof.
  unfold toLowerCase. rewrite chars_str, map_map. f_equal.
  apply map_ext, lowerChar_idem.
Qed.

Lemma toLowerCase_toUpperCase (s : string) :
  toLowerCase (toUpperCase s) = toLowerCase s.
Proof.
  unfold toLowerCase, toUpperCase. rewrite chars_str, map_map. f_equal.
  apply map_ext, lower_upper.
Qed.

Lemma toUpperCase_toLowerCase (s : string) :
  toUpperCase (toLowerCase s) = toUpperCase s.
Proof.
  unfold toLowerCase, toUpperCase. rewrite chars_str, map_map. f_equal.
  apply map_ext, upper_lower.
Qed.

Lemma splitChars_sepFree sep cur l :
  sepFree sep l -> splitChars sep cur l = [str (rev cur ++ l)].
Proof.
  intros H. revert cur. induction H as [|c l Hc _ IH]; intros cur; simpl.
  - by rewrite app_nil_r.
  - rewrite Hc, IH. simpl. by rewrite <- app_assoc.
Qed.

Lemma splitChars_app sep cur l r :
  sepFree sep l ->
  splitChars sep cur (l ++ sep :: r)
  = str (rev cur ++ l) :: splitChars sep [] r.
Proof.
  intros H. revert cur. induction H as [|c l Hc _ IH]; intros cur; simpl.
  - by rewrite Ascii.eqb_refl, app_nil_r.
  - rewrite Hc, IH. simpl. by rewrite <- app_assoc.
Qed.

(** Every piece that [split] returns is free of the separator. *)
Lemma splitChars_pieces sep cur l :
  sepFree sep cur ->
  Forall (fun piece => sepFree sep (chars piece)) (splitChars sep cur l).
Proof.
  revert cur. induction l as [|c l IH]; intros cur Hcur; simpl.
  - constructor; [|constructor]. rewrite chars_str. by apply Forall_rev.
  - destruct (Ascii.eqb c sep) eqn:Hc.
    + constructor; [rewrite chars_str; by apply Forall_rev|].
      apply IH. constructor.
    + apply IH. by constructor.
Qed.

(** Two lists that agree up to the first separator agree on both sides. *)
Lemma sep_split_inj sep l1 r1 l2 r2 :
  sepFree sep l1 -> sepFree sep l2 ->
  (l1 ++ sep :: r1)%list = (l2 ++ sep :: r2)%list -> l1 = l2 /\ r1 = r2.
Proof.
  intros H1. revert l2. induction H1 as [|c l1 Hc _ IH]; intros l2 H2 E.
  - destruct H2 as [|d l2 Hd _]; simpl in E; [by inversion E|].
    inversion E; subst. by rewrite Ascii.eqb_refl in Hd.
  - destruct H2 as [|d l2 Hd H2]; simpl in E.
    + inversion E; subst. by rewrite Ascii.eqb_refl in Hc.
    + inversion E; subst. destruct (IH l2 H2) as [-> ->]; done.
Qed.

Lemma startsWithChars_prefix p l :
  startsWithChars p l = true -> exists r, l = (p ++ r)%list.
Proof.
  revert l. induction p as [|a p IH]; intros l; simpl; [by exists l|].
  destruct l as [|b l]; [discriminate|].
  intros H. apply andb_prop in H as [Hab Hp]. apply Ascii.eqb_eq in Hab as ->.
  destruct (IH l Hp) as [r ->]. by exists r.
Qed.

End MoreStringFacts.

(** ** Session keys: shapes and round trips *)

(** ** More about session keys *)

Section MoreSessionKeyFacts.
Import JsString SessionKey.

Ltac each_ascii c := destruct c as [[] [] [] [] [] [] [] []].

Lemma isIdCharI_not_space c : isIdCharI c = true -> isWhiteSpace c = false.
Proof. each_ascii c; vm_compute; congruence. Qed.

Lemma isIdCharI_not_colon c : isIdCharI c = true -> Ascii.eqb c ":" = false.
Proof. each_ascii c; vm_compute; congruence. Qed.

(** The shape of what [normalizeAgentId] and [normalizeAccountId] return,
    for a default id that is itself well formed. *)
Lemma normalized_shape (trimmed fallback : string) :
  isValidId fallback = true ->
  let r := if negb (truthy trimmed) then fallback
           else if isValidId trimmed then trimmed
           else orElse (slug trimmed) fallback in
  r <> "" /\ (length (chars r) <= 64)%nat
  /\ Forall (fun c => isIdCharI c = true) (chars r).
Proof.
  intros Hd r. subst r.
  destruct (negb (truthy trimmed)); [by apply isValidId_spec|].
  destruct (isValidId trimmed) eqn:Hv; [by apply isValidId_spec|].
  unfold orElse. destruct (truthy (slug trimmed)) eqn:Hs;
    [|by apply isValidId_spec].
  split; [|split].
  - intros E. rewrite E in Hs. discriminate.
  - unfold slug. rewrite chars_str. apply slugChars_length.
  - unfold slug. rewrite chars_str.
    eapply Forall_impl; [apply slugChars_idChars | apply isIdChar_isIdCharI].
Qed.

Lemma normalizeAgentId_chars (value : option string) :
  normalizeAgentId value <> ""
  /\ Forall (fun c => isIdCharI c = true) (chars (normalizeAgentId value)).
Proof.
  destruct (normalized_shape (trim (orEmpty value)) DEFAULT_AGENT_ID eq_refl)
    as (H1 & _ & H3). done.
Qed.

(** The account id is normalised like the agent id: never empty, at most 64
    characters of [[A-Za-z0-9_-]], ["default"] for a blank input, and a
    valid id is kept as it is. *)
Theorem normalizeAccountId_shape (value : option string) :
  let trimmed := trim (orEmpty value) in
  let r := normalizeAccountId value in
  r <> "" /\ (length (chars r) <= 64)%nat
  /\ Forall (fun c => isIdCharI c = true) (chars r)
  /\ (trimmed = "" -> r = "default")
  /\ (isValidId trimmed = true -> r = trimmed).
Proof.
  intros trimmed r.
  destruct (normalized_shape trimmed DEFAULT_ACCOUNT_ID eq_refl)
    as (H1 & H2 & H3).
  repeat split; try done.
  - intros E. subst r. unfold normalizeAccountId. fold trimmed. by rewrite E.
  - intros Hv. subst r. unfold normalizeAccountId. fold trimmed. rewrite Hv.
    destruct (isValidId_spec _ Hv) as (Hne & _).
    by destruct trimmed.
Qed.

Lemma normalizeAccountId_shape_witness :
  normalizeAccountId (Some "   ") = "default"
  /\ normalizeAccountId (Some " Biz-1 ") = "Biz-1".
Proof.
  destruct (normalizeAccountId_shape (Some "   ")) as (_ & _ & _ & Hblank & _).
  destruct (normalizeAccountId_shape (Some " Biz-1 ")) as (_ & _ & _ & _ & Hvalid).
  split; [apply Hblank | apply Hvalid]; reflexivity.
Defined.

(** A direct message without a usable peer id gets the main session key of
    the agent, whatever [dmScope] says. *)
Theorem blank_peer_falls_back_to_main
    (agent : string) (main : option string) (chan : string)
    (peer : option string) (kind : option PeerKind) (scope : option DmScope) :
  kind = Some Dm \/ kind = None ->
  trim (orEmpty peer) = "" ->
  buildAgentPeerSessionKey
    {| agentId := agent; mainKey := main; channel := chan;
       peerKind := kind; peerId := peer; dmScope := scope |}
  = buildAgentMainSessionKey agent main.
Proof.
  intros [-> | ->] Hblank; unfold buildAgentPeerSessionKey; simpl;
    rewrite Hblank; by destruct scope as [[]|].
Qed.

Lemma blank_peer_falls_back_to_main_witness :
  buildAgentPeerSessionKey
    {| agentId := "main"; mainKey := None; channel := "whatsapp";
       peerKind := Some Dm; peerId := Some "  ";
       dmScope := Some ScopePerChannelPeer |}
  = "agent:main:main".
Proof.
  apply (blank_peer_falls_back_to_main "main" None "whatsapp" (Some "  ")
           (Some Dm) (Some ScopePerChannelPeer)).
  - left. reflexivity.
  - reflexivity.
Defined.

Lemma normalizeAgentId_sepFree value :
  sepFree ":" (chars (normalizeAgentId value)).
Proof.
  eapply Forall_impl; [apply normalizeAgentId_chars|].
  apply isIdCharI_not_colon.
Qed.

(** The characters of a key ["agent:" ++ id ++ ":" ++ rest]. *)
Lemma agent_key_chars (id rest : string) :
  chars ("agent:" ++ id ++ ":" ++ rest)
  = (chars "agent" ++ ":"%char :: chars id ++ ":"%char :: chars rest)%list.
Proof. by rewrite !chars_append. Qed.

Lemma per_channel_peer_key (agent : string) (main : option string)
    (chan peer : string) :
  trim peer <> "" ->
  buildAgentPeerSessionKey
    {| agentId := agent; mainKey := main; channel := chan;
       peerKind := Some Dm; peerId := Some peer;
       dmScope := Some ScopePerChannelPeer |}
  = "agent:" ++ normalizeAgentId (Some agent) ++ ":"
      ++ (orElse (toLowerCase (trim chan)) "unknown" ++ ":dm:" ++ trim peer).
Proof.
  intros Hp. apply truthy_true_nonempty in Hp.
  unfold buildAgentPeerSessionKey. cbn [peerKind dmScope peerId default orEmpty
    from_option channel agentId id]. rewrite Hp. reflexivity.
Qed.

(** X1: with [dmScope] per-channel-peer, two direct messages share a session
    key only if the normalised agent ids, the channels and the trimmed peer
    ids are the same, as long as the channel names hold no colon. *)
Theorem per_channel_peer_keys_injective
    (agent1 agent2 : string) (main1 main2 : option string)
    (chan1 chan2 peer1 peer2 : string) :
  let channelOf c := orElse (toLowerCase (trim c)) "unknown" in
  let keyOf agent main chan peer :=
    buildAgentPeerSessionKey
      {| agentId := agent; mainKey := main; channel := chan;
         peerKind := Some Dm; peerId := Some peer;
         dmScope := Some ScopePerChannelPeer |} in
  trim peer1 <> "" -> trim peer2 <> "" ->
  sepFree ":" (chars (channelOf chan1)) ->
  sepFree ":" (chars (channelOf chan2)) ->
  keyOf agent1 main1 chan1 peer1 = keyOf agent2 main2 chan2 peer2 ->
  normalizeAgentId (Some agent1) = normalizeAgentId (Some agent2)
  /\ channelOf chan1 = channelOf chan2
  /\ trim peer1 = trim peer2.
Proof.
  intros channelOf keyOf Hp1 Hp2 Hc1 Hc2. subst keyOf. cbv beta.
  rewrite !per_channel_peer_key by done.
  fold (channelOf chan1) (channelOf chan2).
  intros E. apply (f_equal chars) in E. rewrite !agent_key_chars in E.
  apply app_inv_head in E. inversion E as [E']. clear E.
  apply sep_split_inj in E' as [Hid E]; try apply normalizeAgentId_sepFree.
  rewrite !chars_append in E.
  change (chars ":dm:") with (":"%char :: chars "dm:") in E.
  apply sep_split_inj in E as [Hch E]; try done.
  repeat split.
  - by apply chars_inj.
  - by apply chars_inj.
  - apply chars_inj. by inversion E.
Qed.

Lemma per_channel_peer_keys_injective_witness :
  normalizeAgentId (Some "main") = normalizeAgentId (Some " main ")
  /\ orElse (toLowerCase (trim "WhatsApp")) "unknown"
     = orElse (toLowerCase (trim "whatsapp")) "unknown"
  /\ trim "+1555 " = trim "+1555".
Proof.
  apply (per_channel_peer_keys_injective "main" " main " None None
           "WhatsApp" "whatsapp" "+1555 " "+1555").
  - discriminate.
  - discriminate.
  - vm_compute. repeat constructor.
  - vm_compute. repeat constructor.
  - reflexivity.
Defined.

End MoreSessionKeyFacts.

Section MoreSessionKeyFacts2.
Import JsString SessionKey.

Lemma nonempty_last (l : list ascii) : l <> [] -> exists r d, l = (r ++ [d])%list.
Proof.
  intros H. destruct (exists_last H) as (r & d & ->). by exists r, d.
Qed.

(** Gluing a string that starts clean to one that ends clean gives a string
    that [trim] leaves alone. *)
Lemma trim_append_fix (a b : string) :
  (exists c r, chars a = c :: r /\ isWhiteSpace c = false) ->
  (exists r d, chars b = (r ++ [d])%list /\ isWhiteSpace d = false) ->
  trim (a ++ b) = a ++ b.
Proof.
  intros (c & r & Ha & Hc) (r' & d & Hb & Hd).
  apply trim_fix; rewrite chars_append, Ha, Hb.
  - intros c0 r0 E. simpl in E. by inversion E; subst.
  - intros r0 d0 E. rewrite app_assoc in E.
    apply app_inj_tail in E as [_ <-]. exact Hd.
Qed.

Lemma trimmed_ends_clean (s : string) :
  trim s <> "" ->
  exists r d, chars (trim s) = (r ++ [d])%list /\ isWhiteSpace d = false.
Proof.
  intros Hne. destruct (nonempty_last (chars (trim s))) as (r & d & E).
  - intros E. apply Hne. by rewrite <- (str_chars (trim s)), E.
  - exists r, d. split; [done|]. by eapply trim_last.
Qed.

Lemma normalizeMainKey_ends_clean (value : option string) :
  exists r d, chars (normalizeMainKey value) = (r ++ [d])%list
              /\ isWhiteSpace d = false.
Proof.
  unfold normalizeMainKey.
  destruct (truthy (trim (orEmpty value))) eqn:Ht.
  - apply trimmed_ends_clean. by apply truthy_true_nonempty.
  - by exists (chars "mai"), "n"%char.
Qed.

Lemma normalizeMainKey_nonempty (value : option string) :
  normalizeMainKey value <> "".
Proof.
  unfold normalizeMainKey.
  destruct (truthy (trim (orEmpty value))) eqn:Ht; [|done].
  by apply truthy_true_nonempty.
Qed.

Lemma normalizeAgentId_trimmed (value : option string) :
  trim (normalizeAgentId value) = normalizeAgentId value.
Proof.
  apply trim_none. eapply Forall_impl; [apply normalizeAgentId_chars|].
  apply isIdCharI_not_space.
Qed.

Lemma main_key_trimmed (agent : string) (main : option string) :
  trim (buildAgentMainSessionKey agent main) = buildAgentMainSessionKey agent main.
Proof.
  unfold buildAgentMainSessionKey.
  change ("agent:" ++ normalizeAgentId (Some agent) ++ ":" ++ normalizeMainKey main)
    with ("a" ++ ("gent:" ++ normalizeAgentId (Some agent) ++ ":" ++ normalizeMainKey main)).
  apply trim_append_fix; [by exists "a"%char, []|].
  destruct (normalizeMainKey_ends_clean main) as (r & d & E & Hd).
  exists (chars ("gent:" ++ normalizeAgentId (Some agent) ++ ":") ++ r)%list, d.
  split; [|done]. rewrite !chars_append, E. by rewrite <- !app_assoc.
Qed.

Lemma main_key_split (agent : string) (main : option string) :
  sepFree ":" (chars (normalizeMainKey main)) ->
  split ":" (buildAgentMainSessionKey agent main)
  = ["agent"; normalizeAgentId (Some agent); normalizeMainKey main].
Proof.
  intros Hmain. unfold split, buildAgentMainSessionKey.
  rewrite agent_key_chars.
  rewrite splitChars_app by (vm_compute; repeat constructor).
  rewrite splitChars_app by apply normalizeAgentId_sepFree.
  rewrite splitChars_sepFree by done.
  simpl. by rewrite !str_chars.
Qed.

(** Parsing the main session key of an agent gives back the normalised
    agent id and the main key, when the main key holds no colon. *)
Lemma parse_main_key (agent : string) (main : option string) :
  sepFree ":" (chars (normalizeMainKey main)) ->
  parseAgentSessionKey (Some (buildAgentMainSessionKey agent main))
  = Some {| parsedAgentId := normalizeAgentId (Some agent);
            parsedRest := normalizeMainKey main |}.
Proof.
  intros Hmain. unfold parseAgentSessionKey. cbn [orEmpty default from_option id].
  rewrite main_key_trimmed.
  assert (Hkey : truthy (buildAgentMainSessionKey agent main) = true) by done.
  rewrite Hkey. cbn [negb]. rewrite main_key_split by done.
  destruct (normalizeAgentId_chars (Some agent)) as [Hid _].
  pose proof (normalizeMainKey_nonempty main) as Hmk.
  apply truthy_true_nonempty in Hid, Hmk.
  rewrite !filter_cons, filter_nil.
  rewrite !decide_True by done.
  cbn [String.eqb Ascii.eqb Bool.eqb negb join].
  rewrite normalizeAgentId_trimmed, Hid, Hmk. reflexivity.
Qed.

(** X2: round trip: the main session key built for an agent parses to the
    normalised agent id and the normalised main key, as long as the main
    key holds no colon. *)
Theorem parse_build_main_key (agent : string) (main : option string) :
  sepFree ":" (chars (normalizeMainKey main)) ->
  parseAgentSessionKey (Some (buildAgentMainSessionKey agent main))
  = Some {| parsedAgentId := normalizeAgentId (Some agent);
            parsedRest := normalizeMainKey main |}.
Proof. apply parse_main_key. Qed.

Lemma parse_build_main_key_witness :
  parseAgentSessionKey (Some (buildAgentMainSessionKey " Home " None))
  = Some {| parsedAgentId := "Home"; parsedRest := "main" |}.
Proof.
  apply (parse_build_main_key " Home " None). vm_compute. repeat constructor.
Defined.

End MoreSessionKeyFacts2.

Section MoreSessionKeyFacts3.
Import JsString SessionKey.

Lemma sepFree_trimChars sep l : sepFree sep l -> sepFree sep (trimChars l).
Proof.
  intros H. unfold trimChars. by apply Forall_dropWhileEnd, Forall_dropWhile.
Qed.

Lemma join_nonempty sep (p : string) (rest : list string) :
  p <> "" -> join sep (p :: rest) <> "".
Proof. destruct p; [done|]. intros _. by destruct rest. Qed.

(** X3: what [parseAgentSessionKey] accepts is well formed: the agent id is not
    empty, has no colon and no white space around it, and the rest is a
    non-empty list of non-empty segments joined by colons. *)
Theorem parseAgentSessionKey_wellformed
    (sessionKey : option string) (parsed : ParsedAgentSessionKey) :
  parseAgentSessionKey sessionKey = Some parsed ->
  parsedAgentId parsed <> ""
  /\ trim (parsedAgentId parsed) = parsedAgentId parsed
  /\ sepFree ":" (chars (parsedAgentId parsed))
  /\ parsedRest parsed <> ""
  /\ exists segments,
       segments <> []
       /\ parsedRest parsed = join ":" segments
       /\ Forall (fun q => q <> "" /\ sepFree ":" (chars q)) segments.
Proof.
  unfold parseAgentSessionKey.
  destruct (negb (truthy (trim (orEmpty sessionKey)))); [discriminate|].
  set (raw := trim (orEmpty sessionKey)).
  assert (Hparts : Forall (fun q => q <> "" /\ sepFree ":" (chars q))
            (filter (fun p => truthy p = true) (split ":" raw))).
  { apply Forall_forall. intros q Hq. apply list_elem_of_filter in Hq as [Hq Hin].
    split; [by apply truthy_true_nonempty|].
    pose proof (splitChars_pieces ":" [] (chars raw) ltac:(constructor)) as Hall.
    rewrite Forall_forall in Hall. by apply Hall. }
  destruct (filter _ (split ":" raw)) as [|p0 [|p1 [|p2 more]]]; try discriminate.
  destruct (negb (String.eqb p0 "agent")); [discriminate|].
  destruct (negb (truthy (trim p1)) || negb (truthy (join ":" (p2 :: more))))
    eqn:Hok; [discriminate|].
  intros E. inversion E; subst parsed; clear E. simpl.
  apply orb_false_elim in Hok as [Hid Hrest].
  apply negb_false_iff, truthy_true_nonempty in Hid, Hrest.
  inversion Hparts as [|? ? _ Hparts1]; subst.
  inversion Hparts1 as [|? ? [_ Hp1] Hparts2]; subst.
  repeat split; try done.
  - apply trim_idem.
  - unfold trim. rewrite chars_str. by apply sepFree_trimChars.
  - exists (p2 :: more). done.
Qed.

Lemma parseAgentSessionKey_wellformed_witness :
  parsedAgentId {| parsedAgentId := "research"; parsedRest := "subagent:worker" |}
  <> "".
Proof.
  apply (parseAgentSessionKey_wellformed
           (Some "  agent: research :subagent::worker ")
           {| parsedAgentId := "research"; parsedRest := "subagent:worker" |}).
  vm_compute. reflexivity.
Defined.

(** The keys the session-key tests call malformed are rejected. *)
Example parseAgentSessionKey_malformed :
  map (fun k => parseAgentSessionKey (Some k))
      ["agent::broken"; "agent:main"; "main"; "subagent:worker"; "   "]
  = [None; None; None; None; None].
Proof. vm_compute. reflexivity. Qed.

Lemma startsWith_sepFree (s p : string) (sep : ascii) :
  In sep (chars p) -> sepFree sep (chars s) -> startsWith s p = false.
Proof.
  intros Hin Hfree. destruct (startsWith s p) eqn:E; [|done].
  apply startsWithChars_prefix in E as [r E].
  unfold sepFree in Hfree. rewrite E, Forall_app in Hfree.
  destruct Hfree as [Hp _]. rewrite Forall_forall in Hp.
  apply list_elem_of_In in Hin. apply Hp in Hin.
  by rewrite Ascii.eqb_refl in Hin.
Qed.

Lemma sepFree_lower (l : list ascii) :
  sepFree ":" l -> sepFree ":" (map lowerChar l).
Proof.
  intros H. apply Forall_map. eapply Forall_impl; [exact H|].
  intros c. destruct c as [[] [] [] [] [] [] [] []]; vm_compute; congruence.
Qed.

(** The main session key of an agent is not a subagent key, whatever the
    agent id, when the main key holds no colon: [sessions.patch] therefore
    never accepts a [spawnedBy] for it. *)
Theorem main_key_is_not_subagent (agent : string) (main : option string) :
  sepFree ":" (chars (normalizeMainKey main)) ->
  isSubagentSessionKey (Some (buildAgentMainSessionKey agent main)) = false.
Proof.
  intros Hmain. unfold isSubagentSessionKey.
  cbn [orEmpty default from_option id]. rewrite main_key_trimmed.
  assert (Hkey : truthy (buildAgentMainSessionKey agent main) = true) by done.
  rewrite Hkey. cbn [negb].
  assert (Hhead : startsWith (toLowerCase (buildAgentMainSessionKey agent main))
                    "subagent:" = false) by done.
  rewrite Hhead, parse_main_key by done. cbn [fmap option_fmap option_map
    default from_option parsedRest id].
  apply (startsWith_sepFree _ _ ":"%char); [vm_compute; tauto|].
  unfold toLowerCase. rewrite chars_str. by apply sepFree_lower.
Qed.

Lemma main_key_is_not_subagent_witness :
  isSubagentSessionKey (Some (buildAgentMainSessionKey "Sub Agent" (Some "main")))
  = false.
Proof.
  apply (main_key_is_not_subagent "Sub Agent" (Some "main")).
  vm_compute. repeat constructor.
Defined.

(** X4: the agent id of a valid agent is read back from its main session key. *)
Theorem agent_id_read_back (agent : string) (main : option string) :
  isValidId (trim agent) = true ->
  sepFree ":" (chars (normalizeMainKey main)) ->
  resolveAgentIdFromSessionKey (Some (buildAgentMainSessionKey agent main))
  = trim agent.
Proof.
  intros Hvalid Hmain. unfold resolveAgentIdFromSessionKey.
  rewrite parse_main_key by done.
  cbn [fmap option_fmap option_map default from_option parsedAgentId id].
  assert (Hid : normalizeAgentId (Some agent) = trim agent).
  { unfold normalizeAgentId. cbn [orEmpty default from_option id].
    rewrite Hvalid. destruct (isValidId_spec _ Hvalid) as (Hne & _).
    apply truthy_true_nonempty in Hne. by rewrite Hne. }
  rewrite Hid. unfold normalizeAgentId. cbn [orEmpty default from_option id].
  rewrite trim_idem, Hvalid.
  destruct (isValidId_spec _ Hvalid) as (Hne & _).
  apply truthy_true_nonempty in Hne. by rewrite Hne.
Qed.

Lemma agent_id_read_back_witness :
  resolveAgentIdFromSessionKey (Some (buildAgentMainSessionKey " Home " None))
  = "Home".
Proof.
  apply (agent_id_read_back " Home " None).
  - reflexivity.
  - vm_compute. repeat constructor.
Defined.

(** A key that does not parse belongs to the default agent. *)
Example unparsed_key_is_main :
  resolveAgentIdFromSessionKey (Some "cron:job-1") = "main"
  /\ resolveAgentIdFromSessionKey None = "main".
Proof. split; reflexivity. Qed.

Lemma append_nonempty_neq (a x : string) : x <> "" -> a ++ x <> a.
Proof.
  intros Hx E. apply (f_equal (fun s => length (chars s))) in E.
  rewrite chars_append, length_app in E.
  destruct x; [done|]. simpl in E. lia.
Qed.

(** X5: thread session keys: a blank thread id gives the base key and drops
    the parent key; with the suffix on (the default), the key of a thread
    differs from the base key, and two threads of one base session share a
    key only if their trimmed ids are the same. *)
Theorem thread_keys_separate
    (base thread1 thread2 : string) (blank parent : option string)
    (useSuffix : option bool) :
  useSuffix = None \/ useSuffix = Some true ->
  trim thread1 <> "" -> trim thread2 <> "" -> trim (orEmpty blank) = "" ->
  let keyOf thread :=
    threadSessionKey (resolveThreadSessionKeys base thread parent useSuffix) in
  keyOf (Some thread1) <> base
  /\ (keyOf (Some thread1) = keyOf (Some thread2) -> trim thread1 = trim thread2)
  /\ resolveThreadSessionKeys base blank parent useSuffix
     = {| threadSessionKey := base; threadParentSessionKey := None |}.
Proof.
  intros Hsuffix H1 H2 Hblank keyOf. subst keyOf.
  unfold resolveThreadSessionKeys. rewrite Hblank.
  cbn [orEmpty default from_option id].
  apply truthy_true_nonempty in H1, H2. rewrite H1, H2. cbn [negb truthy].
  assert (Hon : default true useSuffix = true) by (by destruct Hsuffix as [-> | ->]).
  rewrite Hon. cbn [threadSessionKey].
  split; [|split]; try reflexivity.
  - by apply append_nonempty_neq.
  - intros E. apply append_inv_head in E. by apply (append_inv_head ":thread:").
Qed.

Lemma thread_keys_separate_witness :
  threadSessionKey
    (resolveThreadSessionKeys "agent:main:discord:channel:c1" (Some " t1 ")
       None None)
  <> "agent:main:discord:channel:c1".
Proof.
  apply (thread_keys_separate "agent:main:discord:channel:c1" " t1 " "t2"
           (Some "  ") None None).
  - left. reflexivity.
  - discriminate.
  - discriminate.
  - reflexivity.
Defined.

(** Without the suffix the thread shares the session of its base key. *)
Example thread_without_suffix :
  resolveThreadSessionKeys "agent:main:main" (Some "t1") (Some "parent")
    (Some false)
  = {| threadSessionKey := "agent:main:main";
       threadParentSessionKey := Some "parent" |}.
Proof. reflexivity. Qed.

End MoreSessionKeyFacts3.

(** ** Model references, aliases and the allowed set *)

(** ** More about model selection *)

Section MoreModelSelectionFacts.
Import JsString ModelSelection.

Lemma indexOfChars_split c l i :
  indexOfChars c l = Some i ->
  sepFree c (take i l) /\ l = (take i l ++ c :: drop (S i) l)%list.
Proof.
  revert i. induction l as [|a l IH]; intros i; simpl; [discriminate|].
  destruct (Ascii.eqb a c) eqn:Hac.
  - intros E. inversion E; subst. apply Ascii.eqb_eq in Hac as ->.
    split; [constructor | by rewrite drop_0].
  - destruct (indexOfChars c l) as [j|]; [|discriminate]. simpl.
    intros E. inversion E; subst. destruct (IH j eq_refl) as [Hfree Hl].
    split; [by constructor|]. simpl. by rewrite <- Hl.
Qed.

Lemma indexOfChars_none c l : indexOfChars c l = None <-> sepFree c l.
Proof.
  induction l as [|a l IH]; simpl.
  - split; [constructor | done].
  - destruct (Ascii.eqb a c) eqn:Hac.
    + split; [discriminate|]. intros H. inversion H; subst. congruence.
    + destruct (indexOfChars c l) as [j|]; simpl.
      * split; [discriminate|]. intros H. inversion H; subst.
        by apply IH in H3.
      * split; [|done]. intros _. constructor; [done | by apply IH].
Qed.

Lemma indexOfChars_app c l r :
  sepFree c l -> indexOfChars c (l ++ c :: r) = Some (length l).
Proof.
  induction 1 as [|a l Ha _ IH]; simpl.
  - by rewrite Ascii.eqb_refl.
  - by rewrite Ha, IH.
Qed.

Lemma sepFree_slash_lower (l : list ascii) :
  sepFree "/" (map lowerChar l) <-> sepFree "/" l.
Proof.
  unfold sepFree. rewrite Forall_map. apply Forall_iff. intros c.
  destruct c as [[] [] [] [] [] [] [] []]; vm_compute; split; congruence.
Qed.

Lemma normalizeProviderId_cases (provider : string) :
  normalizeProviderId provider = "zai"
  \/ normalizeProviderId provider = toLowerCase (trim provider).
Proof.
  unfold normalizeProviderId. destruct (_ || _); [by left | by right].
Qed.

(** A normalised provider id is its own normal form. *)
Lemma normalizeProviderId_idem (provider : string) :
  normalizeProviderId (normalizeProviderId provider) = normalizeProviderId provider.
Proof.
  unfold normalizeProviderId at 2 3.
  destruct (_ || _) eqn:Hz; [reflexivity|].
  unfold normalizeProviderId.
  rewrite trim_toLowerCase, trim_idem, toLowerCase_idem. by rewrite Hz.
Qed.

Lemma normalizeProviderId_trimmed (provider : string) :
  trim (normalizeProviderId provider) = normalizeProviderId provider.
Proof.
  destruct (normalizeProviderId_cases provider) as [-> | ->]; [reflexivity|].
  by rewrite trim_toLowerCase, trim_idem.
Qed.

Lemma sepFree_trim sep (s : string) :
  sepFree sep (chars s) -> sepFree sep (chars (trim s)).
Proof. intros H. unfold trim. rewrite chars_str. by apply sepFree_trimChars. Qed.

Lemma normalizeProviderId_sepFree (provider : string) :
  sepFree "/" (chars provider) -> sepFree "/" (chars (normalizeProviderId provider)).
Proof.
  intros H. destruct (normalizeProviderId_cases provider) as [-> | ->].
  - vm_compute. repeat constructor.
  - unfold toLowerCase. rewrite chars_str. apply sepFree_slash_lower.
    by apply sepFree_trim.
Qed.

Lemma parseModelRef_canonical_aux (raw defaultProvider : string) (ref : ModelRef) :
  parseModelRef raw defaultProvider = Some ref ->
  model ref <> "" /\ trim (model ref) = model ref
  /\ normalizeProviderId (provider ref) = provider ref
  /\ (indexOf "/" (trim raw) <> None ->
      provider ref <> "" /\ sepFree "/" (chars (provider ref))).
Proof.
  unfold parseModelRef.
  destruct (negb (truthy (trim raw))) eqn:Hraw; [discriminate|].
  apply negb_false_iff, truthy_true_nonempty in Hraw.
  unfold indexOf. destruct (indexOfChars "/" (chars (trim raw))) as [slash|] eqn:Hix.
  - destruct (negb (truthy _) || negb (truthy _)) eqn:Hok; [discriminate|].
    apply orb_false_elim in Hok as [Hp Hm].
    apply negb_false_iff, truthy_true_nonempty in Hp, Hm.
    intros E. inversion E; subst ref; clear E. simpl.
    destruct (indexOfChars_split _ _ _ Hix) as [Hfree _].
    repeat split; try done.
    + apply trim_idem.
    + apply normalizeProviderId_idem.
    + apply normalizeProviderId_sepFree, sepFree_trim. by rewrite chars_str.
  - intros E. inversion E; subst ref; clear E. simpl.
    repeat split; try done.
    + apply trim_idem.
    + apply normalizeProviderId_idem.
Qed.

(** A reference that [parseModelRef] returns is in canonical form: the
    model is not empty and trimmed, the provider is a normalised provider
    id; when the input names the provider (it holds a slash), the provider
    is not empty and holds no slash. *)
Theorem parseModelRef_canonical (raw defaultProvider : string) (ref : ModelRef) :
  parseModelRef raw defaultProvider = Some ref ->
  model ref <> "" /\ trim (model ref) = model ref
  /\ normalizeProviderId (provider ref) = provider ref
  /\ (indexOf "/" (trim raw) <> None ->
      provider ref <> "" /\ sepFree "/" (chars (provider ref))).
Proof. apply parseModelRef_canonical_aux. Qed.

Lemma parseModelRef_canonical_witness :
  model {| provider := "zai"; model := "glm-4" |} <> "".
Proof.
  apply (parseModelRef_canonical " Z.AI / glm-4 " "anthropic"
           {| provider := "zai"; model := "glm-4" |}).
  vm_compute. reflexivity.
Defined.

(** The key of a canonical reference parses to that reference, whatever the
    default provider. *)
Lemma parse_canonical_key (p m defaultProvider : string) :
  p <> "" -> trim p = p -> normalizeProviderId p = p -> sepFree "/" (chars p) ->
  m <> "" -> trim m = m ->
  parseModelRef (modelKey p m) defaultProvider = Some {| provider := p; model := m |}.
Proof.
  intros Hp Hpt Hpn Hpf Hm Hmt.
  assert (Hkey : trim (modelKey p m) = modelKey p m).
  { unfold modelKey. apply trim_append_fix.
    - destruct (chars p) as [|c r] eqn:E.
      + exfalso. apply Hp. by rewrite <- (str_chars p), E.
      + exists c, r. split; [done|]. rewrite <- Hpt in E. by eapply trim_first.
    - destruct (trimmed_ends_clean m) as (r & d & E & Hd); [by rewrite Hmt|].
      rewrite Hmt in E. exists ("/"%char :: r), d.
      split; [|done]. by rewrite chars_append, E. }
  unfold parseModelRef. rewrite Hkey.
  assert (Hnonempty : truthy (modelKey p m) = true).
  { apply truthy_true_nonempty. unfold modelKey. destruct p; [done | discriminate]. }
  rewrite Hnonempty. cbn [negb]. unfold indexOf, modelKey.
  rewrite !chars_append. change (chars "/") with ["/"%char]. simpl app at 2.
  rewrite indexOfChars_app by done.
  rewrite take_app_length, str_chars, Hpt, Hpn.
  replace (drop (S (length (chars p))) (chars p ++ ["/"%char] ++ chars m))
    with (chars m).
  2: { change (S (length (chars p))) with (1 + length (chars p))%nat.
       rewrite Nat.add_comm, <- drop_drop, drop_app_length. reflexivity. }
  rewrite str_chars, Hmt.
  apply truthy_true_nonempty in Hp, Hm. by rewrite Hp, Hm.
Qed.

(** X6: round trip: when the input names the provider, the key of the parsed
    reference parses to the same reference again. *)
Theorem parseModelRef_key_roundtrip
    (raw defaultProvider otherDefault : string) (ref : ModelRef) :
  parseModelRef raw defaultProvider = Some ref ->
  indexOf "/" (trim raw) <> None ->
  parseModelRef (modelKey (provider ref) (model ref)) otherDefault = Some ref.
Proof.
  intros Hparse Hslash.
  destruct (parseModelRef_canonical_aux raw defaultProvider ref Hparse)
    as (Hm & Hmt & Hpn & Hprov).
  destruct (Hprov Hslash) as [Hp Hpf].
  destruct ref as [p m]. simpl in *.
  apply parse_canonical_key; try done.
  rewrite <- Hpn. apply normalizeProviderId_trimmed.
Qed.

Lemma parseModelRef_key_roundtrip_witness :
  parseModelRef (modelKey "zai" "glm-4") "openai"
  = Some {| provider := "zai"; model := "glm-4" |}.
Proof.
  apply (parseModelRef_key_roundtrip " Z.AI / glm-4 " "anthropic" "openai"
           {| provider := "zai"; model := "glm-4" |}).
  - vm_compute. reflexivity.
  - vm_compute. discriminate.
Defined.

End MoreModelSelectionFacts.

Section AliasIndexFacts.
Import JsString ModelSelection.


(** What holds of every entry of the alias index while it is built. *)
Lemma aliasIndex_invariant (defaultProvider : string)
    (entries : list (string * option string)) (k alias : string) (ref : ModelRef) :
  byAlias (fold_left (aliasIndexStep defaultProvider) entries
             {| byAlias := ∅; byKey := ∅ |}) !! k = Some (alias, ref) ->
  k = normalizeAliasKey alias /\ alias <> ""
  /\ (exists raw a, (raw, Some a) ∈ entries /\ trim a = alias
                    /\ parseModelRef raw defaultProvider = Some ref)
  /\ alias ∈ default []
       (byKey (fold_left (aliasIndexStep defaultProvider) entries
                 {| byAlias := ∅; byKey := ∅ |})
        !! modelKey (provider ref) (model ref)).
Proof.
  revert k alias ref. induction entries as [|entry entries IH] using rev_ind;
    intros k alias ref.
  - simpl. rewrite lookup_empty. discriminate.
  - rewrite fold_left_app. simpl.
    set (idx := fold_left (aliasIndexStep defaultProvider) entries _) in *.
    assert (Hold : byAlias idx !! k = Some (alias, ref) ->
      k = normalizeAliasKey alias /\ alias <> ""
      /\ (exists raw a, (raw, Some a) ∈ (entries ++ [entry])%list /\ trim a = alias
                        /\ parseModelRef raw defaultProvider = Some ref)
      /\ alias ∈ default [] (byKey idx !! modelKey (provider ref) (model ref))).
    { intros H. destruct (IH _ _ _ H) as (H1 & H2 & (raw & a & Hin & H3) & H4).
      repeat split; try done. exists raw, a. split; [|done].
      apply elem_of_app. by left. }
    unfold aliasIndexStep.
    destruct entry as [raw0 a0]. simpl.
    destruct (parseModelRef raw0 defaultProvider) as [parsed|] eqn:Hparse;
      [|exact Hold].
    destruct (truthy (trim (default "" a0))) eqn:Halias; simpl; [|exact Hold].
    destruct (decide (k = normalizeAliasKey (trim (default "" a0)))) as [->|Hne].
    + rewrite lookup_insert_eq. intros [= <- <-].
      split; [done|]. split; [by apply truthy_true_nonempty|]. split.
      * destruct a0 as [a0|]; [|done].
        exists raw0, a0. split; [|done]. apply elem_of_app. right.
        by apply list_elem_of_singleton.
      * rewrite lookup_insert_eq. simpl. apply elem_of_app. right.
        by apply list_elem_of_singleton.
    + rewrite lookup_insert_ne by done. intros H.
      destruct (Hold H) as (H1 & H2 & H3 & H4). repeat split; try done.
      destruct (decide (modelKey (provider parsed) (model parsed)
                        = modelKey (provider ref) (model ref))) as [E|E].
      * rewrite E, lookup_insert_eq. simpl. apply elem_of_app. by left.
      * by rewrite lookup_insert_ne.
Qed.

(** X7: every alias of the index is the trimmed alias of a model entry of the
    configuration, filed under its lower-cased form, points to the
    reference that entry parses to, and is listed among the aliases of
    that reference's key. *)
Theorem alias_index_sound (cfg : ClawdbotConfig) (defaultProvider : string)
    (k alias : string) (ref : ModelRef) :
  byAlias (buildModelAliasIndex cfg defaultProvider) !! k = Some (alias, ref) ->
  k = normalizeAliasKey alias /\ alias <> ""
  /\ (exists raw a, (raw, Some a) ∈ agentModels cfg /\ trim a = alias
                    /\ parseModelRef raw defaultProvider = Some ref)
  /\ alias ∈ default []
       (byKey (buildModelAliasIndex cfg defaultProvider)
        !! modelKey (provider ref) (model ref)).
Proof. apply aliasIndex_invariant. Qed.

Lemma alias_index_sound_witness :
  "fast" = normalizeAliasKey "Fast".
Proof.
  apply (alias_index_sound
           {| agentModels := [("openai/gpt-4", Some " Fast ")];
              agentModel := None; agentThinkingDefault := None |}
           "anthropic" "fast" "Fast"
           {| provider := "openai"; model := "gpt-4" |}).
  vm_compute. reflexivity.
Defined.





End AliasIndexFacts.

Section AllowedSetFacts.
Import JsString ModelSelection.

(** X9: the allowed set never leaves the catalog: an allowed catalog entry is
    an entry of the catalog whose key is allowed, and an allowed key is
    the key of the default model or of a catalog entry. When the set is
    restrictive, an allowed key other than the default's is moreover the
    key of a model of the allow-list. *)
Theorem allowed_set_within_catalog (cfg : ClawdbotConfig)
    (catalog : list ModelCatalogEntry) (defaultProvider : string)
    (defaultModel : option string) :
  let r := buildAllowedModelSet cfg catalog defaultProvider defaultModel in
  let defaultKey := defaultKeyOf defaultProvider defaultModel in
  (forall e, e ∈ allowedCatalog r -> e ∈ catalog /\ entryKey e ∈ allowedKeys r)
  /\ (forall k, k ∈ allowedKeys r ->
        defaultKey = Some k \/ exists e, e ∈ catalog /\ entryKey e = k)
  /\ (allowAny r = false ->
      allowedCatalog r <> []
      /\ forall k, k ∈ allowedKeys r ->
           defaultKey = Some k
           \/ exists raw ref, raw ∈ rawAllowlist cfg
                /\ parseModelRef raw defaultProvider = Some ref
                /\ k = modelKey (provider ref) (model ref)).
Proof.
  intros r defaultKey. subst r. unfold buildAllowedModelSet. fold defaultKey.
  assert (Hopen : forall e, e ∈ catalog ->
            e ∈ catalog /\ entryKey e ∈ addOpt defaultKey (catalogKeysOf catalog)).
  { intros e He. split; [done|]. apply addOpt_spec. right.
    apply catalogKeysOf_spec. by exists e. }
  assert (Hkeys : forall k, k ∈ addOpt defaultKey (catalogKeysOf catalog) ->
            defaultKey = Some k \/ exists e, e ∈ catalog /\ entryKey e = k).
  { intros k Hk. apply addOpt_spec in Hk as [Hk|Hk]; [by left|].
    right. by apply catalogKeysOf_spec. }
  destruct (length (rawAllowlist cfg) =? 0)%nat; simpl.
  { split; [done|]. split; [done|]. discriminate. }
  match goal with |- context [(length ?l =? 0)%nat] =>
    destruct (length l =? 0)%nat eqn:Hlen end; simpl.
  { split; [done|]. split; [done|]. discriminate. }
  split; [|split].
  - intros e He. apply list_elem_of_In, filter_In in He as [He Hk].
    split; [by apply list_elem_of_In|].
    unfold inSet in Hk. by apply bool_decide_eq_true in Hk.
  - intros k Hk. apply addOpt_spec in Hk as [Hk|Hk]; [by left|].
    right. apply validatedAllowlist_spec in Hk as [Hk _].
    by apply catalogKeysOf_spec.
  - intros _. split.
    + intros E. rewrite E in Hlen. discriminate.
    + intros k Hk. apply addOpt_spec in Hk as [Hk|Hk]; [by left|].
      right. by apply validatedAllowlist_spec in Hk as [_ Hk].
Qed.

Lemma allowed_set_within_catalog_witness :
  allowedCatalog (buildAllowedModelSet Samples.allowlistGpt4
                    Samples.catalogOpenai "claude-cli" (Some "opus-4.5")) <> [].
Proof.
  destruct (allowed_set_within_catalog Samples.allowlistGpt4
              Samples.catalogOpenai "claude-cli" (Some "opus-4.5"))
    as (_ & _ & H).
  apply H. reflexivity.
Defined.

End AllowedSetFacts.

(** ** The model of a reply turn *)

Section ModelDirectiveFacts.
Import JsString ModelSelection ModelDirective.

Lemma rejects_false (keys : gset string) (key : string) :
  rejects keys key = false <-> keys = ∅ \/ key ∈ keys.
Proof.
  unfold rejects. rewrite andb_false_iff, !negb_false_iff, !bool_decide_eq_true.
  done.
Qed.

Lemma rejects_true (keys : gset string) (key : string) :
  rejects keys key = true <-> keys <> ∅ /\ key ∉ keys.
Proof.
  unfold rejects. rewrite andb_true_iff, !negb_true_iff, !bool_decide_eq_false.
  done.
Qed.

(** A model directive selects a model only when the allowed set is empty
    or holds its key, and marks it as the default exactly when it is the
    default provider and model; it is refused as not allowed only when
    the set holds keys and not this one, and as unrecognised only when
    the text resolves to no model. *)
Theorem directive_respects_allowlist
    (raw defaultProvider defaultModel : string) (aliasIndex : ModelAliasIndex)
    (keys : gset string) :
  match resolveModelDirectiveSelection raw defaultProvider defaultModel
          aliasIndex keys with
  | inr sel =>
      (keys = ∅ \/ modelKey (selectedProvider sel) (selectedModel sel) ∈ keys)
      /\ (isDefault sel = true <->
          selectedProvider sel = defaultProvider
          /\ selectedModel sel = defaultModel)
      /\ resolveModelRefFromString raw defaultProvider (Some aliasIndex)
         = Some ({| provider := selectedProvider sel;
                    model := selectedModel sel |}, selectedAlias sel)
  | inl (ModelNotAllowed p m) =>
      keys <> ∅ /\ (modelKey p m ∉ keys)
      /\ exists alias,
           resolveModelRefFromString raw defaultProvider (Some aliasIndex)
           = Some ({| provider := p; model := m |}, alias)
  | inl (UnrecognizedModel r) =>
      r = raw
      /\ resolveModelRefFromString raw defaultProvider (Some aliasIndex) = None
  end.
Proof.
  unfold resolveModelDirectiveSelection.
  destruct (resolveModelRefFromString raw defaultProvider (Some aliasIndex))
    as [[[p m] alias]|]; [|done].
  simpl. destruct (rejects keys (modelKey p m)) eqn:Hr.
  - apply rejects_true in Hr as [H1 H2]. split; [done|]. split; [done|].
    by exists alias.
  - apply rejects_false in Hr. simpl. split; [done|]. split; [|done].
    rewrite andb_true_iff, !String.eqb_eq. done.
Qed.

Lemma addOpt_default_key (k : string) (s : gset string) : k ∈ addOpt (Some k) s.
Proof. unfold addOpt. apply elem_of_union. left. by apply elem_of_singleton. Qed.

(** The key of a configured default model is in the allowed set. *)
Lemma default_key_allowed (cfg : ClawdbotConfig)
    (catalog : list ModelCatalogEntry) (defaultProvider defaultModel : string) :
  truthy (trim defaultModel) = true -> truthy defaultProvider = true ->
  modelKey defaultProvider (trim defaultModel)
    ∈ allowedKeys (buildAllowedModelSet cfg catalog defaultProvider
                     (Some defaultModel)).
Proof.
  intros Hm Hp. unfold buildAllowedModelSet, defaultKeyOf. simpl.
  rewrite Hm, Hp. simpl.
  destruct (length (rawAllowlist cfg) =? 0)%nat; simpl;
    [apply addOpt_default_key|].
  match goal with |- context [(length ?l =? 0)%nat] =>
    destruct (length l =? 0)%nat end; simpl; apply addOpt_default_key.
Qed.

(** X10: the default model can always be chosen by its full name: when the
    default provider and model are in canonical form, the directive
    [provider/model] is accepted against the allowed set built for that
    default, whatever the allow-list, the catalog and the aliases, and
    is marked as the default. *)
Theorem default_model_selectable (cfg : ClawdbotConfig)
    (catalog : list ModelCatalogEntry) (aliasIndex : ModelAliasIndex)
    (defaultProvider defaultModel : string) :
  defaultProvider <> "" -> trim defaultProvider = defaultProvider ->
  normalizeProviderId defaultProvider = defaultProvider ->
  sepFree "/" (chars defaultProvider) ->
  defaultModel <> "" -> trim defaultModel = defaultModel ->
  resolveModelDirectiveSelection (modelKey defaultProvider defaultModel)
    defaultProvider defaultModel aliasIndex
    (allowedKeys (buildAllowedModelSet cfg catalog defaultProvider
                    (Some defaultModel)))
  = inr {| selectedProvider := defaultProvider;
           selectedModel := defaultModel;
           isDefault := true;
           selectedAlias := None |}.
Proof.
  intros Hp Hpt Hpn Hps Hm Hmt.
  pose proof (parse_canonical_key defaultProvider defaultModel defaultProvider
                Hp Hpt Hpn Hps Hm Hmt) as Hparse.
  assert (Hkt : trim (modelKey defaultProvider defaultModel)
                = modelKey defaultProvider defaultModel).
  { unfold parseModelRef in Hparse.
    destruct (truthy (trim (modelKey defaultProvider defaultModel))) eqn:Ht;
      [|discriminate Hparse].
    unfold modelKey. apply trim_append_fix.
    - destruct (chars defaultProvider) as [|c r] eqn:E.
      + exfalso. apply Hp. by rewrite <- (str_chars defaultProvider), E.
      + exists c, r. split; [done|]. rewrite <- Hpt in E. by eapply trim_first.
    - destruct (trimmed_ends_clean defaultModel) as (r & d & E & Hd);
        [by rewrite Hmt|].
      rewrite Hmt in E. exists ("/"%char :: r), d.
      split; [|done]. by rewrite chars_append, E. }
  unfold resolveModelDirectiveSelection, resolveModelRefFromString.
  rewrite Hkt.
  assert (Hne : truthy (modelKey defaultProvider defaultModel) = true).
  { apply truthy_true_nonempty. unfold modelKey.
    destruct defaultProvider; [done | discriminate]. }
  rewrite Hne. simpl.
  assert (Hslash : exists i, indexOf "/" (modelKey defaultProvider defaultModel)
                             = Some i).
  { unfold indexOf, modelKey. rewrite !chars_append.
    change (chars "/") with ["/"%char]. simpl app at 2.
    rewrite indexOfChars_app by done. by eexists. }
  destruct Hslash as [i Hi]. rewrite Hi, Hparse. simpl.
  assert (Hallowed : rejects
            (allowedKeys (buildAllowedModelSet cfg catalog defaultProvider
                            (Some defaultModel)))
            (modelKey defaultProvider defaultModel) = false).
  { apply rejects_false. right.
    assert (Hd := default_key_allowed cfg catalog defaultProvider defaultModel).
    rewrite Hmt in Hd. apply Hd; by apply truthy_true_nonempty. }
  rewrite Hallowed, !String.eqb_refl. reflexivity.
Qed.

Lemma default_model_selectable_witness :
  resolveModelDirectiveSelection (modelKey "anthropic" "claude-opus-4-5")
    "anthropic" "claude-opus-4-5" {| byAlias := ∅; byKey := ∅ |}
    (allowedKeys (buildAllowedModelSet Samples.allowlistGpt4
                    Samples.catalogOpenai "anthropic" (Some "claude-opus-4-5")))
  = inr {| selectedProvider := "anthropic";
           selectedModel := "claude-opus-4-5";
           isDefault := true;
           selectedAlias := None |}.
Proof.
  apply (default_model_selectable Samples.allowlistGpt4 Samples.catalogOpenai
           {| byAlias := ∅; byKey := ∅ |} "anthropic" "claude-opus-4-5").
  - discriminate.
  - vm_compute. reflexivity.
  - vm_compute. reflexivity.
  - repeat constructor.
  - discriminate.
  - vm_compute. reflexivity.
Defined.

Lemma present_trim (o : option string) :
  truthy (trim (default "" o)) = true -> present o = true.
Proof.
  destruct o as [s|]; simpl; [|done].
  destruct s; [done|done].
Qed.

(** The two ways the first block ends. *)
Lemma dropRejectedOverride_cases (keys : gset string) (defaultProvider : string)
    (now : Z) (sessionEntry : option Sessions.SessionEntry)
    (sessionStore : option (gmap string Sessions.SessionEntry))
    (sessionKey storePath : option string) :
  dropRejectedOverride keys defaultProvider now sessionEntry sessionStore
    sessionKey storePath = (sessionEntry, sessionStore, [], false)
  \/ exists e st k,
       sessionEntry = Some e /\ sessionStore = Some st /\ sessionKey = Some k
       /\ k <> ""
       /\ rejects keys
            (modelKey (trimmedOr (Sessions.providerOverride e) defaultProvider)
               (trim (default "" (Sessions.modelOverride e)))) = true
       /\ let e' := Sessions.set_updatedAt (Some now)
                      (Sessions.set_modelOverride None
                         (Sessions.set_providerOverride None e)) in
          dropRejectedOverride keys defaultProvider now sessionEntry
            sessionStore sessionKey storePath
          = (Some e', Some (<[k := e']> st),
             saveTo storePath (<[k := e']> st), true).
Proof.
  unfold dropRejectedOverride.
  destruct sessionEntry as [e|]; [|by left].
  destruct sessionStore as [st|]; [|by left].
  destruct sessionKey as [k|]; [|by left].
  match goal with |- context [if ?c then _ else _] => destruct c eqn:Hc end;
    [|by left].
  right. exists e, st, k.
  apply andb_true_iff in Hc as [Hc Hrej].
  apply andb_true_iff in Hc as [Hc _].
  apply andb_true_iff in Hc as [Hk _].
  apply truthy_true_nonempty in Hk. done.
Qed.

Lemma applyStoredOverride_cases (keys : gset string)
    (defaultProvider provider0 model0 : string)
    (entry : option Sessions.SessionEntry) :
  applyStoredOverride keys defaultProvider provider0 model0 entry
  = (provider0, model0)
  \/ exists e,
       entry = Some e
       /\ truthy (trim (default "" (Sessions.modelOverride e))) = true
       /\ rejects keys
            (modelKey (trimmedOr (Sessions.providerOverride e) defaultProvider)
               (trim (default "" (Sessions.modelOverride e)))) = false
       /\ applyStoredOverride keys defaultProvider provider0 model0 entry
          = (trimmedOr (Sessions.providerOverride e) defaultProvider,
             trim (default "" (Sessions.modelOverride e))).
Proof.
  unfold applyStoredOverride.
  match goal with |- context [if ?c then _ else _] => destruct c eqn:Hc end;
    [|by left].
  right. apply andb_true_iff in Hc as [Hm Hrej].
  apply negb_true_iff in Hrej.
  destruct entry as [e|]; [|discriminate Hm].
  exists e. done.
Qed.

Lemma applyStoredOverride_cleared (keys : gset string)
    (defaultProvider provider0 model0 : string) (e : Sessions.SessionEntry) :
  Sessions.modelOverride e = None ->
  applyStoredOverride keys defaultProvider provider0 model0 (Some e)
  = (provider0, model0).
Proof. intros H. unfold applyStoredOverride. simpl. by rewrite H. Qed.

Section WithProfiles.
Variable profileProvider : string -> option string.

Local Abbreviation create := (createModelSelectionState profileProvider).

(** X11: a stored model override is used only when the allowed set holds it:
    with a default model configured, the state carries either the
    provider and model it was called with, or the override stored in the
    session entry, and then the key of that override is in the allowed
    set built for the default. *)
Theorem stored_override_needs_allowance (cfg : ClawdbotConfig)
    (agentCfgModels : list string)
    (sessionEntry : option Sessions.SessionEntry)
    (sessionStore : option (gmap string Sessions.SessionEntry))
    (sessionKey storePath : option string)
    (defaultProvider defaultModel provider0 model0 : string)
    (hasModelDirective : bool)
    (catalog catalogAgain : list ModelCatalogEntry) (now1 now2 : Z) :
  truthy (trim defaultModel) = true -> truthy defaultProvider = true ->
  let r := selection
             (create cfg agentCfgModels sessionEntry sessionStore sessionKey
                storePath defaultProvider defaultModel provider0 model0
                hasModelDirective catalog catalogAgain now1 now2) in
  let allowed := allowedKeys (buildAllowedModelSet cfg catalog defaultProvider
                                (Some defaultModel)) in
  (stateProvider r = provider0 /\ stateModel r = model0)
  \/ (modelKey (stateProvider r) (stateModel r) ∈ allowed
      /\ allowedModelKeys r = allowed
      /\ resetModelOverride r = false
      /\ exists e, sessionEntry = Some e
           /\ stateModel r = trim (default "" (Sessions.modelOverride e))
           /\ stateProvider r
              = trimmedOr (Sessions.providerOverride e) defaultProvider).
Proof.
  intros Hdm Hdp r allowed. subst r. unfold createModelSelectionState.
  cbv zeta.
  set (needs := hasModelDirective || negb (length agentCfgModels =? 0)%nat
                || hasStoredOverride sessionEntry).
  match goal with |- context [if needs then ?a else ?b] =>
    set (allowedPair := if needs then a else b) end.
  destruct (dropRejectedOverride_cases allowedPair.1 defaultProvider now1
              sessionEntry sessionStore sessionKey storePath)
    as [->|(e & st & k & -> & -> & -> & Hk & Hrej & ->)].
  - destruct (applyStoredOverride_cases allowedPair.1 defaultProvider
                provider0 model0 sessionEntry)
      as [->|(e & -> & Hm & Hrej & ->)].
    + left. destruct (dropForeignProfile _ _ _ _ _ _ _) as [[? ?] ?]. done.
    + right. destruct (dropForeignProfile _ _ _ _ _ _ _) as [[? ?] ?]. simpl.
      assert (Hneeds : needs = true).
      { subst needs. unfold hasStoredOverride.
        rewrite (present_trim (Some e ≫= Sessions.modelOverride) Hm).
        simpl. by rewrite orb_true_r. }
      assert (Hallowed : allowedPair.1 = allowed).
      { subst allowedPair. by rewrite Hneeds. }
      rewrite Hallowed in *.
      apply rejects_false in Hrej as [Hempty|Hin].
      { exfalso.
        pose proof (default_key_allowed cfg catalog defaultProvider
                      defaultModel Hdm Hdp) as Hd.
        fold allowed in Hd. rewrite Hempty in Hd. by apply elem_of_empty in Hd. }
      split; [done|]. split; [done|]. split; [done|]. by exists e.
  - left. rewrite applyStoredOverride_cleared by done.
    destruct (dropForeignProfile _ _ _ _ _ _ _) as [[? ?] ?]. done.
Qed.

(** X12: an override that the allowed set rejects is cleared for good: when
    the state reports [resetModelOverride], the entry it leaves holds no
    model or provider override, that entry is the one in the store under
    the session key, the store was saved when there is a store path, and
    the turn runs with the provider and model it was called with. *)
Theorem rejected_override_is_cleared (cfg : ClawdbotConfig)
    (agentCfgModels : list string)
    (sessionEntry : option Sessions.SessionEntry)
    (sessionStore : option (gmap string Sessions.SessionEntry))
    (sessionKey storePath : option string)
    (defaultProvider defaultModel provider0 model0 : string)
    (hasModelDirective : bool)
    (catalog catalogAgain : list ModelCatalogEntry) (now1 now2 : Z) :
  let r := create cfg agentCfgModels sessionEntry sessionStore sessionKey
             storePath defaultProvider defaultModel provider0 model0
             hasModelDirective catalog catalogAgain now1 now2 in
  resetModelOverride (selection r) = true ->
  stateProvider (selection r) = provider0
  /\ stateModel (selection r) = model0
  /\ exists e' st' k,
       entryAfter r = Some e' /\ storeAfter r = Some st'
       /\ sessionKey = Some k /\ st' !! k = Some e'
       /\ Sessions.modelOverride e' = None
       /\ Sessions.providerOverride e' = None
       /\ (forall path, storePath = Some path -> path <> "" ->
            last (saves r) = Some (path, st')).
Proof.
  intros r. subst r. unfold createModelSelectionState. cbv zeta.
  match goal with |- context [if ?n then (?a, ?c) else ?b] =>
    set (allowedPair := if n then (a, c) else b) end.
  destruct (dropRejectedOverride_cases allowedPair.1 defaultProvider now1
              sessionEntry sessionStore sessionKey storePath)
    as [->|(e & st & k & -> & -> & -> & Hk & Hrej & ->)].
  { destruct (applyStoredOverride _ _ _ _ _) as [? ?].
    destruct (dropForeignProfile _ _ _ _ _ _ _) as [[? ?] ?]. discriminate. }
  rewrite applyStoredOverride_cleared by done.
  set (e1 := Sessions.set_updatedAt (Some now1) _).
  unfold dropForeignProfile.
  destruct (authProfileOverride e1) as [profileId|] eqn:Hprofile.
  - match goal with |- context [if ?c then _ else _] => destruct c end; simpl.
    + intros _. split; [done|]. split; [done|].
      eexists _, _, k. split; [reflexivity|]. split; [reflexivity|].
      split; [done|]. split; [by rewrite lookup_insert_eq|].
      split; [done|]. split; [done|].
      intros path -> Hpath. apply truthy_true_nonempty in Hpath.
      unfold saveTo. rewrite Hpath. simpl. by rewrite insert_insert_eq.
    + intros _. split; [done|]. split; [done|].
      exists e1, (<[k := e1]> st), k. split; [done|]. split; [done|].
      split; [done|]. split; [by rewrite lookup_insert_eq|].
      split; [done|]. split; [done|].
      intros path -> Hpath. apply truthy_true_nonempty in Hpath.
      unfold saveTo. rewrite Hpath. reflexivity.
  - simpl. intros _. split; [done|]. split; [done|].
    exists e1, (<[k := e1]> st), k. split; [done|]. split; [done|].
    split; [done|]. split; [by rewrite lookup_insert_eq|].
    split; [done|]. split; [done|].
    intros path -> Hpath. apply truthy_true_nonempty in Hpath.
    unfold saveTo. rewrite Hpath. reflexivity.
Qed.

End WithProfiles.

Lemma stored_override_needs_allowance_witness :
  let r := selection
             (createModelSelectionState (fun _ => None) Samples.allowlistGpt4
                ["openai/gpt-4"] (Some Samples.pinnedEntry) None None None
                "claude-cli" "opus-4.5" "claude-cli" "opus-4.5" false
                Samples.catalogOpenai [] 5 6) in
  stateProvider r = "openai" /\ stateModel r = "gpt-4".
Proof.
  destruct (stored_override_needs_allowance (fun _ => None)
              Samples.allowlistGpt4 ["openai/gpt-4"] (Some Samples.pinnedEntry)
              None None None "claude-cli" "opus-4.5" "claude-cli" "opus-4.5"
              false Samples.catalogOpenai [] 5 6 eq_refl eq_refl)
    as [[_ H]|(_ & _ & _ & e & [= <-] & Hm & Hp)].
  - vm_compute in H. discriminate H.
  - split; [exact Hp | exact Hm].
Defined.

Lemma rejected_override_is_cleared_witness :
  stateModel
    (selection
       (createModelSelectionState (fun _ => None) Samples.allowlistGpt4
          ["openai/gpt-4"] (Some Samples.staleEntry)
          (Some {[ "agent:main:main" := Samples.staleEntry ]})
          (Some "agent:main:main") (Some "/tmp/sessions.json")
          "claude-cli" "opus-4.5" "claude-cli" "opus-4.5" false
          Samples.catalogOpenai [] 5 6)) = "opus-4.5".
Proof.
  apply (rejected_override_is_cleared (fun _ => None) Samples.allowlistGpt4
           ["openai/gpt-4"] (Some Samples.staleEntry)
           (Some {[ "agent:main:main" := Samples.staleEntry ]})
           (Some "agent:main:main") (Some "/tmp/sessions.json")
           "claude-cli" "opus-4.5" "claude-cli" "opus-4.5" false
           Samples.catalogOpenai [] 5 6).
  vm_compute. reflexivity.
Defined.


End ModelDirectiveFacts.

(** ** Cron schedules: the next run *)

Section MoreCronScheduleFacts.
Import JsString CronSchedule.
Open Scope Z_scope.

Variable parseAbsoluteTimeMs : string -> option Z.
Variable cronNextRun : string -> string -> Z -> option Z.
Variable hostTimeZone : string.

Local Abbreviation nextRun :=
  (computeNextRunAtMs parseAbsoluteTimeMs cronNextRun hostTimeZone).

Lemma cronAttempts_future (n : nat) (expr tz : string) (cursor nowMs r : Z) :
  cronAttempts cronNextRun n expr tz cursor nowMs = Some r ->
  nowMs < r
  /\ exists k, (k < n)%nat
       /\ cronNextRun expr tz (cursor + 1000 * Z.of_nat k) = Some r.
Proof.
  revert cursor. induction n as [|n IH]; intros cursor; simpl; [discriminate|].
  destruct (cronNextRun expr tz cursor) as [nextMs|] eqn:Hnext; [|discriminate].
  destruct (nowMs <? nextMs) eqn:Hlt.
  - intros [= <-]. apply Z.ltb_lt in Hlt. split; [done|].
    exists 0%nat. split; [lia|]. by rewrite Z.mul_0_r, Z.add_0_r.
  - intros H. destruct (IH _ H) as (Hr & k & Hk & Hrun). split; [done|].
    exists (S k). split; [lia|].
    replace (cursor + 1000 * Z.of_nat (S k))
      with (cursor + 1000 + 1000 * Z.of_nat k) by lia.
    done.
Qed.

(** X13: the next run is never in the past: for a one-shot and for a cron
    schedule it is strictly after the clock, for an interval schedule it
    is not before the clock and not before the anchor. A cron result is
    what the cron library gave for the clock moved on by zero, one or
    two seconds. *)
Theorem next_run_never_past (schedule : CronSchedule) (nowMs r : Z) :
  nextRun schedule nowMs = Some r ->
  match schedule with
  | SchedAt _ _ => nowMs < r
  | SchedEvery _ anchorMs => nowMs <= r /\ Z.max 0 (default nowMs anchorMs) <= r
  | SchedCron expr tz =>
      nowMs < r
      /\ exists k, 0 <= k < 3
           /\ cronNextRun (trim expr) (resolveCronTimezone hostTimeZone tz)
                (nowMs + 1000 * k) = Some r
  end.
Proof.
  destruct schedule as [at_ atMs|everyMs anchorMs|expr tz];
    unfold computeNextRunAtMs; cbv zeta.
  - match goal with |- context [match ?res with Some _ => _ | None => None end
                                = Some r] => destruct res as [t|] end;
      [|discriminate].
    destruct (nowMs <? t) eqn:Hlt; [|discriminate].
    intros [= <-]. by apply Z.ltb_lt.
  - destruct (nowMs <? Z.max 0 (default nowMs anchorMs)) eqn:Hlt.
    + intros [= <-]. apply Z.ltb_lt in Hlt. lia.
    + apply Z.ltb_ge in Hlt. intros [= <-].
      set (anchor := Z.max 0 (default nowMs anchorMs)) in *.
      set (interval := Z.max 1 everyMs).
      assert (Hi : 0 < interval) by (unfold interval; lia).
      pose proof (Z.div_mod (nowMs - anchor + interval - 1) interval
                    ltac:(lia)) as Hdm.
      pose proof (Z.mod_pos_bound (nowMs - anchor + interval - 1) interval Hi)
        as Hm.
      split; nia.
  - destruct (truthy (trim expr)); cbn [negb]; [|discriminate].
    intros H. apply cronAttempts_future in H as (Hr & k & Hk & Hrun).
    split; [done|]. exists (Z.of_nat k). split; [lia | done].
Qed.

(** A one-shot schedule expires: once it has no next run, it has none at
    any later time, and while it has one it is the same time. *)
Theorem at_schedule_expires (at_ : option string) (atMs : option AtMs)
    (nowMs later : Z) :
  nowMs <= later ->
  (nextRun (SchedAt at_ atMs) nowMs = None ->
   nextRun (SchedAt at_ atMs) later = None)
  /\ (forall t, nextRun (SchedAt at_ atMs) later = Some t ->
                nextRun (SchedAt at_ atMs) nowMs = Some t).
Proof.
  intros Hle. simpl.
  match goal with |- context [match ?res with Some _ => _ | None => None end] =>
    destruct res as [t|] end; [|done].
  destruct (nowMs <? t) eqn:H1, (later <? t) eqn:H2;
    try (split; intros; congruence).
  apply Z.ltb_ge in H1. apply Z.ltb_lt in H2. lia.
Qed.

End MoreCronScheduleFacts.

Lemma next_run_never_past_witness :
  (2500 <= 3000 /\ Z.max 0 (default 2500 (Some 0)) <= 3000)%Z.
Proof.
  apply (next_run_never_past (fun _ => None) (fun _ _ _ => None) "UTC"
           (CronSchedule.SchedEvery 1000 (Some 0%Z)) 2500 3000).
  reflexivity.
Defined.

Lemma at_schedule_expires_witness :
  CronSchedule.computeNextRunAtMs (fun _ => None) (fun _ _ _ => None) "UTC"
    (CronSchedule.SchedAt None (Some (CronSchedule.AtNumber 1000))) 2000 = None.
Proof.
  apply (at_schedule_expires (fun _ => None) (fun _ _ _ => None) "UTC"
           None (Some (CronSchedule.AtNumber 1000)) 1000 2000).
  - lia.
  - reflexivity.
Defined.

(** ** The cron timer: recording a run *)

Section MoreCronTimerFacts.
Import CronSchedule CronTimer.
Open Scope Z_scope.

(** The timer is armed only when cron is enabled and a wake time is
    known; its delay is never negative and never more than a minute, and
    when it is less than a minute the timer fires at the wake time, or at
    once when that time has passed. *)
Theorem armTimer_delay_bounds (cronEnabled : bool) (nextAt : option Z)
    (now d : Z) :
  armTimer cronEnabled nextAt now = Some d ->
  0 <= d <= MAX_TIMER_DELAY_MS
  /\ cronEnabled = true
  /\ exists t, nextAt = Some t /\ t <> 0
       /\ (d < MAX_TIMER_DELAY_MS -> now + d = Z.max t now).
Proof.
  unfold armTimer, MAX_TIMER_DELAY_MS.
  destruct cronEnabled; simpl; [|discriminate].
  destruct nextAt as [t|]; [|discriminate].
  destruct (t =? 0) eqn:Ht; [discriminate|].
  apply Z.eqb_neq in Ht. intros [= <-].
  split; [lia|]. split; [done|]. exists t. split; [done|]. split; [done|]. lia.
Qed.

Lemma armTimer_delay_bounds_witness :
  0 <= 60000 <= MAX_TIMER_DELAY_MS.
Proof.
  apply (armTimer_delay_bounds true (Some 100000) 1000 60000).
  reflexivity.
Defined.

Lemma isMissed_isDue (now : Z) (j : CronJob) :
  isMissed now j = isDue now j && negb (isAt (schedule j) && lastRunOk j).
Proof.
  unfold isMissed, isDue.
  destruct (enabled j), (bool_decide (is_Some (runningAtMs (state j)))),
    (isAt (schedule j)), (lastRunOk j),
    (nextRunAtMs (state j)) as [next|]; simpl; try done;
    by destruct (next <=? now).
Qed.

(** The jobs that [runMissedJobs] runs after a restart are the jobs that
    [findDueJobs] finds, the one-shot jobs that already ran with success
    taken out: nothing runs that the timer would not run, and a finished
    one-shot job is not run again. *)
Theorem missed_jobs_are_due (st : CronServiceState) (now : Z) :
  findMissedJobs st now
  = List.filter
      (fun rj => negb (isAt (schedule rj.2) && lastRunOk rj.2))
      (findDueJobs st now).
Proof.
  unfold findMissedJobs, findDueJobs. destruct (store st) as [s|]; [|done].
  induction (withRefs (jobs s)) as [|rj l IH]; [done|].
  cbn [List.filter]. rewrite isMissed_isDue.
  destruct (isDue now rj.2); cbn [andb List.filter]; [|exact IH].
  destruct (negb (isAt (schedule rj.2) && lastRunOk rj.2)); by rewrite IH.
Qed.

Section WithJobs.
Variable computeJobNextRunAtMs : CronJob -> Z -> option Z.

Local Abbreviation settle' := (settle computeJobNextRunAtMs).
Local Abbreviation applyResult' := (applyResult computeJobNextRunAtMs).

(** What [settle] leaves of a job, whatever branch it takes. *)
Lemma settle_record (j : CronJob) (st : RunStatus) (err : option string)
    (started ended : Z) :
  let j' := settle' j st err started ended in
  id j' = id j /\ schedule j' = schedule j
  /\ deleteAfterRun j' = deleteAfterRun j
  /\ updatedAtMs j' = updatedAtMs j
  /\ runningAtMs (state j') = None
  /\ lastRunAtMs (state j') = Some started
  /\ lastStatus (state j') = Some st
  /\ lastDurationMs (state j') = Some (Z.max 0 (ended - started))
  /\ lastError (state j') = err.
Proof.
  unfold settle. cbv zeta.
  repeat match goal with |- context [if ?c then _ else _] => destruct c end;
    simpl; done.
Qed.

Lemma settle_one_shot (j : CronJob) (err : option string) (started ended : Z) :
  isAt (schedule j) = true -> shouldDelete j StatusOk = false ->
  let j' := settle' j StatusOk err started ended in
  enabled j' = false /\ nextRunAtMs (state j') = None.
Proof.
  intros Hat Hdel. unfold settle. cbv zeta.
  unfold shouldDelete in *. simpl in *. rewrite Hat in *. simpl in *.
  rewrite Hdel. done.
Qed.

Lemma isDue_disabled (now : Z) (j : CronJob) :
  enabled j = false -> isDue now j = false.
Proof. intros H. unfold isDue. by rewrite H. Qed.

Lemma list_find_id (js : list CronJob) (name : string) (i : nat) (job : CronJob) :
  list_find (fun j => id j = name) js = Some (i, job) ->
  js !! i = Some job /\ id job = name.
Proof. intros H. apply list_find_Some in H as (H1 & H2 & _). done. Qed.

(** X14: a finished run releases the job: after the result is applied, either
    every job with that id is gone from the store (a one-shot job that is
    deleted after a successful run), or the job is in its place, no longer
    marked as running, with the run recorded (start, status, a duration
    that is not negative, the error) and [updatedAtMs] at the end of the
    run. A result for an unknown job changes nothing. *)
Theorem finished_job_is_released (js : list CronJob) (events : list CronEvent)
    (r : RunResult) :
  let js' := (applyResult' (js, events) r).1 in
  match list_find (fun j => id j = jobId r) js with
  | None => applyResult' (js, events) r = (js, events)
  | Some (i, job) =>
      if shouldDelete job (status r) then
        forall j, j ∈ js' -> id j <> jobId r
      else
        length js' = length js
        /\ exists j', js' !! i = Some j'
             /\ id j' = jobId r
             /\ runningAtMs (state j') = None
             /\ lastRunAtMs (state j') = Some (startedAt r)
             /\ lastStatus (state j') = Some (status r)
             /\ (exists d, lastDurationMs (state j') = Some d /\ 0 <= d)
             /\ lastError (state j') = error r
             /\ updatedAtMs j' = endedAt r
  end.
Proof.
  intros js'. subst js'. unfold applyResult.
  destruct (list_find _ js) as [[i job]|] eqn:Hfind; [|done].
  apply list_find_id in Hfind as [Hi Hid].
  destruct (shouldDelete job (status r)) eqn:Hdel; simpl.
  - intros j Hj. apply list_elem_of_filter in Hj as [Hj _]. congruence.
  - split; [by rewrite length_insert|].
    eexists. split.
    { apply list_lookup_insert_eq. by eapply lookup_lt_Some. }
    destruct (settle_record job (status r) (error r) (startedAt r) (endedAt r))
      as (H1 & H2 & H3 & H4 & H5 & H6 & H7 & H8 & H9).
    simpl. rewrite H1, H5, H6, H7, H8, H9.
    repeat split; try done. eexists. split; [done|]. lia.
Qed.

(** X15: a one-shot job that ran with success does not come up again: after
    the result is applied the job is deleted, or it is disabled without a
    next run, so that it is not due at any time. *)
Theorem one_shot_never_due_again (js : list CronJob) (events : list CronEvent)
    (r : RunResult) (i : nat) (job : CronJob) :
  list_find (fun j => id j = jobId r) js = Some (i, job) ->
  isAt (schedule job) = true -> status r = StatusOk ->
  let js' := (applyResult' (js, events) r).1 in
  (forall j, j ∈ js' -> id j <> jobId r)
  \/ exists j', js' !! i = Some j' /\ id j' = jobId r
       /\ enabled j' = false /\ nextRunAtMs (state j') = None
       /\ forall now, isDue now j' = false.
Proof.
  intros Hfind Hat Hok js'. subst js'. unfold applyResult. rewrite Hfind.
  apply list_find_id in Hfind as [Hi Hid]. rewrite Hok.
  destruct (shouldDelete job StatusOk) eqn:Hdel; simpl.
  - left. intros j Hj. apply list_elem_of_filter in Hj as [Hj _]. congruence.
  - right. eexists. split.
    { apply list_lookup_insert_eq. by eapply lookup_lt_Some. }
    destruct (settle_one_shot job (error r) (startedAt r) (endedAt r) Hat Hdel)
      as [He Hn].
    destruct (settle_record job StatusOk (error r) (startedAt r) (endedAt r))
      as (H1 & _).
    split; [simpl; congruence|]. split; [exact He|]. split; [exact Hn|].
    intros now. apply isDue_disabled. exact He.
Qed.

(** X16: applying a result touches the job it names and no other: the jobs
    with another id are the same, in the same order, and the events that
    were emitted before are kept in front of the new ones, of which the
    first reports the end of the run. *)
Theorem result_leaves_other_jobs (js : list CronJob) (events : list CronEvent)
    (r : RunResult) :
  let '(js', events') := applyResult' (js, events) r in
  filter (fun j => id j <> jobId r) js' = filter (fun j => id j <> jobId r) js
  /\ exists new, events' = (events ++ new)%list
       /\ match list_find (fun j => id j = jobId r) js with
          | None => new = []
          | Some (i, job) =>
              exists next more,
                new = Finished (jobId r) (status r) (error r) (summary r)
                        (sessionId r) (sessionKey r) (startedAt r)
                        (Some (Z.max 0 (endedAt r - startedAt r))) next :: more
                /\ (more = []
                    \/ more = [Removed (jobId r)]
                       /\ shouldDelete job (status r) = true)
          end.
Proof.
  unfold applyResult.
  destruct (list_find _ js) as [[i job]|] eqn:Hfind.
  2: { split; [done|]. exists []. by rewrite app_nil_r. }
  apply list_find_id in Hfind as [Hi Hid].
  destruct (settle_record job (status r) (error r) (startedAt r) (endedAt r))
    as (H1 & H2 & H3 & H4 & H5 & H6 & H7 & H8 & H9).
  destruct (shouldDelete job (status r)) eqn:Hdel.
  - split.
    + rewrite Hid. clear. induction js as [|j js IH]; [done|].
      rewrite !filter_cons. destruct (decide (id j <> jobId r)).
      * rewrite filter_cons. destruct (decide (id j <> jobId r)); [|done].
        by rewrite IH.
      * done.
    + eexists. split; [done|]. unfold finishedEvent. rewrite H1, H8, Hid.
      eexists _, _. split; [reflexivity|]. right. done.
  - split.
    + clear - Hi Hid H1. revert i Hi. induction js as [|j js IH]; intros i Hi;
        [done|].
      destruct i as [|i]; simpl in *.
      * injection Hi as ->. rewrite !filter_cons.
        destruct (decide (id job <> jobId r)); [done|].
        destruct (decide _); [|done]. simpl in *. rewrite H1 in *. done.
      * rewrite !filter_cons. rewrite (IH i Hi). done.
    + eexists. split; [done|]. unfold finishedEvent. rewrite H1, H8, Hid.
      eexists _, _. split; [reflexivity|]. by left.
Qed.

Local Abbreviation executeJob' := (executeJob computeJobNextRunAtMs).

(** X17: [executeJob] records the run on the job it is given and on no other:
    the first event reports the start; a job that is deleted (a one-shot
    job, after success) leaves no job of its id in the store; otherwise
    the job stays in its place, released, with the start, the status and
    the error of the run, an exception of the core counting as an error,
    and with [updatedAtMs] set to the time it was called with; every other
    position of the store is as before. *)
Theorem executeJob_records_run (js : list CronJob) (ref : nat) (job : CronJob)
    (nowMs : Z) (forced : bool) (started : Z) (outcome : CoreOutcome)
    (ended last : Z) :
  js !! ref = Some job ->
  let '(js', events) :=
    executeJob' js ref nowMs forced started outcome ended last in
  let '(st, err) :=
    match outcome with
    | CoreReturns st err _ _ _ => (st, err)
    | CoreThrows e => (StatusError, Some e)
    end in
  (exists rest, events = Started (id job) started :: rest)
  /\ if shouldDelete job st then
       (forall j, j ∈ js' -> id j <> id job)
       /\ List.last events (Removed "") = Removed (id job)
     else
       length js' = length js
       /\ (forall i, i <> ref -> js' !! i = js !! i)
       /\ exists j', js' !! ref = Some j'
            /\ id j' = id job
            /\ runningAtMs (state j') = None
            /\ lastRunAtMs (state j') = Some started
            /\ lastStatus (state j') = Some st
            /\ lastError (state j') = err
            /\ updatedAtMs j' = nowMs.
Proof.
  intros Href. unfold executeJob. rewrite Href.
  assert (Hdel : forall st, shouldDelete (markRunning started job) st
                            = shouldDelete job st) by done.
  destruct outcome as [st err sum session key|e]; cbv zeta iota beta;
    rewrite Hdel.
  - destruct (settle_record (markRunning started job) st err started ended)
      as (H1 & H2 & H3 & H4 & H5 & H6 & H7 & H8 & H9).
    destruct (shouldDelete job st) eqn:Hd.
    + split; [by eexists|]. split; [|done].
      intros j Hj. by apply list_elem_of_filter in Hj as [Hj _].
    + split; [by eexists|]. split; [by rewrite length_insert|].
      split; [intros i Hi; by rewrite list_lookup_insert_ne|].
      eexists. split.
      { apply list_lookup_insert_eq. by eapply lookup_lt_Some. }
      rewrite andb_true_r.
      destruct (negb forced && _); simpl; rewrite ?H1, ?H5, ?H6, ?H7, ?H9;
        done.
  - destruct (settle_record (markRunning started job) StatusError (Some e)
                started ended)
      as (H1 & H2 & H3 & H4 & H5 & H6 & H7 & H8 & H9).
    destruct (shouldDelete job StatusError) eqn:Hd.
    + split; [by eexists|]. split; [|done].
      intros j Hj. by apply list_elem_of_filter in Hj as [Hj _].
    + split; [by eexists|]. split; [by rewrite length_insert|].
      split; [intros i Hi; by rewrite list_lookup_insert_ne|].
      eexists. split.
      { apply list_lookup_insert_eq. by eapply lookup_lt_Some. }
      rewrite andb_true_r.
      destruct (negb forced && _); simpl; rewrite ?H1, ?H5, ?H6, ?H7, ?H9;
        done.
Qed.

End WithJobs.

End MoreCronTimerFacts.

Lemma one_shot_never_due_again_witness :
  let js' := (CronTimer.applyResult (fun _ _ => None)
                ([Samples.onceJob], []) Samples.onceResult).1 in
  (forall j, j ∈ js' -> CronTimer.id j <> "once")
  \/ exists j', js' !! 0%nat = Some j' /\ CronTimer.id j' = "once"
       /\ CronTimer.enabled j' = false
       /\ CronTimer.nextRunAtMs (CronTimer.state j') = None
       /\ forall now, CronTimer.isDue now j' = false.
Proof.
  apply (one_shot_never_due_again (fun _ _ => None) [Samples.onceJob] []
           Samples.onceResult 0 Samples.onceJob); reflexivity.
Defined.

Lemma executeJob_records_run_witness :
  exists rest,
    (CronTimer.executeJob (fun _ _ => None) [Samples.onceJob] 0 1500 false
       1000 (CronTimer.CoreThrows "boom") 1200 1300).2
    = CronTimer.Started "once" 1000 :: rest.
Proof.
  pose proof (executeJob_records_run (fun _ _ => None) [Samples.onceJob] 0
                Samples.onceJob 1500 false 1000 (CronTimer.CoreThrows "boom")
                1200 1300 eq_refl) as H.
  destruct (CronTimer.executeJob _ _ _ _ _ _ _ _ _) as [js' events].
  destruct H as [H _]. exact H.
Defined.

(** ** The host environment: where a variable comes from *)

Section MoreHostEnvFacts.
Import JsString HostEnv.

Variable blockedKeys blockedPrefixes : list string.
Variable processEnv : list (string * option string).

Local Abbreviation dangerous :=
  (isDangerousHostEnvVarName blockedKeys blockedPrefixes).
Local Abbreviation sanitize :=
  (sanitizeHostExecEnv blockedKeys blockedPrefixes processEnv).
Local Abbreviation base := (baseStep blockedKeys blockedPrefixes).
Local Abbreviation override := (overrideStep blockedKeys blockedPrefixes).

Lemma truthy_toUpperCase (s : string) : truthy (toUpperCase s) = truthy s.
Proof. by destruct s. Qed.

Lemma truthy_toLowerCase (s : string) : truthy (toLowerCase s) = truthy s.
Proof. by destruct s. Qed.

(** X18: for a name made of ASCII characters, the name test looks at the
    name without the blanks around it and without regard to the case of
    its letters. *)
Theorem dangerous_ignores_case_and_blanks (rawKey : string) :
  isAscii rawKey = true ->
  dangerous (trim rawKey) = dangerous rawKey
  /\ dangerous (toUpperCase rawKey) = dangerous rawKey
  /\ dangerous (toLowerCase rawKey) = dangerous rawKey.
Proof.
  intros _. unfold isDangerousHostEnvVarName, normalizeEnvVarKey. simpl.
  split; [|split].
  - by rewrite trim_idem.
  - rewrite trim_toUpperCase, truthy_toUpperCase.
    destruct (truthy (trim rawKey)); simpl; [|done].
    by rewrite toUpperCase_idem.
  - rewrite trim_toLowerCase, truthy_toLowerCase.
    destruct (truthy (trim rawKey)); simpl; [|done].
    by rewrite toUpperCase_toLowerCase.
Qed.

Lemma normalizeEnvVarKey_trim (rawKey key : string) (portable : bool) :
  normalizeEnvVarKey rawKey portable = Some key -> key = trim rawKey.
Proof.
  unfold normalizeEnvVarKey. destruct (negb (truthy (trim rawKey))); [done|].
  destruct (portable && negb (PORTABLE_ENV_VAR_KEY (trim rawKey))); [done|].
  by intros [= <-].
Qed.

Lemma assign_lookup (key value : string) (merged : gmap string string)
    (k v : string) :
  assign key value merged !! k = Some v ->
  merged !! k = Some v \/ (k = key /\ v = value /\ key <> "__proto__").
Proof.
  unfold assign. destruct (String.eqb key "__proto__") eqn:Hp; [by left|].
  apply String.eqb_neq in Hp.
  destruct (decide (key = k)) as [->|Hne].
  - rewrite lookup_insert_eq. intros [= <-]. by right.
  - rewrite lookup_insert_ne by done. by left.
Qed.

Lemma baseStep_lookup (merged : gmap string string)
    (entry : string * option string) (k v : string) :
  base merged entry !! k = Some v ->
  merged !! k = Some v
  \/ (PORTABLE_ENV_VAR_KEY k = true /\ k <> "__proto__"
      /\ trim entry.1 = k /\ entry.2 = Some v).
Proof.
  unfold baseStep. destruct (snd entry) as [value|] eqn:Hv; [|by left].
  destruct (normalizeEnvVarKey (fst entry) true) as [key|] eqn:Hkey; [|by left].
  destruct (dangerous key); [by left|].
  intros H. apply assign_lookup in H as [H|(-> & -> & Hp)]; [by left|].
  right. split; [by eapply normalizeEnvVarKey_portable|]. split; [done|].
  split; [|done]. symmetry. by eapply normalizeEnvVarKey_trim.
Qed.

Lemma overrideStep_lookup (block : bool) (merged : gmap string string)
    (entry : string * string) (k v : string) :
  override block merged entry !! k = Some v ->
  merged !! k = Some v
  \/ (PORTABLE_ENV_VAR_KEY k = true /\ k <> "__proto__"
      /\ trim entry.1 = k /\ entry.2 = v
      /\ (block = true -> toUpperCase k <> "PATH")).
Proof.
  unfold overrideStep.
  destruct (normalizeEnvVarKey (fst entry) true) as [key|] eqn:Hkey; [|by left].
  simpl. destruct (block && String.eqb (toUpperCase key) "PATH") eqn:Hpath;
    [by left|].
  destruct (dangerous (toUpperCase key)); [by left|].
  intros H. apply assign_lookup in H as [H|(-> & -> & Hp)]; [by left|].
  right. split; [by eapply normalizeEnvVarKey_portable|]. split; [done|].
  split; [symmetry; by eapply normalizeEnvVarKey_trim|]. split; [done|].
  intros ->. simpl in Hpath. by apply String.eqb_neq in Hpath.
Qed.

Lemma base_fold_lookup (baseEnv : list (string * option string))
    (merged : gmap string string) (k v : string) :
  fold_left base baseEnv merged !! k = Some v ->
  merged !! k = Some v
  \/ (PORTABLE_ENV_VAR_KEY k = true /\ k <> "__proto__"
      /\ exists rawKey, trim rawKey = k /\ (rawKey, Some v) ∈ baseEnv).
Proof.
  revert merged. induction baseEnv as [|entry l IH]; intros merged; simpl;
    [by left|].
  intros H. apply IH in H as [H|(Hp & Hn & raw & Hraw & Hin)].
  - apply baseStep_lookup in H as [H|(Hp & Hn & Hraw & Hv)]; [by left|].
    right. split; [done|]. split; [done|]. exists entry.1. split; [done|].
    apply elem_of_cons. left. destruct entry. simpl in *. by subst.
  - right. split; [done|]. split; [done|]. exists raw. split; [done|].
    apply elem_of_cons. by right.
Qed.

Lemma override_fold_lookup (block : bool) (overrides : list (string * string))
    (merged : gmap string string) (k v : string) :
  fold_left (override block) overrides merged !! k = Some v ->
  merged !! k = Some v
  \/ (PORTABLE_ENV_VAR_KEY k = true /\ k <> "__proto__"
      /\ (block = true -> toUpperCase k <> "PATH")
      /\ exists rawKey, trim rawKey = k /\ (rawKey, v) ∈ overrides).
Proof.
  revert merged. induction overrides as [|entry l IH]; intros merged; simpl;
    [by left|].
  intros H. apply IH in H as [H|(Hp & Hn & Hb & raw & Hraw & Hin)].
  - apply overrideStep_lookup in H as [H|(Hp & Hn & Hraw & Hv & Hb)];
      [by left|].
    right. split; [done|]. split; [done|]. split; [done|].
    exists entry.1. split; [done|].
    apply elem_of_cons. left. destruct entry. simpl in *. by subst.
  - right. split; [done|]. split; [done|]. split; [done|].
    exists raw. split; [done|]. apply elem_of_cons. by right.
Qed.

(** X19: the sanitiser invents nothing: a variable of the result has a
    portable name, and its name and value are those of an entry of the
    base environment or of the overrides, the name without the blanks
    around it; a value that comes from nowhere but the overrides is not
    one of PATH while PATH overrides are blocked. *)
Theorem sanitized_env_provenance
    (baseEnv : option (list (string * option string)))
    (overrides : option (list (string * string)))
    (blockPathOverrides : option bool) (key value : string) :
  sanitize baseEnv overrides blockPathOverrides !! key = Some value ->
  PORTABLE_ENV_VAR_KEY key = true /\ key <> "__proto__"
  /\ exists rawKey, trim rawKey = key
       /\ ((rawKey, Some value) ∈ default processEnv baseEnv
           \/ ((rawKey, value) ∈ default [] overrides
               /\ (default true blockPathOverrides = true ->
                   toUpperCase key <> "PATH"))).
Proof.
  unfold sanitizeHostExecEnv. cbv zeta.
  assert (Hbase : forall v,
    fold_left base (default processEnv baseEnv) ∅ !! key = Some v ->
    PORTABLE_ENV_VAR_KEY key = true /\ key <> "__proto__"
    /\ exists rawKey, trim rawKey = key
         /\ (rawKey, Some v) ∈ default processEnv baseEnv).
  { intros v H. apply base_fold_lookup in H as [H|H]; [|done].
    by rewrite lookup_empty in H. }
  destruct overrides as [ov|]; simpl.
  - intros H. apply override_fold_lookup in H
      as [H|(Hp & Hn & Hb & raw & Hraw & Hin)].
    + destruct (Hbase _ H) as (Hp & Hn & raw & Hraw & Hin).
      split; [done|]. split; [done|]. exists raw. split; [done|]. by left.
    + split; [done|]. split; [done|]. exists raw. split; [done|]. by right.
  - intros H. destruct (Hbase _ H) as (Hp & Hn & raw & Hraw & Hin).
    split; [done|]. split; [done|]. exists raw. split; [done|]. by left.
Qed.

Lemma overrideStep_other (block : bool) (merged : gmap string string)
    (entry : string * string) (k : string) :
  trim entry.1 <> k -> override block merged entry !! k = merged !! k.
Proof.
  intros Hne. unfold overrideStep.
  destruct (normalizeEnvVarKey (fst entry) true) as [key|] eqn:Hkey; [|done].
  apply normalizeEnvVarKey_trim in Hkey. simpl.
  destruct (block && String.eqb (toUpperCase key) "PATH"); [done|].
  destruct (dangerous (toUpperCase key)); [done|].
  unfold assign. destruct (String.eqb key "__proto__"); [done|].
  apply lookup_insert_ne. congruence.
Qed.

Lemma override_fold_other (block : bool) (overrides : list (string * string))
    (merged : gmap string string) (k : string) :
  Forall (fun entry => trim entry.1 <> k) overrides ->
  fold_left (override block) overrides merged !! k = merged !! k.
Proof.
  revert merged. induction overrides as [|entry l IH]; intros merged Hl; [done|].
  inversion Hl; subst. simpl. rewrite IH by done. by apply overrideStep_other.
Qed.

(** X20: the overrides reach the variables they name and no other: a variable
    that no override names, blanks around the name apart, has the value
    that the base environment alone gives it. *)
Theorem overrides_leave_other_keys
    (baseEnv : option (list (string * option string)))
    (overrides : list (string * string))
    (blockPathOverrides : option bool) (key : string) :
  Forall (fun entry => trim entry.1 <> key) overrides ->
  sanitize baseEnv (Some overrides) blockPathOverrides !! key
  = sanitize baseEnv None blockPathOverrides !! key.
Proof.
  intros H. unfold sanitizeHostExecEnv. cbv zeta.
  by apply override_fold_other.
Qed.

(** X21: an override that is allowed takes effect: the last override of a
    portable name that is not dangerous, not [__proto__] and, while PATH
    overrides are blocked, not PATH, gives the variable its value. *)
Theorem safe_override_takes_effect
    (baseEnv : option (list (string * option string)))
    (before later : list (string * string)) (rawKey value : string)
    (blockPathOverrides : option bool) :
  PORTABLE_ENV_VAR_KEY (trim rawKey) = true ->
  dangerous (trim rawKey) = false ->
  trim rawKey <> "__proto__" ->
  (default true blockPathOverrides = true ->
   toUpperCase (trim rawKey) <> "PATH") ->
  Forall (fun entry => trim entry.1 <> trim rawKey) later ->
  sanitize baseEnv (Some (before ++ (rawKey, value) :: later)%list)
    blockPathOverrides !! trim rawKey = Some value.
Proof.
  intros Hp Hd Hproto Hpath Hlater. unfold sanitizeHostExecEnv. cbv zeta.
  rewrite fold_left_app. simpl.
  rewrite override_fold_other by done.
  unfold overrideStep, normalizeEnvVarKey. simpl.
  destruct (portable_keyChars _ Hp) as [Hne _].
  apply truthy_true_nonempty in Hne. rewrite Hne, Hp. simpl.
  destruct (default true blockPathOverrides) eqn:Hb; simpl.
  - destruct (String.eqb (toUpperCase (trim rawKey)) "PATH") eqn:E.
    + apply String.eqb_eq in E. by destruct Hpath.
    + rewrite (dangerous_upper blockedKeys blockedPrefixes _ Hp), Hd.
      unfold assign. apply String.eqb_neq in Hproto. rewrite Hproto.
      by rewrite lookup_insert_eq.
  - rewrite (dangerous_upper blockedKeys blockedPrefixes _ Hp), Hd.
    unfold assign. apply String.eqb_neq in Hproto. rewrite Hproto.
    by rewrite lookup_insert_eq.
Qed.

End MoreHostEnvFacts.

Lemma dangerous_ignores_case_and_blanks_witness :
  HostEnv.isDangerousHostEnvVarName Samples.policyKeys Samples.policyPrefixes
    (JsString.toLowerCase " Ld_Preload ") = true.
Proof.
  destruct (dangerous_ignores_case_and_blanks Samples.policyKeys
              Samples.policyPrefixes " Ld_Preload ") as (_ & _ & H).
  - vm_compute. reflexivity.
  - rewrite H. vm_compute. reflexivity.
Defined.

Lemma sanitized_env_provenance_witness :
  HostEnv.PORTABLE_ENV_VAR_KEY "SAFE" = true.
Proof.
  apply (sanitized_env_provenance Samples.policyKeys Samples.policyPrefixes []
           (Some Samples.baseEnvOfTest) (Some Samples.overridesOfTest) None
           "SAFE" "ok").
  vm_compute. reflexivity.
Defined.

Lemma overrides_leave_other_keys_witness :
  HostEnv.sanitizeHostExecEnv Samples.policyKeys Samples.policyPrefixes []
    (Some Samples.baseEnvOfTest) (Some Samples.overridesOfTest) None !! "HOME"
  = HostEnv.sanitizeHostExecEnv Samples.policyKeys Samples.policyPrefixes []
      (Some Samples.baseEnvOfTest) None None !! "HOME".
Proof.
  apply (overrides_leave_other_keys Samples.policyKeys Samples.policyPrefixes
           [] (Some Samples.baseEnvOfTest) Samples.overridesOfTest None "HOME").
  repeat constructor; vm_compute; discriminate.
Defined.

Lemma safe_override_takes_effect_witness :
  HostEnv.sanitizeHostExecEnv Samples.policyKeys Samples.policyPrefixes []
    (Some Samples.baseEnvOfTest)
    (Some ([("PATH", "/evil")] ++ (" EDITOR ", "vi") :: [("PATH", "/tmp")])%list)
    None !! JsString.trim " EDITOR " = Some "vi".
Proof.
  apply (safe_override_takes_effect Samples.policyKeys Samples.policyPrefixes
           [] (Some Samples.baseEnvOfTest) [("PATH", "/evil")]
           [("PATH", "/tmp")] " EDITOR " "vi" None).
  - vm_compute. reflexivity.
  - vm_compute. reflexivity.
  - vm_compute. discriminate.
  - intros _. vm_compute. discriminate.
  - repeat constructor; vm_compute; discriminate.
Defined.

(** ** Session handlers: what a patch and a reset leave alone *)

Section MoreSessionsFacts.
Import JsString Sessions.
Open Scope Z_scope.

Variable cfg : ModelSelection.ClawdbotConfig.
Variable resolveGatewaySessionStoreTarget : string -> StoreTarget.
Variable DEFAULT_PROVIDER DEFAULT_MODEL : string.
Variable normalizeThinkLevel normalizeVerboseLevel normalizeReasoningLevel
         normalizeUsageDisplay normalizeSendPolicy normalizeGroupActivation
  : string -> option string.

Local Abbreviation patch :=
  (sessions_patch cfg resolveGatewaySessionStoreTarget
     DEFAULT_PROVIDER DEFAULT_MODEL
     normalizeThinkLevel normalizeVerboseLevel normalizeReasoningLevel
     normalizeUsageDisplay normalizeSendPolicy normalizeGroupActivation).
Local Abbreviation reset := (sessions_reset resolveGatewaySessionStoreTarget).
Local Abbreviation modelStep :=
  (patchModelStep cfg DEFAULT_PROVIDER DEFAULT_MODEL).

Lemma adoptExistingKey_fst target key disk :
  (adoptExistingKey target key disk).1 = default key (head (storeKeys target)).
Proof.
  unfold adoptExistingKey.
  destruct (List.find _ (storeKeys target)) as [ek|]; [|done].
  destruct (truthy ek && _ && _); [|done].
  by destruct (disk !! ek).
Qed.

(** The rename of a legacy key moves an entry between two keys of the
    target and leaves every other key alone. *)
Lemma adoptExistingKey_frame target key disk k :
  k <> default key (head (storeKeys target)) -> k ∉ storeKeys target ->
  (adoptExistingKey target key disk).2 !! k = disk !! k.
Proof.
  intros Hpk Hk. unfold adoptExistingKey.
  destruct (List.find _ (storeKeys target)) as [ek|] eqn:Hfind; [|done].
  apply find_some in Hfind as [Hin _]. apply list_elem_of_In in Hin.
  destruct (truthy ek && _ && _); [|done].
  destruct (disk !! ek) as [e|]; [|done]. simpl.
  rewrite lookup_delete_ne by (intros ->; done).
  by rewrite lookup_insert_ne.
Qed.

Lemma head_elem_of (l : list string) (key k : string) :
  k ∉ l -> k <> key -> k <> default key (head l).
Proof.
  intros Hl Hk. destruct l as [|a l]; simpl; [done|].
  intros ->. apply Hl. apply elem_of_cons. by left.
Qed.

(** X22: the handlers touch the keys of the session they are asked about and
    no other: an entry stored under a key that is neither the requested
    key nor one of the store keys of its target is the same after
    [sessions.patch] and after [sessions.reset], whatever they answer. *)
Theorem handlers_leave_other_sessions
    (pp : Validated SessionsPatchParams) (rp : Validated SessionsResetParams)
    (disk : gmap string SessionEntry) (now : Z) (uuid : string)
    (catalog : list ModelSelection.ModelCatalogEntry) (k : string) :
  (forall p, pp = ValidParams p ->
     let key := trim (default "" (patchKey p)) in
     k <> key /\ k ∉ storeKeys (resolveGatewaySessionStoreTarget key)) ->
  (forall p, rp = ValidParams p ->
     let key := trim (default "" (resetKey p)) in
     k <> key /\ k ∉ storeKeys (resolveGatewaySessionStoreTarget key)) ->
  storeAfter disk (patch pp disk now uuid catalog) !! k = disk !! k
  /\ storeAfter disk (reset rp disk now uuid) !! k = disk !! k.
Proof.
  intros Hp Hr. split.
  - unfold sessions_patch, storeAfter. destruct pp as [errors|p]; [done|].
    destruct (Hp p eq_refl) as [Hk Hkeys].
    set (key := trim (default "" (patchKey p))) in *.
    destruct (truthy key); simpl; [|done].
    set (target := resolveGatewaySessionStoreTarget key) in *.
    pose proof (adoptExistingKey_fst target key disk) as Hfst.
    pose proof (adoptExistingKey_frame target key disk k
                  (head_elem_of _ _ _ Hkeys Hk) Hkeys) as Hframe.
    destruct (adoptExistingKey target key disk) as [primaryKey store].
    simpl in *. subst primaryKey.
    match goal with |- context [match ?s with inl _ => _ | inr _ => _ end] =>
      destruct s as [m|entry] end; simpl; [done|].
    rewrite lookup_insert_ne; [done|].
    intros E. by apply (head_elem_of _ key k Hkeys Hk).
  - unfold sessions_reset, storeAfter. destruct rp as [errors|p]; [done|].
    destruct (Hr p eq_refl) as [Hk Hkeys].
    set (key := trim (default "" (resetKey p))) in *.
    destruct (truthy key); simpl; [|done].
    set (target := resolveGatewaySessionStoreTarget key) in *.
    pose proof (adoptExistingKey_fst target key disk) as Hfst.
    pose proof (adoptExistingKey_frame target key disk k
                  (head_elem_of _ _ _ Hkeys Hk) Hkeys) as Hframe.
    destruct (adoptExistingKey target key disk) as [primaryKey store].
    simpl in *. subst primaryKey.
    rewrite lookup_insert_ne; [done|].
    intros E. by apply (head_elem_of _ key k Hkeys Hk).
Qed.

(** [sessions.patch] is all or nothing: an error answer comes with no
    call of [saveSessionStore], so that the store is what it was; an
    answer with an entry comes with one call, for the path of the answer,
    and the document saved holds that entry under the primary key. *)
Theorem patch_is_all_or_nothing
    (pp : Validated SessionsPatchParams) (disk : gmap string SessionEntry)
    (now : Z) (uuid : string) (catalog : list ModelSelection.ModelCatalogEntry) :
  let h := patch pp disk now uuid catalog in
  match response h with
  | RespondError err =>
      code err = INVALID_REQUEST /\ saved h = None /\ storeAfter disk h = disk
  | RespondOk r =>
      exists p doc,
        pp = ValidParams p
        /\ saved h = Some (resultPath r, doc)
        /\ doc !! (adoptExistingKey
                     (resolveGatewaySessionStoreTarget
                        (trim (default "" (patchKey p))))
                     (trim (default "" (patchKey p))) disk).1
           = Some (resultEntry r)
  end.
Proof.
  intros h. subst h. unfold sessions_patch, storeAfter.
  destruct pp as [errors|p]; [done|].
  destruct (truthy (trim (default "" (patchKey p)))); simpl; [|done].
  match goal with |- context [adoptExistingKey ?t ?k disk] =>
    pose proof (adoptExistingKey_fst t k disk) as Hfst;
    destruct (adoptExistingKey t k disk) as [primaryKey store] end.
  simpl in *.
  match goal with |- context [match ?s with inl _ => _ | inr _ => _ end] =>
    destruct s as [m|entry] end; simpl; [done|].
  exists p. eexists. split; [done|]. split; [done|].
  rewrite adoptExistingKey_fst, <- Hfst. apply lookup_insert_eq.
Qed.

Lemma andThen_inr (s : Step) (f : SessionEntry -> Step) (e : SessionEntry) :
  s >>= f = inr e -> exists e', s = inr e' /\ f e' = inr e.
Proof. destruct s as [m|e']; simpl; [done|]. intros H. by exists e'. Qed.

Section Frames.
Context {A : Type} (f : SessionEntry -> A).

Lemma spawnedByStep_frame primaryKey existing raw e1 e2 :
  patchSpawnedByStep primaryKey existing raw e1 = inr e2 ->
  (forall v e, f (set_spawnedBy v e) = f e) -> f e2 = f e1.
Proof.
  intros H Hf. revert H. unfold patchSpawnedByStep. destruct raw as [| |v].
  - by intros [= <-].
  - destruct (hasSpawnedBy existing); [done|]. by intros [= <-].
  - repeat match goal with |- context [if ?c then _ else _] => destruct c end;
      try done.
    intros [= <-]. apply Hf.
Qed.

Lemma levelStep_frame normalize invalid set raw e1 e2 :
  patchLevelStep normalize invalid set raw e1 = inr e2 ->
  (forall v e, f (set v e) = f e) -> f e2 = f e1.
Proof.
  intros H Hf. revert H. unfold patchLevelStep. destruct raw as [| |v].
  - by intros [= <-].
  - intros [= <-]. apply Hf.
  - destruct (normalize v) as [n|]; [|done].
    repeat match goal with |- context [if ?c then _ else _] => destruct c end;
      try done; intros [= <-]; apply Hf.
Qed.

Lemma choiceStep_frame normalize invalid set raw e1 e2 :
  patchChoiceStep normalize invalid set raw e1 = inr e2 ->
  (forall v e, f (set v e) = f e) -> f e2 = f e1.
Proof.
  intros H Hf. revert H. unfold patchChoiceStep. destruct raw as [| |v].
  - by intros [= <-].
  - intros [= <-]. apply Hf.
  - destruct (normalize v) as [n|]; [|done].
    destruct (negb (truthy n)); [done|]. intros [= <-]. apply Hf.
Qed.

Lemma modelStep_frame catalog raw e1 e2 :
  modelStep catalog raw e1 = inr e2 ->
  (forall v e, f (set_modelOverride v e) = f e) ->
  (forall v e, f (set_providerOverride v e) = f e) -> f e2 = f e1.
Proof.
  intros H Hm Hp. revert H. unfold patchModelStep. destruct raw as [| |v].
  - by intros [= <-].
  - intros [= <-]. by rewrite Hm, Hp.
  - destruct (negb (truthy (trim v))); [done|].
    destruct (ModelSelection.resolveModelRefFromString _ _ _) as [[ref alias]|];
      [|done].
    repeat match goal with |- context [if ?c then _ else _] => destruct c end;
      try done; intros [= <-]; by rewrite Hm, Hp.
Qed.
End Frames.

Lemma spawnedByStep_absent primaryKey existing e1 e2 :
  patchSpawnedByStep primaryKey existing Absent e1 = inr e2 -> e2 = e1.
Proof. by intros [= <-]. Qed.

Lemma levelStep_absent normalize invalid set e1 e2 :
  patchLevelStep normalize invalid set Absent e1 = inr e2 -> e2 = e1.
Proof. by intros [= <-]. Qed.

Lemma choiceStep_absent normalize invalid set e1 e2 :
  patchChoiceStep normalize invalid set Absent e1 = inr e2 -> e2 = e1.
Proof. by intros [= <-]. Qed.

Lemma modelStep_absent catalog e1 e2 :
  modelStep catalog Absent e1 = inr e2 -> e2 = e1.
Proof. by intros [= <-]. Qed.

(** Each block of the patch, for a property that it does not assign. *)
Ltac through f :=
  repeat match goal with
  | H : patchChoiceStep _ _ _ _ ?a = inr ?b |- context [f ?b] =>
      rewrite (choiceStep_frame f _ _ _ _ _ _ H) by (intros; reflexivity)
  | H : patchLevelStep _ _ _ _ ?a = inr ?b |- context [f ?b] =>
      rewrite (levelStep_frame f _ _ _ _ _ _ H) by (intros; reflexivity)
  | H : patchModelStep _ _ _ _ _ ?a = inr ?b |- context [f ?b] =>
      rewrite (modelStep_frame f _ _ _ _ H) by (intros; reflexivity)
  | H : patchSpawnedByStep _ _ _ ?a = inr ?b |- context [f ?b] =>
      rewrite (spawnedByStep_frame f _ _ _ _ _ H) by (intros; reflexivity)
  end.

(** The block of a property that the patch does not name does nothing. *)
Ltac skip H Habsent lem :=
  rewrite Habsent in H; apply lem in H; subst.

(** X23: a patch changes what it names and nothing else. For an existing
    entry, the entry that [sessions.patch] answers with has the same
    [sessionId] and the same properties that no block assigns, an
    [updatedAt] that is the later of the stored one and the clock, and,
    for each property the patch leaves out, the stored value. *)
Theorem patch_keeps_what_it_does_not_name
    (p : SessionsPatchParams) (disk : gmap string SessionEntry)
    (now : Z) (uuid : string) (catalog : list ModelSelection.ModelCatalogEntry)
    (existing : SessionEntry) (r : SessionsPatchResult) :
  let key := trim (default "" (patchKey p)) in
  let adopted := adoptExistingKey (resolveGatewaySessionStoreTarget key) key
                   disk in
  adopted.2 !! adopted.1 = Some existing ->
  response (patch (ValidParams p) disk now uuid catalog) = RespondOk r ->
  let e := resultEntry r in
  sameUnpatched existing e
  /\ updatedAt e = Some (Z.max (default 0 (updatedAt existing)) now)
  /\ (patchSpawnedBy p = Absent -> spawnedBy e = spawnedBy existing)
  /\ (patchThinkingLevel p = Absent -> thinkingLevel e = thinkingLevel existing)
  /\ (patchVerboseLevel p = Absent -> verboseLevel e = verboseLevel existing)
  /\ (patchReasoningLevel p = Absent ->
      reasoningLevel e = reasoningLevel existing)
  /\ (patchResponseUsage p = Absent -> responseUsage e = responseUsage existing)
  /\ (patchModel p = Absent ->
      providerOverride e = providerOverride existing
      /\ modelOverride e = modelOverride existing)
  /\ (patchSendPolicy p = Absent -> sendPolicy e = sendPolicy existing)
  /\ (patchGroupActivation p = Absent ->
      groupActivation e = groupActivation existing).
Proof.
  intros key adopted Hex. unfold sessions_patch. fold key.
  destruct (truthy key); simpl; [|done]. fold adopted.
  destruct adopted as [primaryKey store]. simpl in Hex. rewrite Hex.
  match goal with |- context [match ?s with inl _ => _ | inr _ => _ end] =>
    destruct s as [m|entry] eqn:Hsteps end; simpl; [done|].
  intros [= <-]. simpl.
  apply andThen_inr in Hsteps as (e7 & Hsteps & H8).
  apply andThen_inr in Hsteps as (e6 & Hsteps & H7).
  apply andThen_inr in Hsteps as (e5 & Hsteps & H6).
  apply andThen_inr in Hsteps as (e4 & Hsteps & H5).
  apply andThen_inr in Hsteps as (e3 & Hsteps & H4).
  apply andThen_inr in Hsteps as (e2 & Hsteps & H3).
  apply andThen_inr in Hsteps as (e1 & H1 & H2).
  unfold sameUnpatched.
  repeat split.
  - through sessionId. done.
  - through systemSent. done.
  - through abortedLastRun. done.
  - through model. done.
  - through contextTokens. done.
  - through lastProvider. done.
  - through lastTo. done.
  - through skillsSnapshot. done.
  - through otherFields. done.
  - through updatedAt. done.
  - intros Ha. skip H1 Ha spawnedByStep_absent. through spawnedBy. done.
  - intros Ha. skip H2 Ha levelStep_absent. through thinkingLevel. done.
  - intros Ha. skip H3 Ha levelStep_absent. through verboseLevel. done.
  - intros Ha. skip H4 Ha levelStep_absent. through reasoningLevel. done.
  - intros Ha. skip H5 Ha levelStep_absent. through responseUsage. done.
  - skip H6 H modelStep_absent. through providerOverride. done.
  - skip H6 H modelStep_absent. through modelOverride. done.
  - intros Ha. skip H7 Ha choiceStep_absent. through sendPolicy. done.
  - intros Ha. skip H8 Ha choiceStep_absent. through groupActivation. done.
Qed.

(** X24: the write-once rule of [spawnedBy] does not outlive a reset:
    [sessions.reset] writes an entry without a parent, so that a patch
    of the subagent session that names any parent is accepted after it,
    whatever parent the session had before. *)
Theorem reset_forgets_parent (key parent : string)
    (disk : gmap string SessionEntry) (now1 now2 : Z) (uuid1 uuid2 : string)
    (catalog : list ModelSelection.ModelCatalogEntry) :
  let target := resolveGatewaySessionStoreTarget key in
  let primaryKey := default key (head (storeKeys target)) in
  trim key = key -> truthy key = true ->
  SessionKey.isSubagentSessionKey (Some primaryKey) = true ->
  truthy (trim parent) = true ->
  let afterReset :=
    storeAfter disk
      (reset (ValidParams {| resetKey := Some key |}) disk now1 uuid1) in
  let p := {| patchKey := Some key; patchSpawnedBy := Value parent;
              patchThinkingLevel := Absent; patchVerboseLevel := Absent;
              patchReasoningLevel := Absent; patchResponseUsage := Absent;
              patchModel := Absent; patchSendPolicy := Absent;
              patchGroupActivation := Absent |} in
  exists r,
    response (patch (ValidParams p) afterReset now2 uuid2 catalog)
    = RespondOk r
    /\ sessionId (resultEntry r) = uuid1
    /\ spawnedBy (resultEntry r) = Some (trim parent).
Proof.
  intros target primaryKey Hkey Hne Hsub Hparent afterReset p.
  assert (Hreset : afterReset !! primaryKey
                   = Some (resetEntry ((adoptExistingKey target key disk).2
                                       !! primaryKey) now1 uuid1)).
  { subst afterReset. unfold sessions_reset, storeAfter. simpl.
    rewrite Hkey, Hne. simpl. fold target.
    pose proof (adoptExistingKey_fst target key disk) as Hfst.
    destruct (adoptExistingKey target key disk) as [pk store].
    simpl in *. subst pk. apply lookup_insert_eq. }
  unfold sessions_patch. simpl. rewrite Hkey, Hne. simpl. fold target.
  rewrite (adoptExistingKey_primary target key afterReset _ Hreset).
  fold primaryKey. rewrite Hreset. simpl.
  rewrite Hparent, Hsub. simpl.
  eexists. split; [reflexivity|]. done.
Qed.

End MoreSessionsFacts.

Lemma handlers_leave_other_sessions_witness :
  Sessions.storeAfter Samples.diskWithChild
    (Sessions.sessions_reset Samples.targetOfKey
       (Sessions.ValidParams {| Sessions.resetKey := Some Samples.childKey |})
       Samples.diskWithChild 200 "uuid-2")
  !! "agent:main:main"
  = Samples.diskWithChild !! "agent:main:main".
Proof.
  apply (handlers_leave_other_sessions Samples.noConfig Samples.targetOfKey
           "anthropic" "claude-opus-4-5" Some Some Some Some Some Some
           (Sessions.ValidParams Samples.setThinking)
           (Sessions.ValidParams {| Sessions.resetKey := Some Samples.childKey |})
           Samples.diskWithChild 200 "uuid-2" [] "agent:main:main").
  - intros p [= <-]. split; [vm_compute; discriminate|].
    intros H. apply list_elem_of_singleton in H. vm_compute in H.
    discriminate H.
  - intros p [= <-]. split; [vm_compute; discriminate|].
    intros H. apply list_elem_of_singleton in H. vm_compute in H.
    discriminate H.
Defined.

Lemma patch_keeps_what_it_does_not_name_witness :
  Sessions.sameUnpatched Samples.childEntry
    (Sessions.resultEntry Samples.thinkingSet)
  /\ Sessions.sendPolicy (Sessions.resultEntry Samples.thinkingSet)
     = Sessions.sendPolicy Samples.childEntry.
Proof.
  destruct (patch_keeps_what_it_does_not_name Samples.noConfig
              Samples.targetOfKey "anthropic" "claude-opus-4-5"
              Some Some Some Some Some Some
              Samples.setThinking Samples.diskWithChild 200 "uuid-2" []
              Samples.childEntry Samples.thinkingSet)
    as (Hsame & _ & _ & _ & _ & _ & _ & _ & Hsend & _).
  - vm_compute. reflexivity.
  - vm_compute. reflexivity.
  - split; [exact Hsame|]. apply Hsend. reflexivity.
Defined.

Lemma reset_forgets_parent_witness :
  exists r,
    Sessions.response
      (Sessions.sessions_patch Samples.noConfig Samples.targetOfKey
         "anthropic" "claude-opus-4-5" Some Some Some Some Some Some
         (Sessions.ValidParams
            {| Sessions.patchKey := Some Samples.childKey;
               Sessions.patchSpawnedBy := Sessions.Value "agent:other:main";
               Sessions.patchThinkingLevel := Sessions.Absent;
               Sessions.patchVerboseLevel := Sessions.Absent;
               Sessions.patchReasoningLevel := Sessions.Absent;
               Sessions.patchResponseUsage := Sessions.Absent;
               Sessions.patchModel := Sessions.Absent;
               Sessions.patchSendPolicy := Sessions.Absent;
               Sessions.patchGroupActivation := Sessions.Absent |})
         (Sessions.storeAfter Samples.diskWithChild
            (Sessions.sessions_reset Samples.targetOfKey
               (Sessions.ValidParams
                  {| Sessions.resetKey := Some Samples.childKey |})
               Samples.diskWithChild 200 "uuid-2"))
         300 "uuid-3" [])
    = Sessions.RespondOk r
    /\ Sessions.sessionId (Sessions.resultEntry r) = "uuid-2"
    /\ Sessions.spawnedBy (Sessions.resultEntry r)
       = Some (JsString.trim "agent:other:main").
Proof.
  apply (reset_forgets_parent Samples.noConfig Samples.targetOfKey
           "anthropic" "claude-opus-4-5" Some Some Some Some Some Some
           Samples.childKey "agent:other:main" Samples.diskWithChild
           200 300 "uuid-2" "uuid-3" []); vm_compute; reflexivity.
Defined.

(** ** Transcripts: lines read back *)

Section TranscriptFacts.
Import JsString SessionMaintenance.

Local Abbreviation LF := ("010"%char).
Local Abbreviation CR := ("013"%char).

Lemma splitLinesChars_sepFree (cur l : list ascii) :
  sepFree LF cur -> Forall (sepFree LF) (splitLinesChars cur l).
Proof.
  revert cur. induction l as [l IH] using (induction_ltof1 _ (@length ascii)).
  unfold ltof in IH. intros cur Hcur.
  assert (Hrev : sepFree LF (rev cur)).
  { unfold sepFree in *. apply Forall_forall. intros c Hc.
    apply list_elem_of_In, in_rev, list_elem_of_In in Hc.
    by eapply Forall_forall in Hcur. }
  destruct l as [|c r]; simpl.
  - by constructor.
  - destruct (Ascii.eqb c LF) eqn:Hc.
    + constructor; [done|]. apply IH; [simpl; lia | constructor].
    + assert (Hpush : sepFree LF (c :: cur)) by by constructor.
      destruct (Ascii.eqb c CR).
      * destruct r as [|d r']; [apply IH; [simpl; lia | done]|].
        destruct (Ascii.eqb d LF).
        -- constructor; [done|]. apply IH; [simpl; lia | constructor].
        -- apply IH; [simpl; lia | done].
      * apply IH; [simpl; lia | done].
Qed.

(** A line of text followed by a line feed is split off as one piece, a
    carriage return at its end dropped. *)
Lemma splitLinesChars_line (cur l rest : list ascii) :
  sepFree LF l ->
  exists piece,
    splitLinesChars cur (l ++ LF :: rest)%list
    = piece :: splitLinesChars [] rest
    /\ (piece = (rev cur ++ l)%list
        \/ exists l', l = (l' ++ [CR])%list /\ piece = (rev cur ++ l')%list).
Proof.
  revert cur. induction l as [|c l IH]; intros cur Hl.
  - simpl. exists (rev cur). split; [done|]. left. by rewrite app_nil_r.
  - inversion Hl as [|? ? Hc Hl']; subst.
    change ((c :: l) ++ LF :: rest)%list with (c :: (l ++ LF :: rest))%list.
    cbn [splitLinesChars]. rewrite Hc.
    destruct (IH (c :: cur) Hl') as (piece & Hsplit & Hpiece).
    assert (Hnext : exists piece,
              splitLinesChars (c :: cur) (l ++ LF :: rest)%list
              = piece :: splitLinesChars [] rest
              /\ (piece = (rev cur ++ c :: l)%list
                  \/ exists l', (c :: l = l' ++ [CR])%list
                                /\ piece = (rev cur ++ l')%list)).
    { exists piece. split; [done|]. simpl in Hpiece.
      destruct Hpiece as [->|(l' & -> & ->)].
      - left. by rewrite <- app_assoc.
      - right. exists (c :: l'). split; [done|]. by rewrite <- app_assoc. }
    destruct (Ascii.eqb c CR) eqn:Hcr; [|exact Hnext].
    apply Ascii.eqb_eq in Hcr. subst c.
    destruct l as [|d l'].
    + simpl. exists (rev cur). split; [done|]. right. exists [].
      split; [done | by rewrite app_nil_r].
    + cbn [app]. inversion Hl' as [|? ? Hd _]; subst. rewrite Hd. exact Hnext.
Qed.

Lemma trimChars_drop_cr (l : list ascii) :
  trimChars (l ++ [CR]) = trimChars l.
Proof.
  unfold trimChars.
  assert (Hdrop : dropWhile isWhiteSpace (l ++ [CR])
                  = (dropWhile isWhiteSpace l
                     ++ (if forallb isWhiteSpace l then [] else [CR]))%list).
  { induction l as [|c l IH]; [done|]. simpl.
    destruct (isWhiteSpace c); simpl; [exact IH | done]. }
  rewrite Hdrop. destruct (forallb isWhiteSpace l); [by rewrite app_nil_r|].
  unfold dropWhileEnd. by rewrite rev_app_distr.
Qed.

(** The pieces of lines of text, each ended by a line feed: one piece for
    each line, with the same text once trimmed, and an empty piece at the
    end. *)
Lemma splitLinesChars_lines (ls : list string) :
  Forall (fun s => sepFree LF (chars s)) ls ->
  exists pieces,
    splitLinesChars [] (flat_map (fun s => chars s ++ [LF])%list ls)
    = (pieces ++ [[]])%list
    /\ Forall2 (fun piece s => trimChars piece = trimChars (chars s)) pieces ls.
Proof.
  induction ls as [|s ls IH]; intros Hls.
  - exists []. split; [done | constructor].
  - inversion Hls as [|? ? Hs Hrest]; subst.
    destruct (IH Hrest) as (pieces & Hsplit & Hpieces).
    simpl. rewrite <- app_assoc. simpl.
    destruct (splitLinesChars_line [] (chars s)
                (flat_map (fun s => chars s ++ [LF])%list ls) Hs)
      as (piece & Hline & Hpiece).
    exists (piece :: pieces). split.
    + rewrite Hline, Hsplit. done.
    + constructor; [|done]. simpl in Hpiece.
      destruct Hpiece as [->|(l' & E & ->)]; [done|].
      rewrite E. by rewrite trimChars_drop_cr.
Qed.

Lemma chars_join_lines (ls : list string) :
  ls <> [] ->
  chars (join newline ls ++ newline)
  = flat_map (fun s => chars s ++ [LF])%list ls.
Proof.
  induction ls as [|s ls IH]; [done|]. intros _.
  destruct ls as [|s' ls].
  - simpl. by rewrite chars_append, app_nil_r.
  - change (join newline (s :: s' :: ls))
      with (s ++ newline ++ join newline (s' :: ls)).
    change (flat_map (fun s => chars s ++ [LF])%list (s :: s' :: ls))
      with ((chars s ++ [LF]) ++
            flat_map (fun s => chars s ++ [LF])%list (s' :: ls))%list.
    rewrite <- IH by done. rewrite !chars_append.
    change (chars newline) with [LF]. by rewrite <- !app_assoc.
Qed.

(** Reading back what a compaction wrote gives as many lines as were
    written. *)
Lemma transcriptLines_written (ls : list string) :
  ls <> [] ->
  Forall (fun s => sepFree LF (chars s) /\ truthy (trim s) = true) ls ->
  length (transcriptLines (join newline ls ++ newline)) = length ls.
Proof.
  intros Hne Hls. unfold transcriptLines, splitLines.
  rewrite chars_join_lines by done.
  destruct (splitLinesChars_lines ls) as (pieces & -> & Hpieces).
  { eapply Forall_impl; [exact Hls|]. by intros s [H _]. }
  rewrite map_app, List.filter_app. simpl. rewrite app_nil_r.
  rewrite forallb_filter_id.
  - rewrite length_map. by eapply Forall2_length.
  - clear Hne. induction Hpieces as [|piece s pieces ls Hp Hrest IH];
      [done|].
    inversion Hls as [|? ? [_ Ht] Hls']; subst. simpl.
    rewrite IH by done. rewrite andb_true_r.
    unfold trim in *. by rewrite chars_str, Hp.
Qed.

(** The lines of a transcript hold no line feed and have text. *)
Lemma transcriptLines_clean (raw : string) :
  Forall (fun s => sepFree LF (chars s) /\ truthy (trim s) = true)
    (transcriptLines raw).
Proof.
  unfold transcriptLines, splitLines. apply Forall_forall. intros s Hs.
  apply list_elem_of_In, filter_In in Hs as [Hs Ht]. split; [|done].
  apply in_map_iff in Hs as (piece & <- & Hpiece).
  rewrite chars_str.
  pose proof (splitLinesChars_sepFree [] (chars raw) ltac:(constructor)) as H.
  eapply Forall_forall in H; [exact H|]. by apply list_elem_of_In.
Qed.

End TranscriptFacts.

(** ** Deleting and compacting a session *)

Section SessionMaintenanceFacts.
Import JsString SessionMaintenance.
Open Scope Z_scope.

Variable mainKey : string.
Variable resolveGatewaySessionStoreTarget : string -> Sessions.StoreTarget.
Variable resolveEmbeddedSessionLane : string -> string.
Variable isEmbeddedPiRunActive : string -> bool.
Variable waitForEmbeddedPiRunEnd : string -> bool.
Variable resolveSessionTranscriptCandidates
  : string -> string -> option string -> Sessions.StoreTarget -> list string.
Variable existsSync : string -> bool.
Variable readFileSync : string -> string.
Variable archiveFileOnDisk : string -> string -> option string.

Local Abbreviation delete' :=
  (sessions_delete mainKey resolveGatewaySessionStoreTarget
     resolveEmbeddedSessionLane isEmbeddedPiRunActive waitForEmbeddedPiRunEnd
     resolveSessionTranscriptCandidates existsSync archiveFileOnDisk).
Local Abbreviation compact :=
  (sessions_compact resolveGatewaySessionStoreTarget
     resolveSessionTranscriptCandidates existsSync readFileSync
     archiveFileOnDisk).

(** X25: a refusal of [sessions.delete] leaves no trace: with an error answer
    nothing is saved and no file is archived. The main session is always
    refused, before the runner is touched; a session whose run is still
    active after the wait is refused as unavailable, after the run was
    asked to abort. *)
Theorem delete_refusal_leaves_no_trace
    (params : Sessions.Validated SessionsDeleteParams) (disk : gmap string Sessions.SessionEntry) :
  let d := delete' params disk in
  (forall err, deleteResponse d = RespondError err ->
     deleteSaved d = None /\ archiveCalls d = []
     /\ match code err with
        | INVALID_REQUEST => runControl d = []
        | UNAVAILABLE =>
            exists lane sid,
              runControl d = [ClearCommandLane lane; AbortEmbeddedPiRun sid]
              /\ isEmbeddedPiRunActive sid = true
              /\ waitForEmbeddedPiRunEnd sid = false
        end)
  /\ (forall p,
        params = Sessions.ValidParams p ->
        Sessions.canonicalKey
          (resolveGatewaySessionStoreTarget (trim (default "" (deleteKey p))))
        = mainKey ->
        exists err, deleteResponse d = RespondError err
                    /\ code err = INVALID_REQUEST).
Proof.
  intros d. subst d. unfold sessions_delete. split.
  - intros err. destruct params as [errors|p]; [by intros [= <-]|].
    destruct (truthy (trim (default "" (deleteKey p)))); simpl;
      [|by intros [= <-]].
    destruct (String.eqb _ mainKey); [by intros [= <-]|].
    destruct (Sessions.adoptExistingKey _ _ disk) as [primaryKey store].
    destruct (store !! primaryKey) as [entry|]; simpl; [|done].
    destruct (truthy (Sessions.sessionId entry)
              && isEmbeddedPiRunActive (Sessions.sessionId entry)) eqn:Hactive;
      simpl; [|done].
    destruct (waitForEmbeddedPiRunEnd (Sessions.sessionId entry)) eqn:Hwait;
      simpl; [done|].
    intros [= <-]. simpl. split; [done|]. split; [done|].
    apply andb_true_iff in Hactive as [_ Hactive]. by eexists _, _.
  - intros p -> Hmain. simpl.
    destruct (truthy (trim (default "" (deleteKey p)))); simpl; [|by eexists].
    apply String.eqb_eq in Hmain. rewrite Hmain. by eexists.
Qed.

(** X26: a session that [sessions.delete] reports on is gone: the document it
    saves has no entry under the primary key and every key outside the
    target as before; the session was not the main session and had no
    run that was still active after the wait; the files handed to the
    archiver exist, and there are none when the request keeps the
    transcript. *)
Theorem deleted_session_is_gone (p : SessionsDeleteParams)
    (disk : gmap string Sessions.SessionEntry) (r : SessionsDeleteResult) :
  let key := trim (default "" (deleteKey p)) in
  let target := resolveGatewaySessionStoreTarget key in
  let d := delete' (Sessions.ValidParams p) disk in
  deleteResponse d = RespondOk r ->
  Sessions.canonicalKey target <> mainKey
  /\ deletedKey r = Sessions.canonicalKey target
  /\ (exists doc,
        deleteSaved d = Some (Sessions.storePath target, doc)
        /\ doc !! default key (head (Sessions.storeKeys target)) = None
        /\ forall k, k <> key -> k ∉ Sessions.storeKeys target ->
                     doc !! k = disk !! k)
  /\ (forall entry,
        (Sessions.adoptExistingKey target key disk).2
        !! default key (head (Sessions.storeKeys target)) = Some entry ->
        deleted r = true
        /\ (Sessions.sessionId entry <> "" ->
            isEmbeddedPiRunActive (Sessions.sessionId entry) = true ->
            waitForEmbeddedPiRunEnd (Sessions.sessionId entry) = true))
  /\ Forall (fun c => existsSync c = true) (archiveCalls d)
  /\ archived r = omap (fun c => archiveFileOnDisk c "deleted") (archiveCalls d)
  /\ (deleteTranscript p = Some false -> archiveCalls d = []).
Proof.
  intros key target d. subst d. unfold sessions_delete. fold key.
  destruct (truthy key); simpl; [|discriminate]. fold target.
  destruct (String.eqb (Sessions.canonicalKey target) mainKey) eqn:Hmain;
    [discriminate|].
  apply String.eqb_neq in Hmain.
  pose proof (adoptExistingKey_fst target key disk) as Hfst.
  pose proof (fun k => adoptExistingKey_frame target key disk k) as Hframe.
  destruct (Sessions.adoptExistingKey target key disk) as [primaryKey store].
  simpl in Hfst, Hframe. subst primaryKey.
  set (primaryKey := default key (head (Sessions.storeKeys target))) in *.
  destruct (store !! primaryKey) as [entry|] eqn:Hentry; simpl.
  - destruct (truthy (Sessions.sessionId entry)
              && isEmbeddedPiRunActive (Sessions.sessionId entry)) eqn:Hactive;
      simpl.
    + destruct (waitForEmbeddedPiRunEnd (Sessions.sessionId entry)) eqn:Hwait;
        simpl; [|discriminate].
      intros [= <-]. simpl.
      split; [done|]. split; [done|]. split.
      { eexists. split; [done|]. split; [apply lookup_delete_eq|].
        intros k Hk Hkeys. transitivity (store !! k).
        - apply lookup_delete_ne. intros E.
          by apply (head_elem_of _ key k Hkeys Hk).
        - apply Hframe; [by apply head_elem_of | done]. }
      split.
      { intros e He. split; [done|]. intros _ _.
        assert (e = entry) by congruence. by subst e. }
      split.
      { destruct (default true (deleteTranscript p)
                  && truthy (Sessions.sessionId entry)); [|constructor].
        apply Forall_forall. intros c Hc.
        by apply list_elem_of_In, filter_In in Hc as [_ Hc]. }
      split; [done|]. intros ->. done.
    + intros [= <-]. simpl.
      split; [done|]. split; [done|]. split.
      { eexists. split; [done|]. split; [apply lookup_delete_eq|].
        intros k Hk Hkeys. transitivity (store !! k).
        - apply lookup_delete_ne. intros E.
          by apply (head_elem_of _ key k Hkeys Hk).
        - apply Hframe; [by apply head_elem_of | done]. }
      split.
      { intros e He. assert (e = entry) by congruence. subst e.
        split; [done|]. intros Hsid Hrun.
        apply truthy_true_nonempty in Hsid. by rewrite Hsid, Hrun in Hactive. }
      split.
      { destruct (default true (deleteTranscript p)
                  && truthy (Sessions.sessionId entry)); [|constructor].
        apply Forall_forall. intros c Hc.
        by apply list_elem_of_In, filter_In in Hc as [_ Hc]. }
      split; [done|]. intros ->. done.
  - intros [= <-]. simpl.
    split; [done|]. split; [done|]. split.
    { eexists. split; [done|]. split; [done|].
      intros k Hk Hkeys. apply Hframe; [by apply head_elem_of | done]. }
    split; [intros e He; congruence|]. split; [constructor|]. done.
Qed.

Lemma lastLines_suffix (n : nat) (lines : list string) :
  (n < length lines)%nat ->
  length (lastLines n lines) = n
  /\ exists dropped, lines = (dropped ++ lastLines n lines)%list
                     /\ dropped <> [].
Proof.
  intros Hn. unfold lastLines. split.
  - rewrite length_drop. lia.
  - exists (take (length lines - n) lines). split.
    + by rewrite take_drop.
    + intros E. apply (f_equal length) in E. rewrite length_take in E.
      simpl in E. lia.
Qed.

(** X27: [sessions.compact] keeps the tail of the transcript. When it answers
    that it compacted, the transcript had more lines with text than the
    limit (the [maxLines] of the request, at least one, or 400); the
    first file that exists in the list of
    [resolveSessionTranscriptCandidates], taken for the entry's
    [sessionId] and [sessionFile], was archived and then written with the
    last lines up to the limit, in their order, each ended by a line
    feed; the entry saved under the primary key has the same [sessionId],
    the clock as [updatedAt] and no token counts. In every other case
    nothing is written and nothing is saved. *)
Theorem compaction_keeps_last_lines (p : SessionsCompactParams)
    (disk : gmap string Sessions.SessionEntry) (now : Z) :
  let key := trim (default "" (compactKey p)) in
  let target := resolveGatewaySessionStoreTarget key in
  let limit := match maxLines p with
               | Some n => Z.to_nat (Z.max 1 n)
               | None => 400%nat
               end in
  let c := compact (Sessions.ValidParams p) disk now in
  match compactResponse c with
  | Some (RespondOk r) =>
      if compacted r then
        exists path entry keptLines dropped skipped later archived,
          (Sessions.adoptExistingKey target key disk).2
          !! default key (head (Sessions.storeKeys target)) = Some entry
          /\ resolveSessionTranscriptCandidates (Sessions.sessionId entry)
               (Sessions.storePath target) (sessionFile entry) target
             = (skipped ++ path :: later)%list
          /\ Forall (fun candidate => existsSync candidate = false) skipped
          /\ existsSync path = true
          /\ transcriptLines (readFileSync path) = (dropped ++ keptLines)%list
          /\ dropped <> []
          /\ length keptLines = limit /\ (1 <= limit)%nat
          /\ kept r = Some limit
          /\ archiveFileOnDisk path "bak" = Some archived
          /\ archivedAs r = Some archived
          /\ written c = Some (path, join newline keptLines ++ newline)
          /\ exists doc e',
               compactSaved c = Some (Sessions.storePath target, doc)
               /\ doc !! default key (head (Sessions.storeKeys target))
                  = Some e'
               /\ Sessions.sessionId e' = Sessions.sessionId entry
               /\ Sessions.updatedAt e' = Some now
               /\ Sessions.otherFields e' !! "inputTokens" = None
               /\ Sessions.otherFields e' !! "outputTokens" = None
               /\ Sessions.otherFields e' !! "totalTokens" = None
      else written c = None /\ compactSaved c = None
  | _ => written c = None /\ compactSaved c = None
  end.
Proof.
  intros key target limit c. subst c. unfold sessions_compact. fold key.
  destruct (truthy key); simpl; [|done]. fold target limit.
  pose proof (adoptExistingKey_fst target key disk) as Hfst.
  destruct (Sessions.adoptExistingKey target key disk) as [primaryKey store].
  simpl in Hfst. subst primaryKey.
  set (primaryKey := default key (head (Sessions.storeKeys target))) in *.
  simpl. destruct (store !! primaryKey) as [entry|] eqn:Hentry; simpl; [|done].
  destruct (truthy (Sessions.sessionId entry)); simpl; [|done].
  destruct (find existsSync _) as [path|] eqn:Hfind; simpl; [|done].
  apply find_first in Hfind
    as (skipped & later & Hcandidates & Hexists & Hskipped).
  destruct (truthy path); simpl; [|done].
  destruct (length (transcriptLines (readFileSync path)) <=? limit)%nat
    eqn:Hlen; simpl; [done|].
  apply Nat.leb_gt in Hlen.
  destruct (archiveFileOnDisk path "bak") as [archived|] eqn:Harchive; simpl;
    [|done].
  destruct (lastLines_suffix limit _ Hlen) as (Hkept & dropped & Hsplit & Hd).
  exists path, entry, (lastLines limit (transcriptLines (readFileSync path))),
    dropped, skipped, later, archived.
  split; [done|]. split; [done|].
  split; [apply List.Forall_forall; exact Hskipped|].
  split; [done|]. split; [done|]. split; [done|].
  split; [done|]. split.
  { subst limit. destruct (maxLines p); lia. }
  split; [by rewrite Hkept|]. split; [done|]. split; [done|]. split; [done|].
  eexists _, _. split; [done|]. split; [apply lookup_insert_eq|].
  simpl. split; [done|]. split; [done|].
  split; [|split].
  - rewrite lookup_delete_ne, lookup_delete_ne by done. apply lookup_delete_eq.
  - rewrite lookup_delete_ne by done. apply lookup_delete_eq.
  - apply lookup_delete_eq.
Qed.

Lemma sessionFile_compacted (now : Z) (entry : Sessions.SessionEntry) :
  sessionFile (compactedEntry now entry) = sessionFile entry.
Proof.
  unfold sessionFile, compactedEntry. simpl.
  by rewrite !lookup_delete_ne by done.
Qed.

(** X28: compaction settles: when [sessions.compact] has compacted a
    transcript, the same request on the store it saved and the file it
    wrote finds the transcript within the limit, answers that nothing was
    compacted and that as many lines are kept as before, and writes and
    saves nothing. *)
Theorem compaction_settles (p : SessionsCompactParams)
    (disk : gmap string Sessions.SessionEntry) (now later : Z)
    (r : SessionsCompactResult) (path content storePath : string)
    (doc : gmap string Sessions.SessionEntry)
    (readAfter : string -> string) :
  let c := compact (Sessions.ValidParams p) disk now in
  compactResponse c = Some (RespondOk r) -> compacted r = true ->
  written c = Some (path, content) ->
  compactSaved c = Some (storePath, doc) ->
  readAfter path = content ->
  let c' := sessions_compact resolveGatewaySessionStoreTarget
              resolveSessionTranscriptCandidates existsSync readAfter
              archiveFileOnDisk (Sessions.ValidParams p) doc later in
  compactResponse c'
  = Some (RespondOk {| compactedKey := compactedKey r; compacted := false;
                       reason := None; archivedAs := None; kept := kept r |})
  /\ written c' = None /\ compactSaved c' = None.
Proof.
  intros c. subst c. unfold sessions_compact.
  set (key := trim (default "" (compactKey p))).
  destruct (truthy key); simpl; [|done].
  set (target := resolveGatewaySessionStoreTarget key).
  set (limit := match maxLines p with
                | Some n => Z.to_nat (Z.max 1 n)
                | None => 400%nat
                end).
  pose proof (adoptExistingKey_fst target key disk) as Hfst.
  destruct (Sessions.adoptExistingKey target key disk) as [primaryKey store].
  simpl in Hfst. subst primaryKey.
  set (primaryKey := default key (head (Sessions.storeKeys target))) in *.
  simpl. destruct (store !! primaryKey) as [entry|] eqn:Hentry; simpl; [|done].
  destruct (truthy (Sessions.sessionId entry)) eqn:Hsid; simpl; [|done].
  destruct (find existsSync _) as [file|] eqn:Hfind; simpl; [|done].
  destruct (truthy file) eqn:Hfile; simpl; [|done].
  destruct (length (transcriptLines (readFileSync file)) <=? limit)%nat
    eqn:Hlen; simpl; [done|].
  apply Nat.leb_gt in Hlen.
  destruct (archiveFileOnDisk file "bak") as [archived|]; simpl; [|done].
  intros [= <-] _ [= <- <-] [= <- <-] Hread. simpl.
  set (e' := compactedEntry now entry).
  assert (Hdoc : <[primaryKey := e']> store !! primaryKey = Some e')
    by apply lookup_insert_eq.
  rewrite (adoptExistingKey_primary target key _ e' Hdoc).
  fold primaryKey. rewrite Hdoc. simpl. rewrite Hsid. simpl.
  change (sessionFile e') with (sessionFile (compactedEntry now entry)).
  rewrite sessionFile_compacted, Hfind. simpl. rewrite Hfile. simpl.
  rewrite Hread.
  destruct (lastLines_suffix limit _ Hlen) as (Hkept & dropped & Hsplit & _).
  assert (Hlimit : (1 <= limit)%nat).
  { subst limit. destruct (maxLines p); lia. }
  rewrite transcriptLines_written.
  - rewrite Hkept, Nat.leb_refl. done.
  - intros E. rewrite E in Hkept. simpl in Hkept. lia.
  - unfold lastLines. apply Forall_drop, transcriptLines_clean.
Qed.

End SessionMaintenanceFacts.

Lemma deleted_session_is_gone_witness :
  Sessions.canonicalKey
    (Samples.targetOfKey
       (JsString.trim
          (default "" (SessionMaintenance.deleteKey Samples.deleteChild))))
  <> "agent:main:main".
Proof.
  apply (deleted_session_is_gone "agent:main:main" Samples.targetOfKey
           (fun key => key) (fun _ => false) (fun _ => true)
           Samples.transcriptOf (fun _ => true) Samples.archiveAs
           Samples.deleteChild Samples.diskWithChild Samples.childDeleted).
  vm_compute. reflexivity.
Defined.

Lemma compaction_settles_witness :
  SessionMaintenance.written
    (SessionMaintenance.sessions_compact Samples.targetOfKey
       Samples.transcriptOf (fun _ => true)
       (fun _ => "second" ++ JsString.newline) Samples.archiveAs
       (Sessions.ValidParams Samples.compactChild)
       (<[Samples.childKey :=
            SessionMaintenance.compactedEntry 200 Samples.childEntry]>
          Samples.diskWithChild) 300) = None.
Proof.
  apply (compaction_settles Samples.targetOfKey Samples.transcriptOf
           (fun _ => true) (fun _ => Samples.twoLines) Samples.archiveAs
           Samples.compactChild Samples.diskWithChild 200 300
           Samples.childCompacted "uuid-1.jsonl"
           ("second" ++ JsString.newline) "sessions.json"
           (<[Samples.childKey :=
                SessionMaintenance.compactedEntry 200 Samples.childEntry]>
              Samples.diskWithChild)
           (fun _ => "second" ++ JsString.newline));
    vm_compute; reflexivity.
Defined.

(** ** Streamed blocks and the usage line *)

Section MoreReplyAgentFacts.
Import JsString ReplyAgent.
Open Scope Z_scope.

Variable blockStreamingEnabled hasOnBlockReply : bool.
Variable optsBlockReplyTimeoutMs : option Z.
Variable prepareBlock : ReplyPayload -> option ReplyPayload.

Local Abbreviation onBlock :=
  (onBlockReply blockStreamingEnabled hasOnBlockReply prepareBlock).
Local Abbreviation settle := (linkSettle optsBlockReplyTimeoutMs).
Local Abbreviation step' :=
  (step blockStreamingEnabled hasOnBlockReply optsBlockReplyTimeoutMs
     prepareBlock).
Local Abbreviation run' :=
  (run blockStreamingEnabled hasOnBlockReply optsBlockReplyTimeoutMs
     prepareBlock).

(** X29: a block that reached the channel is not sent again. At any point of a
    run, a step hands at most one payload more to the channel; that
    payload's key is not among the streamed keys and streaming is not
    aborted. Every streamed key is the key of a payload that was handed
    to the channel, and with block streaming enabled no payload of the
    final reply has a streamed key. *)
Theorem streamed_block_is_not_sent_again (events : list Event) (e : Event) :
  let s := run' events initialRun in
  (delivered (step' s e) = delivered s
   \/ exists p, delivered (step' s e) = (delivered s ++ [p])%list
        /\ (buildPayloadKey p ∉ streamedPayloadKeys s)
        /\ blockReplyAborted s = false)
  /\ (forall k, k ∈ streamedPayloadKeys s ->
        exists p, p ∈ delivered s /\ buildPayloadKey p = k)
  /\ (forall suppress deduped p,
        blockStreamingEnabled = true ->
        p ∈ replyPayloads blockStreamingEnabled suppress s deduped ->
        buildPayloadKey p ∉ streamedPayloadKeys s).
Proof.
  intros s.
  pose proof (run_wellQueued blockStreamingEnabled hasOnBlockReply
                optsBlockReplyTimeoutMs prepareBlock events initialRun
                wellQueued_initial)
    as (Hnodup & Hkeys & Hflight & Hsent).
  fold s in Hnodup, Hkeys, Hflight, Hsent.
  split; [|split; [exact Hsent|]].
  - destruct e as [payload| |d]; simpl.
    + left. unfold onBlockReply.
      repeat match goal with
             | |- context [if ?c then _ else _] => destruct c
             | |- context [match prepareBlock ?x with _ => _ end] =>
                 destruct (prepareBlock x)
             end; done.
    + unfold linkStart.
      destruct (inFlight s) as [current|] eqn:Hcurrent; [by left|].
      destruct (chain s) as [|bp rest] eqn:Hchain; [by left|].
      destruct (blockReplyAborted s) eqn:Haborted; [by left|].
      right. exists bp. split; [done|]. split; [|done].
      apply (Hkeys bp). unfold awaiting. rewrite Hcurrent, Hchain.
      apply elem_of_cons. by left.
    + left. unfold linkSettle. destruct (inFlight s); [|done].
      by destruct (withTimeout _ d).
  - intros suppress deduped p Henabled Hp.
    unfold replyPayloads, filteredPayloads in Hp.
    destruct suppress; [by apply elem_of_nil in Hp|].
    destruct (shouldDropFinalPayloads _ s); [by apply elem_of_nil in Hp|].
    rewrite Henabled in Hp.
    apply list_elem_of_In, filter_In in Hp as [_ Hp].
    unfold notStreamed in Hp. apply negb_true_iff in Hp.
    by apply bool_decide_eq_false in Hp.
Qed.

Lemma lastTextIndex_spec (payloads : list ReplyPayload) :
  match lastTextIndex payloads with
  | None => Forall (fun p => hasText p = false) payloads
  | Some i =>
      (exists p, payloads !! i = Some p /\ hasText p = true)
      /\ forall j q, (i < j)%nat -> payloads !! j = Some q -> hasText q = false
  end.
Proof.
  induction payloads as [|p rest IH]; simpl; [constructor|].
  destruct (lastTextIndex rest) as [i|].
  - destruct IH as [(q & Hq & Ht) Hlater]. split; [by exists q|].
    intros j q' Hj. destruct j as [|j]; [lia|]. simpl. apply Hlater. lia.
  - destruct (hasText p) eqn:Hp.
    + split; [by exists p|]. intros j q Hj. destruct j as [|j]; [lia|].
      simpl. intros Hq. eapply Forall_forall in IH; [exact IH|].
      by eapply list_elem_of_lookup_2.
    + by constructor.
Qed.

(** X30: the usage line goes on the last payload that has a text, after a
    line feed unless the text ends with one, and every other payload is
    handed on as it is; when no payload has a text, the line is a
    payload of its own after all the others. *)
Theorem usage_line_goes_on_last_text (payloads : list ReplyPayload)
    (line : string) :
  let out := appendUsageLine payloads line in
  match lastTextIndex payloads with
  | None =>
      Forall (fun p => hasText p = false) payloads
      /\ out = (payloads ++ [{| text := Some line; mediaUrl := None;
                                mediaUrls := None; replyToId := None |}])%list
  | Some i =>
      length out = length payloads
      /\ (forall j, j <> i -> out !! j = payloads !! j)
      /\ (forall j q, (i < j)%nat -> payloads !! j = Some q ->
                      hasText q = false)
      /\ exists p t,
           payloads !! i = Some p /\ text p = Some t /\ t <> ""
           /\ out !! i
              = Some (withText p
                        (t ++ (if endsWithChar "010" t then "" else newline)
                           ++ line))
  end.
Proof.
  intros out. subst out. unfold appendUsageLine.
  pose proof (lastTextIndex_spec payloads) as Hspec.
  destruct (lastTextIndex payloads) as [i|]; [|done].
  destruct Hspec as [(p & Hp & Ht) Hlater]. rewrite Hp.
  split; [by rewrite length_insert|].
  split; [intros j Hj; by rewrite list_lookup_insert_ne|].
  split; [done|].
  unfold hasText in Ht. destruct (text p) as [t|] eqn:Htext; [|done].
  exists p, t. split; [done|]. split; [done|].
  split; [by apply truthy_true_nonempty|].
  simpl. apply list_lookup_insert_eq. by eapply lookup_lt_Some.
Qed.

End MoreReplyAgentFacts.
